(** * virttest.libvirt_storage: pool and volume helpers over virsh

    A shallow embedding of [virttest/libvirt_storage.py] and the
    properties of its parsers and wrapper methods.

    Text is a list of characters (code points below 256); dictionaries are
    finite maps; the virsh instance is an arbitrary oracle over an abstract
    state of the libvirt side; methods run in a state-and-exception monad
    that also records the invoked commands and the log lines. *)

From Stdlib Require Import Ascii String List Arith Lia Bool.
From stdpp Require Import base option list gmap strings.
Import ListNotations.

Set Warnings "-clear-no-such-hyp".

(** ** Python text *)

Definition pystr := list ascii.

Definition str (s : string) : pystr := list_ascii_of_string s.

Module Py.

(** [str.isspace] on one character: TAB..CR, FS..US, space, NEL, NBSP. *)
Definition isspace (c : ascii) : bool :=
  let n := nat_of_ascii c in
  ((9 <=? n) && (n <=? 13)) || ((28 <=? n) && (n <=? 32))
  || (n =? 133) || (n =? 160).

(** Line boundaries of [str.splitlines]: LF, VT, FF, CR, FS, GS, RS, NEL. *)
Definition is_linebreak (c : ascii) : bool :=
  let n := nat_of_ascii c in
  ((10 <=? n) && (n <=? 13)) || ((28 <=? n) && (n <=? 30)) || (n =? 133).

Definition CR : ascii := ascii_of_nat 13.
Definition LF : ascii := ascii_of_nat 10.

Definition ascii_eqb (a b : ascii) : bool := Ascii.eqb a b.

(** [s.lstrip()], [s.rstrip()], [s.strip()] *)
Fixpoint lstrip (s : pystr) : pystr :=
  match s with
  | c :: s' => if isspace c then lstrip s' else s
  | [] => []
  end.

Definition rstrip (s : pystr) : pystr := rev (lstrip (rev s)).

Definition strip (s : pystr) : pystr := rstrip (lstrip s).

(** [s.splitlines()]: CR LF counts as one boundary, and a boundary at the
    very end opens no further line. *)
Fixpoint splitlines (s : pystr) : list pystr :=
  match s with
  | [] => []
  | c :: s' =>
      if is_linebreak c then
        if ascii_eqb c CR then
          match s' with
          | d :: s'' => if ascii_eqb d LF then [] :: splitlines s''
                        else [] :: splitlines s'
          | [] => [] :: splitlines s'
          end
        else [] :: splitlines s'
      else
        match splitlines s' with
        | [] => [[c]]
        | l :: ls => (c :: l) :: ls
        end
  end.

(** [s.split()]: fields between runs of white space, none of them empty.
    [cur] is the field being read. *)
Fixpoint split_ws_from (cur : pystr) (s : pystr) : list pystr :=
  match s with
  | [] => match cur with [] => [] | _ => [cur] end
  | c :: s' =>
      if isspace c then
        match cur with
        | [] => split_ws_from [] s'
        | _ => cur :: split_ws_from [] s'
        end
      else split_ws_from (cur ++ [c]) s'
  end.

Definition split_ws (s : pystr) : list pystr := split_ws_from [] s.

(** [startswith] *)
Fixpoint startswith (p s : pystr) : bool :=
  match p, s with
  | [], _ => true
  | a :: p', b :: s' => ascii_eqb a b && startswith p' s'
  | _ :: _, [] => false
  end.

(** [s.split(sep)] for a non-empty [sep]: the occurrences of [sep] are taken
    from the left and do not overlap. [skip] counts the characters of the
    occurrence being passed over, [cur] is the piece being read. *)
Fixpoint split_from (sep : pystr) (skip : nat) (cur : pystr) (s : pystr)
  : list pystr :=
  match s with
  | [] => [cur]
  | c :: s' =>
      match skip with
      | S k => split_from sep k cur s'
      | O =>
          if startswith sep s
          then cur :: split_from sep (length sep - 1) [] s'
          else split_from sep 0 (cur ++ [c]) s'
      end
  end.

End Py.

(** ** The regular expressions of the module

    Both patterns of the source are sequences of character classes, each
    taken once or repeated greedily, so a pattern is a list of such items
    and matching backtracks over the repetitions as [re] does. *)

Module Re.

Inductive quant := One | Star | Plus.

Definition item : Type := (ascii -> bool) * quant.

Definition pattern := list item.

(** [cls*] followed by the rest [k]: longest run first, then shorter ones. *)
Fixpoint greedy (cls : ascii -> bool) (k : pystr -> option pystr)
    (s : pystr) : option pystr :=
  match s with
  | c :: s' =>
      if cls c then
        match greedy cls k s' with
        | Some m => Some (c :: m)
        | None => k s
        end
      else k s
  | [] => k []
  end.

(** The text matched by [p] at the start of [s], if [p] matches there. *)
Fixpoint match_here (p : pattern) (s : pystr) : option pystr :=
  match p with
  | [] => Some []
  | (cls, One) :: p' =>
      match s with
      | c :: s' => if cls c then cons c <$> match_here p' s' else None
      | [] => None
      end
  | (cls, Star) :: p' => greedy cls (match_here p') s
  | (cls, Plus) :: p' =>
      match s with
      | c :: s' => if cls c then cons c <$> greedy cls (match_here p') s'
                   else None
      | [] => None
      end
  end.

(** [re.match(p, s)] used as a truth value *)
Definition re_match (p : pattern) (s : pystr) : bool :=
  bool_decide (is_Some (match_here p s)).

(** [re.findall(p, s)] for a pattern without groups: the matches from the
    left, without overlap. [skip] counts the characters of the match being
    passed over. *)
Fixpoint findall_from (p : pattern) (skip : nat) (s : pystr) : list pystr :=
  match skip with
  | S k =>
      match s with
      | [] => []
      | _ :: s' => findall_from p k s'
      end
  | O =>
      match match_here p s with
      | Some m =>
          m :: match s with
               | [] => []
               | _ :: s' => findall_from p (length m - 1) s'
               end
      | None =>
          match s with
          | [] => []
          | _ :: s' => findall_from p 0 s'
          end
      end
  end.

Definition findall (p : pattern) (s : pystr) : list pystr :=
  findall_from p 0 s.

Definition lit (a : ascii) : ascii -> bool := Py.ascii_eqb a.

Definition one_of (cs : pystr) : ascii -> bool :=
  fun c => existsb (Py.ascii_eqb c) cs.

(** [\s], [\S] and [.] *)
Definition space : ascii -> bool := Py.isspace.
Definition nonspace : ascii -> bool := fun c => negb (Py.isspace c).
Definition dot : ascii -> bool := fun c => negb (Py.ascii_eqb c Py.LF).

(** ["[N|n]ame"]: the class holds the three characters N, | and n. *)
Definition name_column : pattern :=
  [ (one_of (str "N|n"), One); (lit "a", One); (lit "m", One);
    (lit "e", One) ].

(** ["\s+\S*/.*"] *)
Definition volume_path : pattern :=
  [ (space, Plus); (nonspace, Star); (lit "/", One); (dot, Star) ].

End Re.

(** ** Exceptions and results *)

Inductive exn :=
| CmdError (detail : pystr)
| IndexError
| KeyError (key : pystr)
| ValueError
| UnboundLocalError
| AttributeError.

Inductive outcome (A : Type) :=
| Return (a : A)
| Raise (e : exn).
Arguments Return {A} a.
Arguments Raise {A} e.

Definition outcome_bind {A B} (f : A -> outcome B) (m : outcome A)
  : outcome B :=
  match m with
  | Return a => f a
  | Raise e => Raise e
  end.

#[global] Instance outcome_mret : MRet outcome := @Return.
#[global] Instance outcome_mbind : MBind outcome := @outcome_bind.

(** A [for] loop whose body may raise: the first exception ends it. *)
Fixpoint for_each {A S} (xs : list A) (body : A -> S -> outcome S) (s : S)
  : outcome S :=
  match xs with
  | [] => Return s
  | x :: xs' =>
      match body x s with
      | Return s' => for_each xs' body s'
      | Raise e => Raise e
      end
  end.

(** [l[i]] and [l[-1]] *)
Definition getitem {A} (l : list A) (i : nat) : outcome A :=
  match l !! i with
  | Some a => Return a
  | None => Raise IndexError
  end.

Definition getitem_last {A} (l : list A) : outcome A :=
  match last l with
  | Some a => Return a
  | None => Raise IndexError
  end.

(** [d[k]] *)
Definition dict_getitem {V} (d : gmap pystr V) (k : pystr) : outcome V :=
  match d !! k with
  | Some v => Return v
  | None => Raise (KeyError k)
  end.

(** [enumerate(l)] *)
Definition enumerate {A} (l : list A) : list (nat * A) :=
  imap (fun i x => (i, x)) l.

(** [s.split(sep)]: an empty separator is refused. *)
Definition split (sep : pystr) (s : pystr) : outcome (list pystr) :=
  match sep with
  | [] => Raise ValueError
  | _ => Return (Py.split_from sep 0 [] s)
  end.

(** ** The parsing loops

    Each loop of the source is a function of the text it reads; the methods
    below run them on what virsh printed. *)

Module Parse.

(** Inner loop of [list_pools] (one header column): the column that
    matches ["[N|n]ame"] sets [pool_name], any other one sets an entry of
    [details_dict]. *)
Definition column_step (details : list pystr) (ic : nat * pystr)
    (st : option pystr * gmap pystr pystr)
  : outcome (option pystr * gmap pystr pystr) :=
  let '(index, column) := ic in
  if Re.re_match Re.name_column column then
    d ← getitem details index; Return (Some d, st.2)
  else
    d ← getitem details index; Return (st.1, <[column := d]> st.2).

(** Body of [for line in lines] in [list_pools]. [pool_name] is a local of
    the method: unbound (None) until a name column has been read. *)
Definition pool_line_step (head : pystr) (line : pystr)
    (st : option pystr * gmap pystr (gmap pystr pystr))
  : outcome (option pystr * gmap pystr (gmap pystr pystr)) :=
  let details := Py.split_ws line in
  r ← for_each (enumerate (Py.split_ws head)) (column_step details) (st.1, ∅);
  match r.1 with
  | Some pool_name => Return (Some pool_name, <[pool_name := r.2]> st.2)
  | None => Raise UnboundLocalError
  end.

(** [list_pools] from [result.stdout_text] on *)
Definition pools (stdout_text : pystr)
  : outcome (gmap pystr (gmap pystr pystr)) :=
  let lines := Py.splitlines (Py.strip stdout_text) in
  if 2 <? length lines then
    head ← getitem lines 0;
    let lines := drop 2 lines in
    r ← for_each lines (pool_line_step head) (None, ∅);
    Return r.2
  else Return ∅.

(** Body of the loop of [pool_info] *)
Definition pool_info_step (info : gmap pystr pystr) (line : pystr)
  : gmap pystr pystr :=
  let params := Py.split_from (str ":") 0 [] line in
  match params with
  | [p0; p1] => <[Py.strip p0 := Py.strip p1]> info
  | _ => info
  end.

(** [pool_info] from [result.stdout_text] on *)
Definition pool_info (stdout_text : pystr) : gmap pystr pystr :=
  fold_left pool_info_step (Py.splitlines stdout_text) ∅.

(** Body of the loop of [list_volumes]: only the [IndexError] of
    [findall(...)[0]] is handled. *)
Definition volume_line_step (line : pystr) (volumes : gmap pystr pystr)
  : outcome (gmap pystr pystr) :=
  let path :=
    match getitem (Re.findall Re.volume_path line) 0 with
    | Return p => p
    | Raise _ => []
    end in
  pieces ← split path line;
  piece ← getitem pieces 0;
  let name := Py.lstrip piece in
  Return (<[name := Py.strip path]> volumes).

(** [list_volumes] from [result.stdout_text] on *)
Definition volumes (stdout_text : pystr) : outcome (gmap pystr pystr) :=
  let lines := Py.splitlines (Py.strip stdout_text) in
  if 2 <? length lines then
    head ← getitem lines 0;
    let lines := drop 2 lines in
    for_each lines volume_line_step ∅
  else Return ∅.

(** Body of the loop of [volume_info] *)
Definition volume_info_step (line : pystr) (info : gmap pystr pystr)
  : outcome (gmap pystr pystr) :=
  pieces ← split (str ":") line;
  attr ← getitem pieces 0;
  pieces' ← split (attr ++ str ":") line;
  piece ← getitem_last pieces';
  let value := Py.strip piece in
  Return (<[attr := value]> info).

(** [volume_info] from [result.stdout_text] on *)
Definition volume_info (stdout_text : pystr) : outcome (gmap pystr pystr) :=
  for_each (Py.splitlines (Py.strip stdout_text)) volume_info_step ∅.

End Parse.

(** ** The virsh instance

    The [virsh] module is not part of this file. An instance is taken as an
    arbitrary function: a call reads and changes the state [D] of the
    libvirt side and either returns a value or raises. Every call of this
    module but [pool_destroy] and [pool_build] passes [ignore_status=False];
    [vol_create_as] also passes [debug=True]. *)

Module virsh.

Record CmdResult := { stdout_text : pystr }.

Inductive value :=
| VResult (r : CmdResult)
| VBool (b : bool).

Inductive pyarg :=
| AStr (s : pystr)
| ABool (b : bool)
| ANone.

Inductive command :=
| pool_list (option : pystr)
| pool_info (name : pystr)
| pool_destroy (name : pystr)
| pool_undefine (name : pystr)
| pool_autostart (name extra : pystr)
| pool_build (name options : pystr) (dargs : list (pystr * pyarg))
| pool_start (name : pystr)
| pool_define_as (name pool_type target extra : pystr)
| vol_list (pool_name : pystr)
| vol_info (name pool_name : pystr)
| vol_create_as (name pool_name capability : pystr)
    (allocation frmt : option pystr)
| vol_delete (name pool_name : pystr)
| vol_clone (old_name new_name pool_name : pystr).

Definition instance (D : Type) : Type := command -> D -> outcome value * D.

(** Truth value of what a call returned: a result object is true. *)
Definition truthy (v : value) : bool :=
  match v with
  | VBool b => b
  | VResult _ => true
  end.

End virsh.

(** ** Log records: level, message and the arguments given to format it *)

Inductive level := DEBUG | INFO | ERROR.

Inductive logarg :=
| LStr (s : pystr)
| LDict (d : gmap pystr pystr).

Record log_record := { lvl : level; msg : pystr; args : list logarg }.

(** ** The monad of the methods

    A method runs on the object it is called on ([self], whose fields it may
    assign), the state of the libvirt side, the list of virsh calls made so
    far and the log. An exception keeps the effects made before it. *)

Record state (D Self : Type) := {
  self : Self;
  daemon : D;
  calls : list virsh.command;
  log : list log_record
}.
Arguments self {D Self} _.
Arguments daemon {D Self} _.
Arguments calls {D Self} _.
Arguments log {D Self} _.

Definition M (D Self A : Type) : Type :=
  state D Self -> outcome A * state D Self.

Definition ret {D Self A} (a : A) : M D Self A := fun st => (Return a, st).

Definition raise {D Self A} (e : exn) : M D Self A :=
  fun st => (Raise e, st).

Definition bind {D Self A B} (m : M D Self A) (f : A -> M D Self B)
  : M D Self B :=
  fun st =>
    match m st with
    | (Return a, st') => f a st'
    | (Raise e, st') => (Raise e, st')
    end.

Declare Scope M_scope.
Delimit Scope M_scope with M.
Notation "x ← y ; z" := (bind y (fun x => z))
  (at level 20, y at level 100, z at level 200, only parsing) : M_scope.

(** A pure computation that may raise *)
Definition lift {D Self A} (o : outcome A) : M D Self A := fun st => (o, st).

(** [try: m except ...: h]; [h e = None] when no clause catches [e]. *)
Definition try_except {D Self A} (m : M D Self A)
    (h : exn -> option (M D Self A)) : M D Self A :=
  fun st =>
    match m st with
    | (Return a, st') => (Return a, st')
    | (Raise e, st') =>
        match h e with
        | Some handler => handler st'
        | None => (Raise e, st')
        end
    end.

(** [try: x = m / except process.CmdError as detail: return h detail], and
    then the rest [k x] of the method. *)
Definition try_CmdError {D Self A B} (m : M D Self B)
    (h : pystr -> M D Self A) (k : B -> M D Self A) : M D Self A :=
  fun st =>
    match m st with
    | (Return b, st') => k b st'
    | (Raise (CmdError detail), st') => h detail st'
    | (Raise e, st') => (Raise e, st')
    end.

Definition read_self {D Self A} (field : Self -> A) : M D Self A :=
  fun st => (Return (field (self st)), st).

(** [self.virsh_instance.<command>(...)] *)
Definition call {D Self} (virsh_instance : Self -> virsh.instance D)
    (c : virsh.command) : M D Self virsh.value :=
  fun st =>
    let '(r, d') := virsh_instance (self st) c (daemon st) in
    (r, {| self := self st; daemon := d';
           calls := calls st ++ [c]; log := log st |}).

(** [result.stdout_text] *)
Definition stdout_text {D Self} (v : virsh.value) : M D Self pystr :=
  match v with
  | virsh.VResult r => ret (virsh.stdout_text r)
  | virsh.VBool _ => raise AttributeError
  end.

Definition emit {D Self} (l : level) (m : pystr) (a : list logarg)
  : M D Self unit :=
  fun st =>
    (Return tt, {| self := self st; daemon := daemon st; calls := calls st;
                   log := log st ++ [{| lvl := l; msg := m; args := a |}] |}).

Module LOG.
Definition error {D Self} (m : string) (a : list logarg) : M D Self unit :=
  emit ERROR (str m) a.
Definition info {D Self} (m : string) (a : list logarg) : M D Self unit :=
  emit INFO (str m) a.
Definition debug {D Self} (m : string) (a : list logarg) : M D Self unit :=
  emit DEBUG (str m) a.
End LOG.

(** [k in d] *)
Definition contains {V} (d : gmap pystr V) (k : pystr) : bool :=
  bool_decide (is_Some (d !! k)).

Definition pystr_eqb (a b : pystr) : bool := bool_decide (a = b).

Local Open Scope M_scope.

(** ** class StoragePool *)

Module StoragePool.

Record t (D : Type) := { virsh_instance : virsh.instance D }.
Arguments virsh_instance {D} _.

Definition init {D} (virsh_instance : virsh.instance D) : t D :=
  {| virsh_instance := virsh_instance |}.

Definition list_pools {D}
  : M D (t D) (gmap pystr (gmap pystr pystr)) :=
  (* Allow it raise exception if command has executed failed. *)
  result ← call virsh_instance (virsh.pool_list (str "--all"));
  text ← stdout_text result;
  lift (Parse.pools text).

Definition pool_exists {D} (name : pystr) : M D (t D) bool :=
  try_CmdError list_pools
    (fun _ => ret false)
    (fun pools => ret (contains pools name)).

Definition on_CmdError_or_KeyError {D Self A} (h : M D Self A) (e : exn)
  : option (M D Self A) :=
  match e with
  | CmdError _ | KeyError _ => Some h
  | _ => None
  end.

Definition pool_state {D} (name : pystr) : M D (t D) (option pystr) :=
  try_except
    (pools ← list_pools;
     details ← lift (dict_getitem pools name);
     v ← lift (dict_getitem details (str "State"));
     ret (Some v))
    (on_CmdError_or_KeyError (ret None)).

Definition pool_autostart {D} (name : pystr) : M D (t D) (option pystr) :=
  try_except
    (pools ← list_pools;
     details ← lift (dict_getitem pools name);
     v ← lift (dict_getitem details (str "Autostart"));
     ret (Some v))
    (on_CmdError_or_KeyError (ret None)).

Definition pool_info {D} (name : pystr) : M D (t D) (gmap pystr pystr) :=
  try_CmdError (call virsh_instance (virsh.pool_info name))
    (fun _ => ret ∅)
    (fun result =>
       text ← stdout_text result;
       ret (Parse.pool_info text)).

Definition get_pool_uuid {D} (name : pystr) : M D (t D) pystr :=
  info ← pool_info name;
  lift (dict_getitem info (str "UUID")).

Definition is_pool_active {D} (name : pystr) : M D (t D) bool :=
  s ← pool_state name;
  if bool_decide (s = Some (str "active")) then ret true else ret false.

Definition is_pool_persistent {D} (name : pystr) : M D (t D) bool :=
  info ← pool_info name;
  v ← lift (dict_getitem info (str "Persistent"));
  if pystr_eqb v (str "yes") then ret true else ret false.

(** The part of [delete_pool] after the destroy: undefine pool anyway. The
    handler returns only when the pool is still there. *)
Definition delete_pool_undefine {D} (name : pystr) : M D (t D) bool :=
  returned ←
    try_CmdError (call virsh_instance (virsh.pool_undefine name))
      (fun detail =>
         still ← pool_exists name;
         if still then
           _ ← LOG.error "Undefine pool '%s' failed:%s" [LStr name; LStr detail];
           ret (Some false)
         else ret None)
      (fun _ => ret None);
  match returned with
  | Some b => ret b
  | None =>
      _ ← LOG.info "Deleted pool '%s'" [LStr name];
      ret true
  end.

Definition delete_pool {D} (name : pystr) : M D (t D) bool :=
  active ← is_pool_active name;
  if active then
    destroyed ← call virsh_instance (virsh.pool_destroy name);
    if negb (virsh.truthy destroyed) then
      _ ← LOG.error "Destroy pool '%s' failed." [LStr name];
      ret false
    else delete_pool_undefine name
  else delete_pool_undefine name.

Definition set_pool_autostart {D} (name extra : pystr) : M D (t D) bool :=
  try_CmdError (call virsh_instance (virsh.pool_autostart name extra))
    (fun _ =>
       _ ← LOG.error "Autostart pool '%s' failed." [LStr name];
       ret false)
    (fun _ =>
       _ ← LOG.info "Set pool '%s' autostart." [LStr name];
       ret true).

Definition build_pool {D} (name options : pystr)
    (dargs : list (pystr * virsh.pyarg)) : M D (t D) bool :=
  try_CmdError (call virsh_instance (virsh.pool_build name options dargs))
    (fun _ =>
       _ ← LOG.error "Build pool '%s' failed." [LStr name];
       ret false)
    (fun _ =>
       _ ← LOG.info "Built pool '%s'" [LStr name];
       ret true).

Definition start_pool {D} (name : pystr) : M D (t D) bool :=
  active ← is_pool_active name;
  if active then
    _ ← LOG.info "Pool '%s' is already active." [LStr name];
    ret true
  else
    try_CmdError (call virsh_instance (virsh.pool_start name))
      (fun details =>
         _ ← LOG.error "Start pool '%s' failed: %s" [LStr name; LStr details];
         ret false)
      (fun _ =>
         _ ← LOG.info "Started pool '%s'" [LStr name];
         ret true).

Definition destroy_pool {D} (name : pystr) : M D (t D) virsh.value :=
  active ← is_pool_active name;
  if negb active then
    _ ← LOG.info "pool '%s' is already inactive." [LStr name];
    ret (virsh.VBool true)
  else call virsh_instance (virsh.pool_destroy name).

(** The common shape of the [define_*_pool] methods *)
Definition define_pool {D} (kind : string) (said : string)
    (name pool_type target extra : pystr) : M D (t D) bool :=
  try_CmdError
    (call virsh_instance (virsh.pool_define_as name pool_type target extra))
    (fun _ =>
       _ ← LOG.error ("Define " ++ kind ++ " pool '%s' failed.") [LStr name];
       ret false)
    (fun _ =>
       _ ← LOG.info (said ++ " pool '%s'") [LStr name];
       ret true).

Definition define_dir_pool {D} (name target_path : pystr) : M D (t D) bool :=
  define_pool "dir" "Defined" name (str "dir") target_path [].

Definition define_fs_pool {D} (name block_device target_path : pystr)
  : M D (t D) bool :=
  define_pool "fs" "Defined" name (str "fs") target_path
    (str "--source-dev " ++ block_device).

Definition define_lvm_pool {D} (name block_device vg_name target_path : pystr)
  : M D (t D) bool :=
  let extra :=
    str "--source-dev " ++ block_device ++ str " --source-name " ++ vg_name in
  define_pool "logic" "Defined" name (str "logical") target_path extra.

Definition define_disk_pool {D} (name block_device target_path : pystr)
  : M D (t D) bool :=
  let extra := str "--source-dev " ++ block_device in
  define_pool "disk" "Defined" name (str "disk") target_path extra.

Definition define_iscsi_pool {D}
    (name source_host source_dev target_path : pystr) : M D (t D) bool :=
  let extra :=
    str "--source-host " ++ source_host ++ str "  --source-dev " ++ source_dev
  in
  define_pool "iscsi" "Define" name (str "iscsi") target_path extra.

Definition define_netfs_pool {D}
    (name source_host source_path target_path : pystr) : M D (t D) bool :=
  let extra :=
    str "--source-host " ++ source_host ++ str " --source-path "
      ++ target_path in
  define_pool "netfs" "Define" name (str "netfs") target_path extra.

Definition define_rbd_pool {D} (name source_host source_name extra : pystr)
  : M D (t D) bool :=
  let extra :=
    str "--source-host " ++ source_host ++ str " --source-name "
      ++ source_name ++ str " " ++ extra in
  define_pool "rbd" "Define" name (str "rbd") [] extra.

End StoragePool.

(** ** class PoolVolume *)

Module PoolVolume.

Record t (D : Type) := {
  pool_name : pystr;
  virsh_instance : virsh.instance D
}.
Arguments pool_name {D} _.
Arguments virsh_instance {D} _.

Definition init {D} (pool_name : pystr) (virsh_instance : virsh.instance D)
  : t D :=
  {| pool_name := pool_name; virsh_instance := virsh_instance |}.

Definition list_volumes {D} : M D (t D) (gmap pystr pystr) :=
  pool ← read_self pool_name;
  try_CmdError (call virsh_instance (virsh.vol_list pool))
    (fun detail =>
       _ ← LOG.error "List volume failed: %s" [LStr detail];
       ret ∅)
    (fun result =>
       text ← stdout_text result;
       lift (Parse.volumes text)).

Definition volume_exists {D} (name : pystr) : M D (t D) bool :=
  volumes ← list_volumes;
  ret (contains volumes name).

Definition volume_info {D} (name : pystr) : M D (t D) (gmap pystr pystr) :=
  pool ← read_self pool_name;
  try_CmdError (call virsh_instance (virsh.vol_info name pool))
    (fun detail =>
       _ ← LOG.error "Get volume information failed: %s" [LStr detail];
       ret ∅)
    (fun result =>
       text ← stdout_text result;
       lift (Parse.volume_info text)).

Definition create_volume {D} (name capability : pystr)
    (allocation frmt : option pystr) : M D (t D) bool :=
  exists_ ← volume_exists name;
  if exists_ then
    _ ← LOG.debug "Volume '%s' already exists." [LStr name];
    ret false
  else
    pool ← read_self pool_name;
    try_CmdError
      (call virsh_instance
         (virsh.vol_create_as name pool capability allocation frmt))
      (fun detail =>
         _ ← LOG.error "Create volume failed:%s" [LStr detail];
         ret false)
      (fun _ =>
         created ← volume_exists name;
         if negb created then
           volumes ← list_volumes;
           _ ← LOG.error "Created volume does not exist:%s" [LDict volumes];
           ret false
         else ret true).

Definition delete_volume {D} (name : pystr) : M D (t D) bool :=
  exists_ ← volume_exists name;
  if exists_ then
    pool ← read_self pool_name;
    try_CmdError (call virsh_instance (virsh.vol_delete name pool))
      (fun detail =>
         _ ← LOG.error "Delete volume failed:%s" [LStr detail];
         ret false)
      (fun _ =>
         still ← volume_exists name;
         if negb still then
           _ ← LOG.debug "Volume '%s' has been deleted." [LStr name];
           ret true
         else
           _ ← LOG.debug "Delete volume '%s' failed." [LStr name];
           ret false)
  else
    _ ← LOG.info "Volume '%s' does not exist." [LStr name];
    ret true.

(** [a and not b]: [b] is evaluated only when [a] is true. *)
Definition and_not {D Self} (a b : M D Self bool) : M D Self bool :=
  x ← a;
  if x then y ← b; ret (negb y) else ret false.

Definition clone_volume {D} (old_name new_name : pystr) : M D (t D) bool :=
  go ← and_not (volume_exists old_name) (volume_exists new_name);
  if go then
    pool ← read_self pool_name;
    try_CmdError
      (call virsh_instance (virsh.vol_clone old_name new_name pool))
      (fun detail =>
         _ ← LOG.error "Clone volume failed:%s" [LStr detail];
         ret false)
      (fun _ =>
         cloned ← volume_exists new_name;
         if cloned then
           _ ← LOG.debug "Volume '%s' has been created by clone."
                 [LStr new_name];
           ret true
         else
           _ ← LOG.debug "Volume '%s' clone failed." [LStr old_name];
           ret false)
  else
    _ ← emit INFO
          (str "Volume '" ++ old_name ++ str "' does not exist or '"
             ++ new_name ++ str "' has been exist.") [];
    ret false.

End PoolVolume.

(** ** check_qemu_image_lock_support *)

Module process.

(** [process.run(cmd, ignore_status=...)] as far as the function below uses
    it: the command line and the flag go in, the [stdout_text] of the result
    or an exception comes out, and the machine [E] moves on. *)
Definition runner (E : Type) : Type :=
  pystr -> bool -> E -> outcome pystr * E.

End process.

(** [sub in s] on strings *)
Fixpoint str_in (sub s : pystr) : bool :=
  Py.startswith sub s
  || match s with
     | [] => false
     | _ :: s' => str_in sub s'
     end.

(** In the handler of [process.CmdError] the arguments of the new
    [CmdError] are evaluated first, and [binary_path] was never bound. *)
Definition check_qemu_image_lock_support {E} (run : process.runner E)
    (env : E) : outcome bool * E :=
  let cmd := str "qemu-img" in
  match run (str "which " ++ cmd) false env with
  | (Return out, env1) =>
      let binary_path := Py.strip out in
      match run (binary_path ++ str " -h") true env1 with
      | (Return text, env2) => (Return (str_in (str "-U") text), env2)
      | (Raise e, env2) => (Raise e, env2)
      end
  | (Raise (CmdError _), env1) => (Raise UnboundLocalError, env1)
  | (Raise e, env1) => (Raise e, env1)
  end.

(** ** Vocabulary of the statements *)

(** [x] is the element of [l] at [n], it satisfies [P], and no later
    element of [l] does. *)
Definition last_at {A} (P : A -> Prop) (l : list A) (n : nat) (x : A)
  : Prop :=
  l !! n = Some x ∧ P x ∧ ∀ m y, n < m -> l !! m = Some y -> ¬ P y.

Definition colon : ascii := ":"%char.

(** [sep] occurs in [s] *)
Definition occurs (sep s : pystr) : Prop := ∃ l r, s = l ++ sep ++ r.

(** A header column that [re.match("[N|n]ame", column)] accepts *)
Definition is_name (column : pystr) : Prop :=
  Re.re_match Re.name_column column = true.

(** [k] is the field of [line] under the name column of the header [cols]
    (the last column that is a name column). *)
Definition key_of (cols : list pystr) (line k : pystr) : Prop :=
  ∃ i c, last_at is_name cols i c ∧ Py.split_ws line !! i = Some k.

(** [d] maps every header column that is not a name column to the field of
    [line] under it (under its last occurrence in the header), and nothing
    else. *)
Definition details_of (cols : list pystr) (line : pystr)
    (d : gmap pystr pystr) : Prop :=
  ∀ c v, d !! c = Some v ↔
         ¬ is_name c ∧ ∃ j, last_at (eq c) cols j c
                            ∧ Py.split_ws line !! j = Some v.

(** The leftmost match of [p] in [line] starts after [before], and [sfx] is
    the rest of the line from there. *)
Definition leftmost_at (p : Re.pattern) (line before sfx : pystr) : Prop :=
  line = before ++ sfx
  ∧ is_Some (Re.match_here p sfx)
  ∧ ∀ b' s', line = b' ++ s' -> length b' < length before ->
             Re.match_here p s' = None.

(** [attr] is the text of [line] before its first [':'], the whole line
    when it has none. *)
Definition attr_of (line attr : pystr) : Prop :=
  ((colon ∉ line) ∧ attr = line)
  ∨ ((colon ∉ attr) ∧ ∃ r, line = attr ++ colon :: r).

(** [v] is the stripped text of [line] after the last occurrence of [attr]
    followed by [':'], the whole line stripped when there is none. *)
Definition value_of (line attr v : pystr) : Prop :=
  let sep := attr ++ [colon] in
  (¬ occurs sep line ∧ v = Py.strip line)
  ∨ (∃ l w, line = l ++ sep ++ w
            ∧ (∀ l' w', line = l' ++ sep ++ w' -> length l' ≤ length l)
            ∧ v = Py.strip w).

(** A line of [pool-info] that splits on [':'] into exactly two parts *)
Definition two_parts (line a b : pystr) : Prop :=
  Py.split_from [colon] 0 [] line = [a; b].

(** ** Instances and states for the examples *)

Module Example.

Definition prints (text : string) : virsh.instance unit :=
  fun _ d => (Return (virsh.VResult {| virsh.stdout_text := str text |}), d).

Definition fails (detail : string) : virsh.instance unit :=
  fun _ d => (Raise (CmdError (str detail)), d).

Definition start {Self} (obj : Self) : state unit Self :=
  {| self := obj; daemon := tt; calls := []; log := [] |}.

Definition nl : string := String (ascii_of_nat 10) EmptyString.

(** A stand-in for libvirt whose state is the list of volume names:
    [vol-list] prints them as a table, [vol-create-as] adds one unless the
    capacity is empty, [vol-delete] removes one that is there. *)
Definition table (vols : list pystr) : pystr :=
  str ("Name Path" ++ nl ++ "----" ++ nl)
  ++ concat (map (fun n => n ++ str " /pool/" ++ n ++ str nl) vols).

Definition done_text : virsh.value :=
  virsh.VResult {| virsh.stdout_text := str "done" |}.

Definition volumes : virsh.instance (list pystr) :=
  fun c vols =>
    match c with
    | virsh.vol_list _ =>
        (Return (virsh.VResult {| virsh.stdout_text := table vols |}), vols)
    | virsh.vol_create_as name _ capability _ _ =>
        match capability with
        | [] => (Raise (CmdError (str "capacity required")), vols)
        | _ => (Return done_text, vols ++ [name])
        end
    | virsh.vol_delete name _ =>
        if bool_decide (name ∈ vols)
        then (Return done_text, filter (fun n => n ≠ name) vols)
        else (Raise (CmdError (str "no such volume")), vols)
    | _ => (Raise (CmdError (str "unsupported")), vols)
    end.

Definition with_volumes (vols : list pystr)
  : state (list pystr) (PoolVolume.t (list pystr)) :=
  {| self := PoolVolume.init (str "default") volumes; daemon := vols;
     calls := []; log := [] |}.

End Example.

(** ** Definitions used by the statements and their proofs *)

(** One step of a loop that writes dict entries: [f x] is the entry that
    [x] writes, if it writes one. *)
Definition insert_step {A V} (f : A -> option (pystr * V))
    (m : gmap pystr V) (x : A) : gmap pystr V :=
  match f x with
  | Some (k, v) => <[k := v]> m
  | None => m
  end.

(** [x] writes the key [k] *)
Definition writes {A V} (f : A -> option (pystr * V)) (k : pystr) (x : A)
  : Prop :=
  ∃ v, f x = Some (k, v).

(** One step of a loop that may overwrite a variable *)
Definition last_step {A B} (f : A -> option B) (a : option B) (x : A)
  : option B :=
  match f x with
  | Some b => Some b
  | None => a
  end.

(** The entry that one line of [pool-info] contributes, if any *)
Definition pool_info_entry (line : pystr) : option (pystr * pystr) :=
  match Py.split_from [colon] 0 [] line with
  | [p0; p1] => Some (Py.strip p0, Py.strip p1)
  | _ => None
  end.

(** What one header column writes, given the fields of the line *)
Definition name_write (fields : list pystr) (ic : nat * pystr)
  : option pystr :=
  if Re.re_match Re.name_column ic.2 then fields !! ic.1 else None.

(** The entry of [details_dict] that a header column writes *)
Definition detail_write (fields : list pystr) (ic : nat * pystr)
  : option (pystr * pystr) :=
  if Re.re_match Re.name_column ic.2 then None
  else (fun d => (ic.2, d)) <$> fields !! ic.1.

(** [pool_name] and [details_dict] after the inner loop of [list_pools] *)
Definition line_name (cols fields : list pystr) (before : option pystr)
  : option pystr :=
  fold_left (last_step (name_write fields)) (enumerate cols) before.

Definition line_details (cols fields : list pystr) : gmap pystr pystr :=
  fold_left (insert_step (detail_write fields)) (enumerate cols) ∅.

(** The entry that one line of the table contributes *)
Definition pool_entry (cols : list pystr) (line : pystr)
  : option (pystr * gmap pystr pystr) :=
  (fun k => (k, line_details cols (Py.split_ws line)))
    <$> line_name cols (Py.split_ws line) None.

(** The state right after a virsh call *)
Definition after_call {D Self} (st : state D Self) (c : virsh.command)
    (d' : D) : state D Self :=
  {| self := self st; daemon := d'; calls := calls st ++ [c];
     log := log st |}.

(** The state right after a log line *)
Definition after_log {D Self} (st : state D Self) (l : level) (m : string)
    (a : list logarg) : state D Self :=
  {| self := self st; daemon := daemon st; calls := calls st;
     log := log st ++ [{| lvl := l; msg := str m; args := a |}] |}.

(** The [vol-list] call of the object *)
Definition vol_list_of {D} (st : state D (PoolVolume.t D)) : virsh.command :=
  virsh.vol_list (PoolVolume.pool_name (self st)).

Definition keeps_self {D Self A} (m : M D Self A) : Prop :=
  ∀ st, self (snd (m st)) = self st.

(** The methods of the two classes, as calls with their arguments *)
Inductive StoragePool_call :=
| sp_list_pools
| sp_pool_exists (name : pystr)
| sp_pool_state (name : pystr)
| sp_pool_autostart (name : pystr)
| sp_pool_info (name : pystr)
| sp_get_pool_uuid (name : pystr)
| sp_is_pool_active (name : pystr)
| sp_is_pool_persistent (name : pystr)
| sp_delete_pool (name : pystr)
| sp_set_pool_autostart (name extra : pystr)
| sp_build_pool (name options : pystr) (dargs : list (pystr * virsh.pyarg))
| sp_start_pool (name : pystr)
| sp_destroy_pool (name : pystr)
| sp_define_dir_pool (name target_path : pystr)
| sp_define_fs_pool (name block_device target_path : pystr)
| sp_define_lvm_pool (name block_device vg_name target_path : pystr)
| sp_define_disk_pool (name block_device target_path : pystr)
| sp_define_iscsi_pool (name source_host source_dev target_path : pystr)
| sp_define_netfs_pool (name source_host source_path target_path : pystr)
| sp_define_rbd_pool (name source_host source_name extra : pystr).

Inductive PoolVolume_call :=
| pv_list_volumes
| pv_volume_exists (name : pystr)
| pv_volume_info (name : pystr)
| pv_create_volume (name capability : pystr) (allocation frmt : option pystr)
| pv_delete_volume (name : pystr)
| pv_clone_volume (old_name new_name : pystr).

(** The state a call leaves, whatever it returns or raises *)
Definition final {D Self A} (m : M D Self A) (st : state D Self)
  : state D Self := snd (m st).

Definition StoragePool_final {D} (c : StoragePool_call)
  : state D (StoragePool.t D) -> state D (StoragePool.t D) :=
  match c with
  | sp_list_pools => final StoragePool.list_pools
  | sp_pool_exists n => final (StoragePool.pool_exists n)
  | sp_pool_state n => final (StoragePool.pool_state n)
  | sp_pool_autostart n => final (StoragePool.pool_autostart n)
  | sp_pool_info n => final (StoragePool.pool_info n)
  | sp_get_pool_uuid n => final (StoragePool.get_pool_uuid n)
  | sp_is_pool_active n => final (StoragePool.is_pool_active n)
  | sp_is_pool_persistent n => final (StoragePool.is_pool_persistent n)
  | sp_delete_pool n => final (StoragePool.delete_pool n)
  | sp_set_pool_autostart n e => final (StoragePool.set_pool_autostart n e)
  | sp_build_pool n o d => final (StoragePool.build_pool n o d)
  | sp_start_pool n => final (StoragePool.start_pool n)
  | sp_destroy_pool n => final (StoragePool.destroy_pool n)
  | sp_define_dir_pool n t => final (StoragePool.define_dir_pool n t)
  | sp_define_fs_pool n b t => final (StoragePool.define_fs_pool n b t)
  | sp_define_lvm_pool n b v t => final (StoragePool.define_lvm_pool n b v t)
  | sp_define_disk_pool n b t => final (StoragePool.define_disk_pool n b t)
  | sp_define_iscsi_pool n h d t =>
      final (StoragePool.define_iscsi_pool n h d t)
  | sp_define_netfs_pool n h p t =>
      final (StoragePool.define_netfs_pool n h p t)
  | sp_define_rbd_pool n h s e => final (StoragePool.define_rbd_pool n h s e)
  end.

Definition PoolVolume_final {D} (c : PoolVolume_call)
  : state D (PoolVolume.t D) -> state D (PoolVolume.t D) :=
  match c with
  | pv_list_volumes => final PoolVolume.list_volumes
  | pv_volume_exists n => final (PoolVolume.volume_exists n)
  | pv_volume_info n => final (PoolVolume.volume_info n)
  | pv_create_volume n c a f => final (PoolVolume.create_volume n c a f)
  | pv_delete_volume n => final (PoolVolume.delete_volume n)
  | pv_clone_volume o n => final (PoolVolume.clone_volume o n)
  end.

(** What each query makes of the answer of its one virsh call *)
Definition pools_of_reply (r : outcome virsh.value)
  : outcome (gmap pystr (gmap pystr pystr)) :=
  match r with
  | Return (virsh.VResult res) => Parse.pools (virsh.stdout_text res)
  | Return (virsh.VBool _) => Raise AttributeError
  | Raise e => Raise e
  end.

Definition pool_info_of_reply (r : outcome virsh.value)
  : outcome (gmap pystr pystr) :=
  match r with
  | Return (virsh.VResult res) =>
      Return (Parse.pool_info (virsh.stdout_text res))
  | Return (virsh.VBool _) => Raise AttributeError
  | Raise (CmdError _) => Return ∅
  | Raise e => Raise e
  end.

Definition volumes_of_reply (r : outcome virsh.value)
  : outcome (gmap pystr pystr) :=
  match r with
  | Return (virsh.VResult res) => Parse.volumes (virsh.stdout_text res)
  | Return (virsh.VBool _) => Raise AttributeError
  | Raise (CmdError _) => Return ∅
  | Raise e => Raise e
  end.

Definition volume_info_of_reply (r : outcome virsh.value)
  : outcome (gmap pystr pystr) :=
  match r with
  | Return (virsh.VResult res) => Parse.volume_info (virsh.stdout_text res)
  | Return (virsh.VBool _) => Raise AttributeError
  | Raise (CmdError _) => Return ∅
  | Raise e => Raise e
  end.

(** What the queries that go through [list_pools], [pool_info] and
    [list_volumes] make of the result of that query *)
Definition exists_of_pools (name : pystr)
    (o : outcome (gmap pystr (gmap pystr pystr))) : outcome bool :=
  match o with
  | Return pools => Return (contains pools name)
  | Raise (CmdError _) => Return false
  | Raise e => Raise e
  end.

Definition column_of_pools (name column : pystr)
    (o : outcome (gmap pystr (gmap pystr pystr))) : outcome (option pystr) :=
  match o with
  | Return pools =>
      Return (match pools !! name with
              | Some details => details !! column
              | None => None
              end)
  | Raise (CmdError _) | Raise (KeyError _) => Return None
  | Raise e => Raise e
  end.

Definition active_of_state (o : outcome (option pystr)) : outcome bool :=
  match o with
  | Return s => Return (bool_decide (s = Some (str "active")))
  | Raise e => Raise e
  end.

Definition entry_of_info (key : pystr) (o : outcome (gmap pystr pystr))
  : outcome pystr :=
  match o with
  | Return info => dict_getitem info key
  | Raise e => Raise e
  end.

Definition yes_of_entry (o : outcome pystr) : outcome bool :=
  match o with
  | Return v => Return (pystr_eqb v (str "yes"))
  | Raise e => Raise e
  end.

Definition exists_of_volumes (name : pystr) (o : outcome (gmap pystr pystr))
  : outcome bool :=
  match o with
  | Return volumes => Return (contains volumes name)
  | Raise e => Raise e
  end.

(** [q] is a query that each time makes the one call [c] on the instance
    held by the object and answers from what that call returned. *)
Definition fresh_query {D Self A} (q : M D Self A)
    (vi : Self -> virsh.instance D) (c : Self -> virsh.command)
    (view : outcome virsh.value -> outcome A) : Prop :=
  ∀ st,
    let reply := vi (self st) (c (self st)) (daemon st) in
    fst (q st) = view (fst reply)
    ∧ calls (snd (q st)) = calls st ++ [c (self st)]
    ∧ daemon (snd (q st)) = snd reply
    ∧ self (snd (q st)) = self st.

(** Called twice in a row, [q] makes the call [c] twice, and its second
    answer is made of what the second call returned. *)
Definition asks_again {D Self A} (q : M D Self A)
    (vi : Self -> virsh.instance D) (c : Self -> virsh.command)
    (view : outcome virsh.value -> outcome A) : Prop :=
  ∀ st,
    let st1 := snd (q st) in
    let reply2 := vi (self st) (c (self st)) (daemon st1) in
    fst (q st1) = view (fst reply2)
    ∧ calls (snd (q st1)) = calls st ++ [c (self st); c (self st)].

(** [q] keeps nothing: every call, a repeated one too, asks virsh. *)
Definition fresh_each_time {D Self A} (q : M D Self A)
    (vi : Self -> virsh.instance D) (c : Self -> virsh.command)
    (view : outcome virsh.value -> outcome A) : Prop :=
  fresh_query q vi c view ∧ asks_again q vi c view.

(** The call [c] of the instance of the object raises [CmdError] in [st]. *)
Definition fails_at {D Self} (vi : Self -> virsh.instance D)
    (c : virsh.command) (st : state D Self) (detail : pystr) (d' : D)
  : Prop :=
  vi (self st) c (daemon st) = (Raise (CmdError detail), d').


(** The entry of one line of [vol-info], as the loop computes it *)
Definition vol_entry (line : pystr) : pystr * pystr :=
  let attr := default [] (head (Py.split_from [colon] 0 [] line)) in
  let piece :=
    default [] (last (Py.split_from (attr ++ [colon]) 0 [] line)) in
  (attr, Py.strip piece).

(** Every line of [vol-info] writes its entry. *)
Definition vol_write (line : pystr) : option (pystr * pystr) :=
  Some (vol_entry line).

(** The texts a pattern stands for *)
Fixpoint lang (p : Re.pattern) (m : pystr) : Prop :=
  match p with
  | [] => m = []
  | (cls, Re.One) :: p' =>
      ∃ c m', m = c :: m' ∧ cls c = true ∧ lang p' m'
  | (cls, Re.Star) :: p' =>
      ∃ ws m', m = ws ++ m' ∧ Forall (fun c => cls c = true) ws ∧ lang p' m'
  | (cls, Re.Plus) :: p' =>
      ∃ c ws m', m = c :: ws ++ m' ∧ cls c = true
                 ∧ Forall (fun c => cls c = true) ws ∧ lang p' m'
  end.

(** A match of the path pattern runs to the end of a text without LF. *)
Definition to_the_end (k : pystr -> option pystr) : Prop :=
  ∀ s m, (Py.LF ∉ s) -> k s = Some m -> m = s.

(** The entry that a line with a path contributes *)
Definition path_entry (line : pystr) : option (pystr * pystr) :=
  match head (Re.findall Re.volume_path line) with
  | Some m =>
      Some (Py.lstrip (take (length line - length m) line), Py.strip m)
  | None => None
  end.

(** ** Further vocabulary *)

(** No white space at either end *)
Definition stripped (s : pystr) : Prop :=
  (∀ c r, s = c :: r -> Py.isspace c = false)
  ∧ (∀ c r, s = r ++ [c] -> Py.isspace c = false).

(** No white space anywhere, and not empty: a field of [split()] *)
Definition is_field (s : pystr) : Prop :=
  s ≠ [] ∧ Forall (fun c => Py.isspace c = false) s.

(** The details of a pool, and the pools, hold fields only. *)
Definition details_clean (d : gmap pystr pystr) : Prop :=
  ∀ c v, d !! c = Some v -> ¬ is_name c ∧ is_field c ∧ is_field v.

Definition pools_clean (pools : gmap pystr (gmap pystr pystr)) : Prop :=
  ∀ k d, pools !! k = Some d -> is_field k ∧ details_clean d.

(** The entries of [list_volumes]: a stripped name, a stripped path with a
    slash. *)
Definition volumes_clean (vols : gmap pystr pystr) : Prop :=
  ∀ k v, vols !! k = Some v -> stripped k ∧ stripped v ∧ "/"%char ∈ v.

(** ** Vocabulary of the further properties: calls made *)

(** [m] makes the one virsh call [c] and tells by its result whether the
    call returned (True) or raised [CmdError] (False). *)
Definition one_call_outcome {D Self} (m : M D Self bool)
    (vi : Self -> virsh.instance D) (c : virsh.command) : Prop :=
  ∀ st,
    let reply := fst (vi (self st) c (daemon st)) in
    calls (snd (m st)) = calls st ++ [c]
    ∧ (fst (m st) = Return true ↔ ∃ v, reply = Return v)
    ∧ (fst (m st) = Return false ↔ ∃ detail, reply = Raise (CmdError detail)).

(** The pool that a virsh call addresses; pool-list addresses none. *)
Definition virsh_pool (c : virsh.command) : option pystr :=
  match c with
  | virsh.pool_list _ => None
  | virsh.pool_info n | virsh.pool_destroy n | virsh.pool_undefine n
  | virsh.pool_autostart n _ | virsh.pool_build n _ _ | virsh.pool_start n
  | virsh.pool_define_as n _ _ _ => Some n
  | virsh.vol_list p | virsh.vol_info _ p | virsh.vol_create_as _ p _ _ _
  | virsh.vol_delete _ p | virsh.vol_clone _ _ p => Some p
  end.

(** The virsh subcommands that only read *)
Definition read_only (c : virsh.command) : bool :=
  match c with
  | virsh.pool_list _ | virsh.pool_info _ | virsh.vol_list _
  | virsh.vol_info _ _ => true
  | _ => false
  end.

(** The pool named by the arguments of a call of [StoragePool] *)
Definition StoragePool_target (c : StoragePool_call) : option pystr :=
  match c with
  | sp_list_pools => None
  | sp_pool_exists n | sp_pool_state n | sp_pool_autostart n | sp_pool_info n
  | sp_get_pool_uuid n | sp_is_pool_active n | sp_is_pool_persistent n
  | sp_delete_pool n | sp_set_pool_autostart n _ | sp_build_pool n _ _
  | sp_start_pool n | sp_destroy_pool n | sp_define_dir_pool n _
  | sp_define_fs_pool n _ _ | sp_define_lvm_pool n _ _ _
  | sp_define_disk_pool n _ _ | sp_define_iscsi_pool n _ _ _
  | sp_define_netfs_pool n _ _ _ | sp_define_rbd_pool n _ _ _ => Some n
  end.

(** The calls that ask and do not act *)
Definition StoragePool_is_query (c : StoragePool_call) : bool :=
  match c with
  | sp_list_pools | sp_pool_exists _ | sp_pool_state _ | sp_pool_autostart _
  | sp_pool_info _ | sp_get_pool_uuid _ | sp_is_pool_active _
  | sp_is_pool_persistent _ => true
  | _ => false
  end.

Definition PoolVolume_is_query (c : PoolVolume_call) : bool :=
  match c with
  | pv_list_volumes | pv_volume_exists _ | pv_volume_info _ => true
  | _ => false
  end.

(** Run on an object that satisfies [Q], [m] leaves the object as it is and
    adds to the virsh calls made so far only calls that satisfy [P]. *)
Definition issues {D Self A} (Q : Self -> Prop) (P : virsh.command -> Prop)
    (m : M D Self A) : Prop :=
  ∀ st, Q (self st) ->
        self (snd (m st)) = self st
        ∧ ∃ l, calls (snd (m st)) = calls st ++ l ∧ Forall P l.

(** * Properties *)

(** ** Folding insertions: the last writer of a key decides its value *)

Lemma last_at_snoc {A} (P : A -> Prop) (l : list A) x n y :
  last_at P (l ++ [x]) n y ↔
  (P x ∧ n = length l ∧ y = x) ∨ (¬ P x ∧ last_at P l n y).
Proof.
  unfold last_at. split.
  - intros (Hn & Py & Hlast).
    destruct (decide (n = length l)) as [->|Hne].
    + rewrite list_lookup_middle in Hn by done. left. naive_solver.
    + assert (n < length l).
      { apply lookup_lt_Some in Hn. rewrite length_app in Hn. simpl in Hn. lia. }
      rewrite lookup_app_l in Hn by done. right. split.
      * apply (Hlast (length l) x); [done|]. by apply list_lookup_middle.
      * split; [done|]. split; [done|]. intros m z Hm Hz.
        apply (Hlast m z Hm). rewrite lookup_app_l; [done|].
        by apply lookup_lt_Some in Hz.
  - intros [(Px & -> & ->)|(NPx & Hn & Py & Hlast)].
    + split; [by apply list_lookup_middle|]. split; [done|].
      intros m z Hm Hz. apply lookup_lt_Some in Hz.
      rewrite length_app in Hz. simpl in Hz. lia.
    + split; [by apply lookup_app_l_Some|]. split; [done|].
      intros m z Hm Hz. apply lookup_app_Some in Hz as [Hz|[Hge Hz]].
      * by apply (Hlast m z).
      * apply list_lookup_singleton_Some in Hz as [_ <-]. done.
Qed.

Section FoldInsert.
Context {A V : Type} (f : A -> option (pystr * V)).

Lemma fold_insert_lookup l m0 k v :
  fold_left (insert_step f) l m0 !! k = Some v ↔
  (∃ n x, last_at (writes f k) l n x ∧ f x = Some (k, v))
  ∨ ((∀ x, x ∈ l -> ¬ writes f k x) ∧ m0 !! k = Some v).
Proof.
  induction l as [|x l IH] using rev_ind.
  - simpl. split.
    + intros H. right. split; [|done]. intros x Hx. by apply elem_of_nil in Hx.
    + intros [(n & x & (Hn & _) & _)|[_ H]]; [|done].
      by rewrite lookup_nil in Hn.
  - rewrite fold_left_app. simpl. unfold insert_step at 1.
    destruct (f x) as [[k' v']|] eqn:Hfx.
    + destruct (decide (k' = k)) as [->|Hne].
      * rewrite lookup_insert_eq. split.
        -- intros [= <-]. left. exists (length l), x. split; [|done].
           apply last_at_snoc. left. split; [|done]. by exists v'.
        -- intros [(n & y & Hlast & Hy)|[Hno _]].
           ++ apply last_at_snoc in Hlast as [(_ & _ & ->)|[Hnw _]].
              ** congruence.
              ** exfalso. apply Hnw. by exists v'.
           ++ exfalso. apply (Hno x); [apply elem_of_app; right; by apply list_elem_of_singleton|]. by exists v'.
      * rewrite lookup_insert_ne by done. rewrite IH.
        assert (Hnw : ¬ writes f k x).
        { intros [w Hw]. congruence. }
        split.
        -- intros [(n & y & Hlast & Hy)|[Hno Hm]].
           ++ left. exists n, y. split; [|done]. apply last_at_snoc. by right.
           ++ right. split; [|done]. intros y Hy.
              apply elem_of_app in Hy as [Hy|Hy]; [by apply Hno|].
              apply list_elem_of_singleton in Hy as ->. done.
        -- intros [(n & y & Hlast & Hy)|[Hno Hm]].
           ++ left. exists n, y. split; [|done].
              apply last_at_snoc in Hlast as [(Hw & _)|[_ Hl]]; [done|done].
           ++ right. split; [|done]. intros y Hy. apply Hno. apply elem_of_app. by left.
    + rewrite IH.
      assert (Hnw : ¬ writes f k x).
      { intros [w Hw]. congruence. }
      split.
      * intros [(n & y & Hlast & Hy)|[Hno Hm]].
        -- left. exists n, y. split; [|done]. apply last_at_snoc. by right.
        -- right. split; [|done]. intros y Hy.
           apply elem_of_app in Hy as [Hy|Hy]; [by apply Hno|].
           apply list_elem_of_singleton in Hy as ->. done.
      * intros [(n & y & Hlast & Hy)|[Hno Hm]].
        -- left. exists n, y. split; [|done].
           apply last_at_snoc in Hlast as [(Hw & _)|[_ Hl]]; [done|done].
        -- right. split; [|done]. intros y Hy. apply Hno. apply elem_of_app. by left.
Qed.

End FoldInsert.

Lemma fold_left_pointwise {A B} (f g : B -> A -> B) (l : list A) (b : B) :
  (∀ b x, f b x = g b x) -> fold_left f l b = fold_left g l b.
Proof.
  intros Hfg. revert b. induction l as [|x l IH]; intros b; [done|].
  simpl. by rewrite Hfg, IH.
Qed.

(** ** Running the monad *)

Lemma call_run {D Self} (vi : Self -> virsh.instance D) c
    (st : state D Self) r d' :
  vi (self st) c (daemon st) = (r, d') ->
  call vi c st = (r, after_call st c d').
Proof. intros H. unfold call, after_call. by rewrite H. Qed.

(** ** pool_info: the colon-delimited attribute lines *)

Lemma pool_info_step_insert info line :
  Parse.pool_info_step info line = insert_step pool_info_entry info line.
Proof.
  unfold Parse.pool_info_step, insert_step, pool_info_entry.
  change (str ":") with [colon].
  destruct (Py.split_from [colon] 0 [] line) as [|p0 [|p1 [|p2 ps]]]; done.
Qed.

Lemma pool_info_entry_Some line k v :
  pool_info_entry line = Some (k, v) ↔
  ∃ a b, two_parts line a b ∧ Py.strip a = k ∧ Py.strip b = v.
Proof.
  unfold pool_info_entry, two_parts.
  destruct (Py.split_from [colon] 0 [] line) as [|p0 [|p1 [|p2 ps]]];
    split; try (intros (a & b & ? & ? & ?)); try done.
  - intros [= <- <-]. by exists p0, p1.
  - simplify_eq. done.
Qed.

Lemma parse_pool_info_lookup out k v :
  Parse.pool_info out !! k = Some v ↔
  ∃ n line a b,
    last_at (fun l => ∃ a b, two_parts l a b ∧ Py.strip a = k)
      (Py.splitlines out) n line
    ∧ two_parts line a b ∧ Py.strip a = k ∧ v = Py.strip b.
Proof.
  unfold Parse.pool_info.
  rewrite (fold_left_pointwise _ _ _ _ pool_info_step_insert).
  rewrite fold_insert_lookup. rewrite lookup_empty.
  assert (Hw : ∀ l, writes pool_info_entry k l ↔
                    ∃ a b, two_parts l a b ∧ Py.strip a = k).
  { intros l. unfold writes. split.
    - intros [w Hw]. apply pool_info_entry_Some in Hw. naive_solver.
    - intros (a & b & Hab & Hk). exists (Py.strip b).
      apply pool_info_entry_Some. naive_solver. }
  split.
  - intros [(n & line & Hlast & Hline)|[_ ?]]; [|done].
    apply pool_info_entry_Some in Hline as (a & b & Hab & Ha & Hb).
    exists n, line, a, b. split; [|done].
    destruct Hlast as (Hn & Hp & Hl). split; [done|]. split; [by apply Hw|].
    intros m y Hm Hy Hc. apply (Hl m y Hm Hy). by apply Hw.
  - intros (n & line & a & b & Hlast & Hab & Ha & ->). left.
    exists n, line. split.
    + destruct Hlast as (Hn & Hp & Hl). split; [done|]. split; [by apply Hw|].
      intros m y Hm Hy Hc. apply (Hl m y Hm Hy). by apply Hw.
    + apply pool_info_entry_Some. naive_solver.
Qed.

(** C3. [pool_info] returns the empty dict when the virsh command fails;
    otherwise its dict has an entry exactly for the stdout lines that split
    on [':'] into exactly two parts: the stripped part before the colon is
    mapped to the stripped part after it (the last such line deciding the
    value of a key), and no other line contributes. *)
Theorem pool_info_colon_lines {D} (name : pystr)
    (st : state D (StoragePool.t D)) :
  (∀ detail d',
     StoragePool.virsh_instance (self st) (virsh.pool_info name) (daemon st)
     = (Raise (CmdError detail), d') ->
     fst (StoragePool.pool_info name st) = Return ∅)
  ∧ (∀ out d',
       StoragePool.virsh_instance (self st) (virsh.pool_info name) (daemon st)
       = (Return (virsh.VResult {| virsh.stdout_text := out |}), d') ->
       ∃ info,
         fst (StoragePool.pool_info name st) = Return info
         ∧ ∀ k v,
             info !! k = Some v ↔
             ∃ n line a b,
               last_at (fun l => ∃ a b, two_parts l a b ∧ Py.strip a = k)
                 (Py.splitlines out) n line
               ∧ two_parts line a b ∧ Py.strip a = k ∧ v = Py.strip b).
Proof.
  split.
  - intros detail d' H. unfold StoragePool.pool_info, try_CmdError.
    by rewrite (call_run _ _ _ _ _ H).
  - intros out d' H. exists (Parse.pool_info out). split.
    + unfold StoragePool.pool_info, try_CmdError.
      by rewrite (call_run _ _ _ _ _ H).
    + apply parse_pool_info_lookup.
Qed.

Lemma pool_info_colon_lines_witness :
  fst (StoragePool.pool_info (str "default")
         (Example.start (StoragePool.init (Example.fails "no such pool"))))
  = Return ∅
  ∧ ∃ info,
      fst (StoragePool.pool_info (str "default")
             (Example.start
                (StoragePool.init
                   (Example.prints
                      ("Name: default" ++ Example.nl ++ "UUID: 12")))))
      = Return info
      ∧ ∀ k v,
          info !! k = Some v ↔
          ∃ n line a b,
            last_at (fun l => ∃ a b, two_parts l a b ∧ Py.strip a = k)
              (Py.splitlines
                 (str ("Name: default" ++ Example.nl ++ "UUID: 12")))
              n line
            ∧ two_parts line a b ∧ Py.strip a = k ∧ v = Py.strip b.
Proof.
  split.
  - eapply (proj1 (pool_info_colon_lines _ _)). reflexivity.
  - eapply (proj2 (pool_info_colon_lines _ _)). reflexivity.
Defined.

(** ** for loops that do not raise *)

Lemma for_each_total {A S} (body : A -> S -> outcome S) (g : S -> A -> S)
    (l : list A) (s : S) :
  (∀ x s, x ∈ l -> body x s = Return (g s x)) ->
  for_each l body s = Return (fold_left g l s).
Proof.
  revert s. induction l as [|x l IH]; intros s Hbody; [done|].
  simpl. rewrite Hbody by apply list_elem_of_here.
  apply IH. intros y s' Hy. apply Hbody. by apply list_elem_of_further.
Qed.

(** The last element that writes decides an accumulator that each element
    may overwrite. *)
Section FoldLast.
Context {A B : Type} (f : A -> option B).

Lemma fold_last_lookup l a0 v :
  fold_left (last_step f) l a0 = Some v ↔
  (∃ n x, last_at (fun x => is_Some (f x)) l n x ∧ f x = Some v)
  ∨ ((∀ x, x ∈ l -> f x = None) ∧ a0 = Some v).
Proof.
  induction l as [|x l IH] using rev_ind.
  - simpl. split.
    + intros H. right. split; [|done]. intros x Hx. by apply elem_of_nil in Hx.
    + intros [(n & x & (Hn & _) & _)|[_ H]]; [|done].
      by rewrite lookup_nil in Hn.
  - rewrite fold_left_app. simpl. unfold last_step at 1.
    destruct (f x) as [b|] eqn:Hfx.
    + split.
      * intros [= <-]. left. exists (length l), x. split; [|done].
        apply last_at_snoc. left. by rewrite Hfx.
      * intros [(n & y & Hlast & Hy)|[Hno _]].
        -- apply last_at_snoc in Hlast as [(_ & _ & ->)|[Hnw _]];
             [congruence|].
           exfalso. apply Hnw. by rewrite Hfx.
        -- specialize (Hno x). rewrite Hfx in Hno.
           discriminate Hno. apply elem_of_app. right.
           by apply list_elem_of_singleton.
    + rewrite IH.
      assert (Hnw : ¬ is_Some (f x)) by (rewrite Hfx; by intros [? ?]).
      split.
      * intros [(n & y & Hlast & Hy)|[Hno Hm]].
        -- left. exists n, y. split; [|done]. apply last_at_snoc. by right.
        -- right. split; [|done]. intros y Hy.
           apply elem_of_app in Hy as [Hy|Hy]; [by apply Hno|].
           apply list_elem_of_singleton in Hy as ->. done.
      * intros [(n & y & Hlast & Hy)|[Hno Hm]].
        -- left. exists n, y. split; [|done].
           apply last_at_snoc in Hlast as [(Hw & _)|[_ Hl]]; [done|done].
        -- right. split; [|done]. intros y Hy. apply Hno.
           apply elem_of_app. by left.
Qed.

End FoldLast.

(** ** list_pools: the table of pools *)

Lemma enumerate_lookup {A} (l : list A) n i x :
  enumerate l !! n = Some (i, x) ↔ i = n ∧ l !! n = Some x.
Proof.
  unfold enumerate. rewrite list_lookup_imap.
  destruct (l !! n) as [y|]; simpl; naive_solver.
Qed.

Lemma enumerate_elem {A} (l : list A) i x :
  (i, x) ∈ enumerate l ↔ l !! i = Some x.
Proof.
  rewrite list_elem_of_lookup. split.
  - intros [n Hn]. apply enumerate_lookup in Hn as [-> Hn]. done.
  - intros H. exists i. by apply enumerate_lookup.
Qed.

Lemma last_at_enumerate {A} (P : A -> Prop) (l : list A) n i x :
  last_at (fun ic => P ic.2) (enumerate l) n (i, x) ↔
  i = n ∧ last_at P l n x.
Proof.
  unfold last_at. rewrite enumerate_lookup. simpl. split.
  - intros ([-> Hn] & HP & Hlast). repeat split; try done.
    intros m y Hm Hy. apply (Hlast m (m, y) Hm). by apply enumerate_lookup.
  - intros (-> & Hn & HP & Hlast). repeat split; try done.
    intros m [j y] Hm Hy. apply enumerate_lookup in Hy as [-> Hy].
    simpl. by apply (Hlast m y).
Qed.

Lemma columns_loop (fields : list pystr) (l : list (nat * pystr))
    (st : option pystr * gmap pystr pystr) :
  (∀ i c, (i, c) ∈ l -> i < length fields) ->
  for_each l (Parse.column_step fields) st
  = Return (fold_left (last_step (name_write fields)) l st.1,
            fold_left (insert_step (detail_write fields)) l st.2).
Proof.
  revert st. induction l as [|[i c] l IH]; intros [pn d] Hl.
  - done.
  - assert (Hi : i < length fields) by (apply (Hl i c), list_elem_of_here).
    apply lookup_lt_is_Some_2 in Hi as [x Hx].
    cbn [for_each]. unfold Parse.column_step at 1. unfold getitem.
    rewrite Hx. cbn [fold_left].
    unfold last_step at 2, insert_step at 2, name_write at 2,
      detail_write at 2.
    cbn [fst snd].
    destruct (Re.re_match Re.name_column c) eqn:Hm; cbn.
    + rewrite IH; [by rewrite Hx|].
      intros j c' Hj. apply (Hl j c'). by apply list_elem_of_further.
    + rewrite IH; [by rewrite Hx|].
      intros j c' Hj. apply (Hl j c'). by apply list_elem_of_further.
Qed.

Lemma line_name_Some cols fields before k :
  length cols ≤ length fields ->
  (∃ c, c ∈ cols ∧ is_name c) ->
  line_name cols fields before = Some k ↔
  ∃ i c, last_at is_name cols i c ∧ fields !! i = Some k.
Proof.
  intros Hlen (c0 & Hc0 & Hn0). unfold line_name.
  rewrite fold_last_lookup.
  assert (Hw : ∀ ic, ic ∈ enumerate cols ->
                     is_Some (name_write fields ic) ↔ is_name ic.2).
  { intros [i c] Hic. apply enumerate_elem in Hic.
    unfold name_write, is_name. simpl.
    destruct (Re.re_match Re.name_column c); [|split; [by intros [? ?]|done]].
    split; [done|]. intros _. apply lookup_lt_is_Some_2.
    apply lookup_lt_Some in Hic. lia. }
  split.
  - intros [(n & [i c] & Hlast & Hk)|[Hno _]].
    + exists n, c. unfold name_write in Hk. simpl in Hk.
      destruct Hlast as (Hn & HP & Hl).
      pose proof Hn as Hn'. apply enumerate_lookup in Hn' as [-> Hn'].
      destruct (Re.re_match Re.name_column c) eqn:Hm; [|done].
      split; [|done]. split; [done|]. split; [done|].
      intros m y Hm' Hy Hc.
      apply (Hl m (m, y) Hm'); [by apply enumerate_lookup|].
      apply Hw; [by apply enumerate_elem|done].
    + exfalso. apply list_elem_of_lookup in Hc0 as [i Hi].
      assert (Hin : (i, c0) ∈ enumerate cols) by by apply enumerate_elem.
      specialize (Hno _ Hin).
      assert (is_Some (name_write fields (i, c0))) as [? Hs]
        by by apply Hw.
      congruence.
  - intros (i & c & (Hi & Hc & Hl) & Hk). left. exists i, (i, c).
    split.
    + split; [by apply enumerate_lookup|]. split.
      * apply Hw; [by apply enumerate_elem|done].
      * intros m [j y] Hm Hy Hs.
        pose proof Hy as Hy'. apply enumerate_lookup in Hy' as [-> Hy'].
        apply (Hl m y Hm Hy').
        apply (Hw (m, y)); [by apply enumerate_elem|done].
    + unfold name_write. simpl. unfold is_name in Hc. by rewrite Hc.
Qed.

Lemma line_details_lookup cols fields c v :
  length cols ≤ length fields ->
  line_details cols fields !! c = Some v ↔
  ¬ is_name c ∧ ∃ j, last_at (eq c) cols j c ∧ fields !! j = Some v.
Proof.
  intros Hlen. unfold line_details. rewrite fold_insert_lookup.
  rewrite lookup_empty.
  assert (Hw : ∀ ic, ic ∈ enumerate cols ->
                     writes (detail_write fields) c ic ↔
                     ¬ is_name c ∧ c = ic.2).
  { intros [i c'] Hic. apply enumerate_elem in Hic.
    unfold writes, detail_write, is_name. simpl.
    assert (is_Some (fields !! i)) as [x Hx].
    { apply lookup_lt_is_Some_2. apply lookup_lt_Some in Hic. lia. }
    rewrite Hx. simpl.
    destruct (Re.re_match Re.name_column c') eqn:Hm.
    - split; [by intros [? ?]|]. intros [Hn ->]. by rewrite Hm in Hn.
    - split.
      + intros [w [= <- <-]]. split; [by rewrite Hm|done].
      + intros [_ ->]. by exists x. }
  split.
  - intros [(n & [i c'] & Hlast & Hk)|[_ ?]]; [|done].
    destruct Hlast as (Hn & HP & Hl).
    pose proof Hn as Hn'. apply enumerate_lookup in Hn' as [-> Hn'].
    apply Hw in HP as [Hnn Hcc]; [|by apply enumerate_elem].
    simpl in Hcc. subst c'.
    split; [done|]. exists n. split.
    + split; [done|]. split; [done|]. intros m y Hm Hy <-.
      apply (Hl m (m, c) Hm); [by apply enumerate_lookup|].
      apply Hw; [by apply enumerate_elem|done].
    + unfold detail_write in Hk. simpl in Hk.
      destruct (Re.re_match Re.name_column c); [done|].
      destruct (fields !! n); simpl in Hk; congruence.
  - intros (Hnn & j & (Hj & _ & Hl) & Hv). left. exists j, (j, c). split.
    + split; [by apply enumerate_lookup|]. split.
      * apply Hw; [by apply enumerate_elem|done].
      * intros m [i y] Hm Hy Hs.
        pose proof Hy as Hy'. apply enumerate_lookup in Hy' as [-> Hy'].
        apply Hw in Hs as [_ Hs]; [|by apply enumerate_elem].
        simpl in Hs. by apply (Hl m y Hm Hy').
    + unfold detail_write. simpl. unfold is_name in Hnn.
      destruct (Re.re_match Re.name_column c); [done|]. by rewrite Hv.
Qed.

Lemma last_at_ext {A} (P Q : A -> Prop) (l : list A) n x :
  (∀ y, y ∈ l -> P y ↔ Q y) -> last_at P l n x ↔ last_at Q l n x.
Proof.
  intros HPQ. unfold last_at. split; intros (Hn & Hx & Hl).
  - split; [done|]. split; [by apply HPQ; [eapply list_elem_of_lookup_2|]|].
    intros m y Hm Hy HQ. apply (Hl m y Hm Hy). apply HPQ; [|done].
    by eapply list_elem_of_lookup_2.
  - split; [done|]. split; [by apply HPQ; [eapply list_elem_of_lookup_2|]|].
    intros m y Hm Hy HP. apply (Hl m y Hm Hy). apply HPQ; [|done].
    by eapply list_elem_of_lookup_2.
Qed.

Lemma option_ext {A} (a b : option A) :
  (∀ x, a = Some x ↔ b = Some x) -> a = b.
Proof.
  intros H. destruct a as [x|], b as [y|]; try done.
  - symmetry. by apply (H x).
  - symmetry. by apply (H x).
  - by apply (H y).
Qed.

Lemma fold_last_is_Some {A B} (f : A -> option B) (l : list A) a0 :
  (is_Some a0 ∨ ∃ x, x ∈ l ∧ is_Some (f x)) ->
  is_Some (fold_left (last_step f) l a0).
Proof.
  revert a0. induction l as [|x l IH]; intros a0 H.
  - destruct H as [H|(x & Hx & _)]; [done|]. by apply elem_of_nil in Hx.
  - simpl. apply IH. destruct H as [H|(y & Hy & Hfy)].
    + left. unfold last_step. destruct (f x); [by eexists|done].
    + apply elem_of_cons in Hy as [->|Hy].
      * left. unfold last_step. destruct Hfy as [b ->]. by eexists.
      * right. by exists y.
Qed.

Section PoolLines.
Context (head : pystr).
Let cols := Py.split_ws head.
Context (Hname : ∃ c, c ∈ cols ∧ is_name c).

Lemma line_name_is_Some fields before :
  length cols ≤ length fields -> is_Some (line_name cols fields before).
Proof using Hname.
  intros Hlen. destruct Hname as (c & Hc & Hn).
  apply fold_last_is_Some. right.
  apply list_elem_of_lookup in Hc as [i Hi].
  exists (i, c). split; [by apply enumerate_elem|].
  unfold name_write. simpl. unfold is_name in Hn. rewrite Hn.
  apply lookup_lt_is_Some_2. apply lookup_lt_Some in Hi. lia.
Qed.

Lemma line_name_any_before fields before :
  length cols ≤ length fields ->
  line_name cols fields before = line_name cols fields None.
Proof using Hname.
  intros Hlen. apply option_ext. intros k.
  by rewrite !line_name_Some.
Qed.

Lemma pool_entry_key line k :
  length cols ≤ length (Py.split_ws line) ->
  writes (pool_entry cols) k line ↔ key_of cols line k.
Proof using Hname.
  intros Hlen. unfold writes, pool_entry, key_of.
  rewrite <- (line_name_Some cols _ None k Hlen Hname).
  destruct (line_name cols (Py.split_ws line) None) as [k'|]; simpl.
  - split; [by intros [d [= ->]]|]. intros [= ->]. by eexists.
  - split; [by intros [d ?]|done].
Qed.

Lemma pool_entry_details line k d :
  length cols ≤ length (Py.split_ws line) ->
  pool_entry cols line = Some (k, d) ↔
  key_of cols line k ∧ details_of cols line d.
Proof using Hname.
  intros Hlen. split.
  - intros H. split; [apply pool_entry_key; [done|by exists d]|].
    unfold pool_entry in H.
    destruct (line_name cols (Py.split_ws line) None); [|done].
    simpl in H. injection H as <- <-. intros c v.
    by apply line_details_lookup.
  - intros [Hk Hd]. apply pool_entry_key in Hk as [d' Hd']; [|done].
    rewrite Hd'. do 2 f_equal.
    unfold pool_entry in Hd'.
    destruct (line_name cols (Py.split_ws line) None); [|done].
    simpl in Hd'. injection Hd' as <- <-.
    apply map_eq. intros c. apply option_ext. intros v.
    rewrite line_details_lookup by done. symmetry. apply Hd.
Qed.

Lemma pool_lines_loop (l : list pystr)
    (st : option pystr * gmap pystr (gmap pystr pystr)) :
  (∀ line, line ∈ l -> length cols ≤ length (Py.split_ws line)) ->
  ∃ pn,
    for_each l (Parse.pool_line_step head) st
    = Return (pn, fold_left (insert_step (pool_entry cols)) l st.2).
Proof using Hname.
  revert st. induction l as [|line l IH]; intros [pn pools] Hl.
  - by exists pn.
  - assert (Hlen : length cols ≤ length (Py.split_ws line))
      by apply Hl, list_elem_of_here.
    cbn [for_each fold_left]. unfold Parse.pool_line_step at 1.
    fold cols. cbn [fst snd].
    rewrite columns_loop; last first.
    { intros i c Hic. apply enumerate_elem, lookup_lt_Some in Hic. lia. }
    cbn [mbind outcome_mbind outcome_bind fst snd].
    fold (line_name cols (Py.split_ws line) pn).
    fold (line_details cols (Py.split_ws line)).
    rewrite (line_name_any_before _ pn Hlen).
    unfold insert_step at 2, pool_entry.
    destruct (line_name_is_Some (Py.split_ws line) None Hlen) as [k ->].
    cbn. apply IH. intros y Hy. apply Hl. by apply list_elem_of_further.
Qed.

End PoolLines.

Lemma fold_insert_is_Some {A V} (f : A -> option (pystr * V)) (l : list A)
    (m0 : gmap pystr V) k :
  (is_Some (m0 !! k) ∨ ∃ x, x ∈ l ∧ writes f k x) ->
  is_Some (fold_left (insert_step f) l m0 !! k).
Proof.
  revert m0. induction l as [|x l IH]; intros m0 H.
  - destruct H as [H|(x & Hx & _)]; [done|]. by apply elem_of_nil in Hx.
  - simpl. apply IH. destruct H as [H|(y & Hy & Hfy)].
    + left. unfold insert_step. destruct (f x) as [[k' v']|]; [|done].
      destruct (decide (k' = k)) as [->|Hne].
      * rewrite lookup_insert_eq. by eexists.
      * by rewrite lookup_insert_ne.
    + apply elem_of_cons in Hy as [->|Hy].
      * left. unfold insert_step. destruct Hfy as [v ->].
        rewrite lookup_insert_eq. by eexists.
      * right. by exists y.
Qed.

Lemma list_pools_runs {D} (st : state D (StoragePool.t D)) out d' :
  StoragePool.virsh_instance (self st) (virsh.pool_list (str "--all"))
    (daemon st)
  = (Return (virsh.VResult {| virsh.stdout_text := out |}), d') ->
  fst (StoragePool.list_pools st) = Parse.pools out.
Proof.
  intros H. unfold StoragePool.list_pools, bind.
  by rewrite (call_run _ _ _ _ _ H).
Qed.

(** C1, as amended. When the header has a name column and every line from
    the third on has at least as many fields as the header has columns,
    [list_pools] returns a dict with an entry for every such line: the key is
    the line's field under the name column, and the value (that of the last
    line with this key) maps every other header column to the line's field
    under it. With two or fewer lines the dict is empty. *)
Theorem list_pools_table {D} (st : state D (StoragePool.t D)) out d' :
  StoragePool.virsh_instance (self st) (virsh.pool_list (str "--all"))
    (daemon st)
  = (Return (virsh.VResult {| virsh.stdout_text := out |}), d') ->
  (∀ head sep rest,
     Py.splitlines (Py.strip out) = head :: sep :: rest -> rest ≠ [] ->
     let cols := Py.split_ws head in
     (∃ c, c ∈ cols ∧ is_name c) ->
     (∀ line, line ∈ rest -> length cols ≤ length (Py.split_ws line)) ->
     ∃ pools,
       fst (StoragePool.list_pools st) = Return pools
       ∧ (∀ line, line ∈ rest ->
            ∃ k, key_of cols line k ∧ is_Some (pools !! k))
       ∧ (∀ k d,
            pools !! k = Some d ↔
            ∃ n line, last_at (fun l => key_of cols l k) rest n line
                      ∧ details_of cols line d))
  ∧ (length (Py.splitlines (Py.strip out)) ≤ 2 ->
     fst (StoragePool.list_pools st) = Return ∅).
Proof.
  intros Hcall. rewrite (list_pools_runs _ _ _ Hcall). split.
  - intros head sep rest Hlines Hrest cols Hname Hlen.
    unfold Parse.pools. rewrite Hlines.
    destruct rest as [|l0 rest0] eqn:Erest; [done|]. rewrite <- Erest in *.
    replace (2 <? length (head :: sep :: rest)) with true
      by (subst rest; done).
    cbn [getitem lookup list_lookup mbind outcome_mbind outcome_bind drop].
    rewrite drop_0.
    destruct (pool_lines_loop head Hname rest (None, ∅) Hlen) as [pn ->].
    cbn [mbind outcome_mbind outcome_bind snd]. fold cols.
    exists (fold_left (insert_step (pool_entry cols)) rest ∅).
    split; [done|]. split.
    + intros line Hline.
      assert (is_Some (line_name cols (Py.split_ws line) None)) as [k Hk]
        by (apply line_name_is_Some; auto).
      exists k. split.
      * apply (pool_entry_key head Hname); [auto|].
        unfold writes, pool_entry. fold cols. rewrite Hk. by eexists.
      * apply fold_insert_is_Some. right. exists line. split; [done|].
        unfold writes, pool_entry. rewrite Hk. by eexists.
    + intros k d. rewrite fold_insert_lookup, lookup_empty.
      assert (Hext : ∀ n line,
                last_at (writes (pool_entry cols) k) rest n line ↔
                last_at (fun l => key_of cols l k) rest n line).
      { intros n line. apply last_at_ext. intros y Hy.
        apply (pool_entry_key head Hname). auto. }
      split.
      * intros [(n & line & Hlast & He)|[_ ?]]; [|done].
        exists n, line. split; [by apply Hext|].
        apply (pool_entry_details head Hname) in He; [tauto|].
        apply Hlen. destruct Hlast as [Hn _].
        by eapply list_elem_of_lookup_2.
      * intros (n & line & Hlast & Hd). left. exists n, line.
        split; [by apply Hext|].
        apply (pool_entry_details head Hname).
        -- apply Hlen. destruct Hlast as [Hn _].
           by eapply list_elem_of_lookup_2.
        -- split; [|done]. by destruct Hlast as (_ & Hk & _).
  - intros Hshort. unfold Parse.pools.
    replace (2 <? length (Py.splitlines (Py.strip out))) with false; [done|].
    symmetry. apply Nat.ltb_ge. lia.
Qed.

Lemma list_pools_table_witness :
  let text :=
    (" Name State" ++ Example.nl ++ "----" ++ Example.nl
       ++ " default active" ++ Example.nl ++ " images inactive")%string in
  let st := Example.start (StoragePool.init (Example.prints text)) in
  let cols := [str "Name"; str "State"] in
  let rest := [str " default active"; str " images inactive"] in
  ∃ pools,
    fst (StoragePool.list_pools st) = Return pools
    ∧ (∀ line, line ∈ rest ->
         ∃ k, key_of cols line k ∧ is_Some (pools !! k))
    ∧ (∀ k d,
         pools !! k = Some d ↔
         ∃ n line, last_at (fun l => key_of cols l k) rest n line
                   ∧ details_of cols line d).
Proof.
  intros text st cols rest.
  refine (proj1 (list_pools_table st (str text) tt eq_refl)
            (str "Name State") (str "----") rest eq_refl _ _ _).
  - done.
  - exists (str "Name"). split; [apply list_elem_of_here|reflexivity].
  - intros line Hline.
    apply elem_of_cons in Hline as [->|Hline]; [vm_compute; lia|].
    apply list_elem_of_singleton in Hline as ->. vm_compute; lia.
Defined.

(** C1, as stated, fails on a line with fewer fields than the header has
    columns: the text has three lines and [list_pools] raises. *)
Lemma list_pools_short_line_raises :
  let text :=
    (" Name State" ++ Example.nl ++ "----" ++ Example.nl ++ " default")%string
  in
  2 < length (Py.splitlines (Py.strip (str text)))
  ∧ fst (StoragePool.list_pools
           (Example.start (StoragePool.init (Example.prints text))))
    = Raise IndexError.
Proof. split; [vm_compute; lia|vm_compute; reflexivity]. Qed.

(** ** Steps of the monad *)

Lemma bind_Return {D Self A B} (m : M D Self A) (f : A -> M D Self B)
    st a st' :
  m st = (Return a, st') -> bind m f st = f a st'.
Proof. intros H. unfold bind. by rewrite H. Qed.

Lemma bind_Raise {D Self A B} (m : M D Self A) (f : A -> M D Self B)
    st e st' :
  m st = (Raise e, st') -> bind m f st = (Raise e, st').
Proof. intros H. unfold bind. by rewrite H. Qed.

Lemma try_CmdError_Return {D Self A B} (m : M D Self B) h
    (k : B -> M D Self A) st b st' :
  m st = (Return b, st') -> try_CmdError m h k st = k b st'.
Proof. intros H. unfold try_CmdError. by rewrite H. Qed.

Lemma try_CmdError_caught {D Self A B} (m : M D Self B) h
    (k : B -> M D Self A) st detail st' :
  m st = (Raise (CmdError detail), st') ->
  try_CmdError m h k st = h detail st'.
Proof. intros H. unfold try_CmdError. by rewrite H. Qed.

(** ** pool_exists *)

Lemma pool_exists_run {D} name (st : state D (StoragePool.t D)) pools st' :
  StoragePool.list_pools st = (Return pools, st') ->
  StoragePool.pool_exists name st = (Return (contains pools name), st').
Proof.
  intros H. unfold StoragePool.pool_exists.
  by rewrite (try_CmdError_Return _ _ _ _ _ _ H).
Qed.

Lemma list_pools_CmdError {D} (st : state D (StoragePool.t D)) detail d' :
  StoragePool.virsh_instance (self st) (virsh.pool_list (str "--all"))
    (daemon st)
  = (Raise (CmdError detail), d') ->
  StoragePool.list_pools st
  = (Raise (CmdError detail),
     after_call st (virsh.pool_list (str "--all")) d').
Proof.
  intros H. unfold StoragePool.list_pools.
  by rewrite (bind_Raise _ _ _ _ _ (call_run _ _ _ _ _ H)).
Qed.

(** C6. [pool_exists] returns True exactly when [list_pools] produces a
    dict that has the name as a key, and it returns False, raising nothing,
    when the pool-list command fails. *)
Theorem pool_exists_iff_key {D} (name : pystr)
    (st : state D (StoragePool.t D)) :
  (fst (StoragePool.pool_exists name st) = Return true ↔
   ∃ pools st', StoragePool.list_pools st = (Return pools, st')
                ∧ is_Some (pools !! name))
  ∧ (∀ detail d',
       StoragePool.virsh_instance (self st) (virsh.pool_list (str "--all"))
         (daemon st)
       = (Raise (CmdError detail), d') ->
       fst (StoragePool.pool_exists name st) = Return false).
Proof.
  split.
  - destruct (StoragePool.list_pools st) as [[pools|e] st'] eqn:Hl.
    + rewrite (pool_exists_run _ _ _ _ Hl). simpl. unfold contains. split.
      * intros [= Hc]. apply bool_decide_eq_true in Hc. by exists pools, st'.
      * intros (pools' & st'' & [= <- <-] & Hk). f_equal.
        by apply bool_decide_eq_true.
    + unfold StoragePool.pool_exists, try_CmdError. rewrite Hl. split.
      * by destruct e.
      * by intros (pools' & st'' & [=] & _).
  - intros detail d' H. unfold StoragePool.pool_exists.
    by rewrite (try_CmdError_caught _ _ _ _ _ _ (list_pools_CmdError _ _ _ H)).
Qed.

Lemma pool_exists_iff_key_witness :
  let text :=
    ("Name State" ++ Example.nl ++ "----" ++ Example.nl
       ++ "default active")%string in
  (fst (StoragePool.pool_exists (str "default")
          (Example.start (StoragePool.init (Example.prints text))))
   = Return true ↔
   ∃ pools st',
     StoragePool.list_pools
       (Example.start (StoragePool.init (Example.prints text)))
     = (Return pools, st')
     ∧ is_Some (pools !! str "default"))
  ∧ fst (StoragePool.pool_exists (str "default")
           (Example.start (StoragePool.init (Example.fails "no daemon"))))
    = Return false.
Proof.
  intros text. split.
  - apply (proj1 (pool_exists_iff_key _ _)).
  - eapply (proj2 (pool_exists_iff_key _ _)). reflexivity.
Defined.

(** ** list_volumes and volume_exists, one query each *)

Lemma list_volumes_printed {D} (st : state D (PoolVolume.t D)) out d' :
  PoolVolume.virsh_instance (self st) (vol_list_of st) (daemon st)
  = (Return (virsh.VResult {| virsh.stdout_text := out |}), d') ->
  PoolVolume.list_volumes st
  = (Parse.volumes out, after_call st (vol_list_of st) d').
Proof.
  intros H. unfold PoolVolume.list_volumes, read_self, bind.
  by rewrite (try_CmdError_Return _ _ _ _ _ _ (call_run _ _ _ _ _ H)).
Qed.

Lemma list_volumes_CmdError {D} (st : state D (PoolVolume.t D)) detail d' :
  PoolVolume.virsh_instance (self st) (vol_list_of st) (daemon st)
  = (Raise (CmdError detail), d') ->
  PoolVolume.list_volumes st
  = (Return ∅,
     after_log (after_call st (vol_list_of st) d') ERROR
       "List volume failed: %s" [LStr detail]).
Proof.
  intros H. unfold PoolVolume.list_volumes, read_self, bind.
  by rewrite (try_CmdError_caught _ _ _ _ _ _ (call_run _ _ _ _ _ H)).
Qed.

(** Whatever virsh answers, [list_volumes] makes one call, [vol-list] of
    the pool of the object, and leaves the object as it is. *)
Lemma list_volumes_frame {D} (st : state D (PoolVolume.t D)) :
  calls (snd (PoolVolume.list_volumes st)) = calls st ++ [vol_list_of st]
  ∧ self (snd (PoolVolume.list_volumes st)) = self st.
Proof.
  unfold PoolVolume.list_volumes, read_self, bind, try_CmdError, call.
  fold (vol_list_of st).
  destruct (PoolVolume.virsh_instance (self st) (vol_list_of st) (daemon st))
    as [[v|e] d'].
  - destruct v as [r|b]; done.
  - destruct e; done.
Qed.

Lemma volume_exists_run {D} name (st : state D (PoolVolume.t D)) vols st' :
  PoolVolume.list_volumes st = (Return vols, st') ->
  PoolVolume.volume_exists name st = (Return (contains vols name), st').
Proof.
  intros H. unfold PoolVolume.volume_exists.
  by rewrite (bind_Return _ _ _ _ _ H).
Qed.

Lemma volume_exists_Raise {D} name (st : state D (PoolVolume.t D)) e st' :
  PoolVolume.list_volumes st = (Raise e, st') ->
  PoolVolume.volume_exists name st = (Raise e, st').
Proof.
  intros H. unfold PoolVolume.volume_exists.
  by rewrite (bind_Raise _ _ _ _ _ H).
Qed.

Lemma contains_true {V} (d : gmap pystr V) k :
  contains d k = true ↔ is_Some (d !! k).
Proof. unfold contains. apply bool_decide_eq_true. Qed.

Lemma contains_false {V} (d : gmap pystr V) k :
  contains d k = false ↔ d !! k = None.
Proof.
  unfold contains. rewrite bool_decide_eq_false.
  rewrite <- eq_None_not_Some. done.
Qed.

(** C9. For a volume name that [list_volumes] already shows,
    [create_volume] returns False, and the only virsh call it makes is the
    [vol-list] query: [vol-create-as] is not invoked. *)
Theorem create_volume_existing {D} (name capability : pystr)
    (allocation frmt : option pystr) (st : state D (PoolVolume.t D))
    vols st1 :
  PoolVolume.list_volumes st = (Return vols, st1) ->
  is_Some (vols !! name) ->
  fst (PoolVolume.create_volume name capability allocation frmt st)
  = Return false
  ∧ calls (snd (PoolVolume.create_volume name capability allocation frmt st))
    = calls st ++ [vol_list_of st].
Proof.
  intros Hl Hk. unfold PoolVolume.create_volume.
  rewrite (bind_Return _ _ _ _ _ (volume_exists_run name _ _ _ Hl)).
  apply contains_true in Hk. rewrite Hk. cbn. split; [done|].
  pose proof (list_volumes_frame st) as [Hc _]. by rewrite Hl in Hc.
Qed.

Lemma create_volume_existing_witness :
  let text :=
    ("Name Path" ++ Example.nl ++ "----" ++ Example.nl
       ++ "vol1 /var/lib/vol1")%string in
  let st :=
    Example.start (PoolVolume.init (str "default") (Example.prints text)) in
  fst (PoolVolume.create_volume (str "vol1") (str "1G") None None st)
  = Return false
  ∧ calls (snd (PoolVolume.create_volume (str "vol1") (str "1G") None None
                  st))
    = calls st ++ [vol_list_of st].
Proof.
  intros text st.
  eapply (create_volume_existing _ _ _ _ st).
  - vm_compute. reflexivity.
  - vm_compute. by eexists.
Defined.

(** C8. For a volume name that [list_volumes] does not show,
    [delete_volume] returns True and its only virsh call is that query, so
    [vol-delete] is not invoked. When the volume is shown, a result True
    means that [vol-delete] was invoked and succeeded and that a fresh query
    after it no longer shows the volume. *)
Theorem delete_volume_verifies {D} (name : pystr)
    (st : state D (PoolVolume.t D)) vols st1 :
  PoolVolume.list_volumes st = (Return vols, st1) ->
  (vols !! name = None ->
   fst (PoolVolume.delete_volume name st) = Return true
   ∧ calls (snd (PoolVolume.delete_volume name st))
     = calls st ++ [vol_list_of st])
  ∧ (is_Some (vols !! name) ->
     fst (PoolVolume.delete_volume name st) = Return true ->
     let c := virsh.vol_delete name (PoolVolume.pool_name (self st1)) in
     ∃ v d2 vols' st3,
       PoolVolume.virsh_instance (self st1) c (daemon st1) = (Return v, d2)
       ∧ PoolVolume.list_volumes (after_call st1 c d2)
         = (Return vols', st3)
       ∧ vols' !! name = None).
Proof.
  intros Hl. unfold PoolVolume.delete_volume.
  rewrite (bind_Return _ _ _ _ _ (volume_exists_run name _ _ _ Hl)).
  split.
  - intros Hk. apply contains_false in Hk. rewrite Hk. cbn. split; [done|].
    pose proof (list_volumes_frame st) as [Hc _]. by rewrite Hl in Hc.
  - intros Hk. apply contains_true in Hk. rewrite Hk.
    unfold read_self at 1. unfold bind at 1. cbn [self fst].
    unfold try_CmdError, call. intros Hres.
    set (c := virsh.vol_delete name (PoolVolume.pool_name (self st1))) in *.
    destruct (PoolVolume.virsh_instance (self st1) c (daemon st1))
      as [[v|e] d2] eqn:Hcall.
    + fold (after_call st1 c d2) in Hres.
      destruct (PoolVolume.list_volumes (after_call st1 c d2))
        as [[vols'|e] st3] eqn:Hl2.
      * rewrite (bind_Return _ _ _ _ _ (volume_exists_run name _ _ _ Hl2))
          in Hres.
        exists v, d2, vols', st3. split; [done|]. split; [done|].
        apply contains_false.
        by destruct (contains vols' name).
      * by rewrite (bind_Raise _ _ _ _ _ (volume_exists_Raise name _ _ _ Hl2))
          in Hres.
    + by destruct e.
Qed.

Lemma delete_volume_verifies_witness :
  let st := Example.with_volumes [str "vol1"] in
  let st1 := after_call st (vol_list_of st) [str "vol1"] in
  let c := virsh.vol_delete (str "vol1") (str "default") in
  (fst (PoolVolume.delete_volume (str "vol2") st) = Return true
   ∧ calls (snd (PoolVolume.delete_volume (str "vol2") st))
     = calls st ++ [vol_list_of st])
  ∧ ∃ v d2 vols' st3,
      PoolVolume.virsh_instance (self st1) c (daemon st1) = (Return v, d2)
      ∧ PoolVolume.list_volumes (after_call st1 c d2) = (Return vols', st3)
      ∧ vols' !! str "vol1" = None.
Proof.
  intros st st1 c.
  assert (Hl : ∃ vols, PoolVolume.list_volumes st = (Return vols, st1)
                       ∧ vols !! str "vol2" = None
                       ∧ is_Some (vols !! str "vol1")).
  { eexists. split; [vm_compute; reflexivity|].
    split; [vm_compute; reflexivity|]. vm_compute. by eexists. }
  destruct Hl as (vols & Hl & Hk2 & Hk1). split.
  - exact (proj1 (delete_volume_verifies (str "vol2") st vols st1 Hl) Hk2).
  - apply (proj2 (delete_volume_verifies (str "vol1") st vols st1 Hl) Hk1).
    vm_compute. reflexivity.
Defined.

(** C5. For a volume name that [list_volumes] does not show,
    [create_volume] returns False when [vol-create-as] fails; when it
    succeeds, the volumes are queried again and the result is True exactly
    when that query shows the volume. *)
Theorem create_volume_verifies {D} (name capability : pystr)
    (allocation frmt : option pystr) (st : state D (PoolVolume.t D))
    vols st1 :
  PoolVolume.list_volumes st = (Return vols, st1) ->
  vols !! name = None ->
  let c :=
    virsh.vol_create_as name (PoolVolume.pool_name (self st1)) capability
      allocation frmt in
  (∀ detail d2,
     PoolVolume.virsh_instance (self st1) c (daemon st1)
     = (Raise (CmdError detail), d2) ->
     fst (PoolVolume.create_volume name capability allocation frmt st)
     = Return false)
  ∧ (∀ v d2,
       PoolVolume.virsh_instance (self st1) c (daemon st1)
       = (Return v, d2) ->
       (fst (PoolVolume.create_volume name capability allocation frmt st)
        = Return true ↔
        ∃ vols' st3,
          PoolVolume.list_volumes (after_call st1 c d2) = (Return vols', st3)
          ∧ is_Some (vols' !! name))).
Proof.
  intros Hl Hk c. unfold PoolVolume.create_volume.
  rewrite (bind_Return _ _ _ _ _ (volume_exists_run name _ _ _ Hl)).
  apply contains_false in Hk. rewrite Hk.
  split.
  - intros detail d2 Hcall.
    unfold read_self, try_CmdError, call. unfold bind at 1. cbn [self fst].
    fold c. by rewrite Hcall.
  - intros v d2 Hcall.
    unfold read_self, try_CmdError, call. unfold bind at 1. cbn [self fst].
    fold c. rewrite Hcall. fold (after_call st1 c d2).
    destruct (PoolVolume.list_volumes (after_call st1 c d2))
      as [[vols'|e] st3] eqn:Hl2.
    + rewrite (bind_Return _ _ _ _ _ (volume_exists_run name _ _ _ Hl2)).
      destruct (contains vols' name) eqn:Hc; cbn [negb].
      * split; [|done]. intros _. exists vols', st3. split; [done|].
        by apply contains_true.
      * split.
        -- unfold bind, emit, ret.
           destruct (PoolVolume.list_volumes st3) as [[?|?] ?]; done.
        -- intros (vols'' & st3' & [= <- <-] & Hs).
           apply contains_true in Hs. congruence.
    + rewrite (bind_Raise _ _ _ _ _ (volume_exists_Raise name _ _ _ Hl2)).
      split; [done|]. by intros (? & ? & [=] & _).
Qed.

Lemma create_volume_verifies_witness :
  let st := Example.with_volumes [str "vol1"] in
  let st1 := after_call st (vol_list_of st) [str "vol1"] in
  fst (PoolVolume.create_volume (str "vol2") [] None None st) = Return false
  ∧ (fst (PoolVolume.create_volume (str "vol2") (str "1G") None None st)
     = Return true ↔
     ∃ vols' st3,
       PoolVolume.list_volumes
         (after_call st1
            (virsh.vol_create_as (str "vol2") (str "default") (str "1G")
               None None)
            [str "vol1"; str "vol2"])
       = (Return vols', st3)
       ∧ is_Some (vols' !! str "vol2")).
Proof.
  intros st st1.
  assert (Hl : ∃ vols, PoolVolume.list_volumes st = (Return vols, st1)
                       ∧ vols !! str "vol2" = None).
  { eexists. split; vm_compute; reflexivity. }
  destruct Hl as (vols & Hl & Hk). split.
  - eapply (proj1 (create_volume_verifies (str "vol2") [] None None st
                     vols st1 Hl Hk)).
    reflexivity.
  - eapply (proj2 (create_volume_verifies (str "vol2") (str "1G") None None
                     st vols st1 Hl Hk)).
    reflexivity.
Defined.

(** ** The object's fields are never assigned *)

Lemma keeps_ret {D Self A} (a : A) : keeps_self (@ret D Self A a).
Proof. done. Qed.

Lemma keeps_raise {D Self A} e : keeps_self (@raise D Self A e).
Proof. done. Qed.

Lemma keeps_lift {D Self A} (o : outcome A) : keeps_self (@lift D Self A o).
Proof. done. Qed.

Lemma keeps_read_self {D Self A} (field : Self -> A) :
  keeps_self (@read_self D Self A field).
Proof. done. Qed.

Lemma keeps_call {D Self} (vi : Self -> virsh.instance D) c :
  keeps_self (call vi c).
Proof. intros st. unfold call. by destruct (vi (self st) c (daemon st)). Qed.

Lemma keeps_emit {D Self} l m a : keeps_self (@emit D Self l m a).
Proof. done. Qed.

Lemma keeps_stdout_text {D Self} v : keeps_self (@stdout_text D Self v).
Proof. by destruct v. Qed.

Lemma keeps_bind {D Self A B} (m : M D Self A) (f : A -> M D Self B) :
  keeps_self m -> (∀ a, keeps_self (f a)) -> keeps_self (bind m f).
Proof.
  intros Hm Hf st. unfold bind. specialize (Hm st).
  destruct (m st) as [[a|e] st']; simpl in *; [|done].
  by rewrite Hf.
Qed.

Lemma keeps_try_CmdError {D Self A B} (m : M D Self B) h
    (k : B -> M D Self A) :
  keeps_self m -> (∀ d, keeps_self (h d)) -> (∀ b, keeps_self (k b)) ->
  keeps_self (try_CmdError m h k).
Proof.
  intros Hm Hh Hk st. unfold try_CmdError. specialize (Hm st).
  destruct (m st) as [[b|e] st']; simpl in *; [by rewrite Hk|].
  destruct e; try done. by rewrite Hh.
Qed.

Lemma keeps_try_except {D Self A} (m : M D Self A) h :
  keeps_self m -> (∀ e k, h e = Some k -> keeps_self k) ->
  keeps_self (try_except m h).
Proof.
  intros Hm Hh st. unfold try_except. specialize (Hm st).
  destruct (m st) as [[a|e] st']; simpl in *; [done|].
  destruct (h e) as [k|] eqn:He; [|done]. by rewrite (Hh e k He).
Qed.

Lemma keeps_on_CmdError_or_KeyError {D Self A} (k0 : M D Self A) e k :
  keeps_self k0 ->
  StoragePool.on_CmdError_or_KeyError k0 e = Some k -> keeps_self k.
Proof. intros H0 He. destruct e; simpl in He; congruence. Qed.

Create HintDb frame discriminated.

#[local] Hint Resolve keeps_ret keeps_raise keeps_lift keeps_read_self
  keeps_call keeps_emit keeps_stdout_text : frame.

Ltac frame_step :=
  match goal with
  | |- keeps_self (bind _ _) => apply keeps_bind
  | |- keeps_self (try_CmdError _ _ _) => apply keeps_try_CmdError
  | |- keeps_self (try_except _ _) => apply keeps_try_except
  | |- keeps_self (if ?b then _ else _) => destruct b
  | |- keeps_self (match ?o with Some _ => _ | None => _ end) => destruct o
  | |- keeps_self (LOG.error _ _) => apply keeps_emit
  | |- keeps_self (LOG.info _ _) => apply keeps_emit
  | |- keeps_self (LOG.debug _ _) => apply keeps_emit
  | |- ∀ _, _ => intro
  | H : StoragePool.on_CmdError_or_KeyError _ _ = Some _ |- keeps_self _ =>
      apply (keeps_on_CmdError_or_KeyError _ _ _ (keeps_ret _) H)
  | |- keeps_self _ => solve [auto with frame]
  end.

Ltac frame := repeat frame_step.

Lemma keeps_list_pools {D} : keeps_self (@StoragePool.list_pools D).
Proof. unfold StoragePool.list_pools. frame. Qed.

Lemma keeps_pool_exists {D} name : keeps_self (@StoragePool.pool_exists D name).
Proof. unfold StoragePool.pool_exists. pose proof (@keeps_list_pools D). frame. Qed.

Lemma keeps_pool_state {D} name : keeps_self (@StoragePool.pool_state D name).
Proof. unfold StoragePool.pool_state. pose proof (@keeps_list_pools D). frame. Qed.

Lemma keeps_pool_autostart {D} name :
  keeps_self (@StoragePool.pool_autostart D name).
Proof.
  unfold StoragePool.pool_autostart. pose proof (@keeps_list_pools D). frame.
Qed.

Lemma keeps_pool_info {D} name : keeps_self (@StoragePool.pool_info D name).
Proof. unfold StoragePool.pool_info. frame. Qed.

Lemma keeps_is_pool_active {D} name :
  keeps_self (@StoragePool.is_pool_active D name).
Proof.
  unfold StoragePool.is_pool_active. pose proof (@keeps_pool_state D name).
  frame.
Qed.

Lemma keeps_define_pool {D} kind said name pool_type target extra :
  keeps_self (@StoragePool.define_pool D kind said name pool_type target extra).
Proof. unfold StoragePool.define_pool. frame. Qed.

Lemma keeps_list_volumes {D} : keeps_self (@PoolVolume.list_volumes D).
Proof. unfold PoolVolume.list_volumes. frame. Qed.

Lemma keeps_volume_exists {D} name :
  keeps_self (@PoolVolume.volume_exists D name).
Proof.
  unfold PoolVolume.volume_exists. pose proof (@keeps_list_volumes D). frame.
Qed.

#[local] Hint Resolve keeps_list_pools keeps_pool_exists keeps_pool_state
  keeps_pool_autostart keeps_pool_info keeps_is_pool_active keeps_define_pool
  keeps_list_volumes keeps_volume_exists : frame.

Lemma fresh_query_twice {D Self A} (q : M D Self A) vi c view :
  fresh_query q vi c view ->
  ∀ st,
    let st1 := snd (q st) in
    let reply2 := vi (self st) (c (self st)) (daemon st1) in
    fst (q st1) = view (fst reply2)
    ∧ calls (snd (q st1)) = calls st ++ [c (self st); c (self st)].
Proof.
  intros Hq st st1 reply2.
  destruct (Hq st) as (_ & Hc & _ & Hs).
  destruct (Hq st1) as (Hr1 & Hc1 & _ & _).
  subst st1 reply2. rewrite Hs in Hr1, Hc1. split; [done|].
  rewrite Hc1, Hc, <- app_assoc. done.
Qed.

Lemma list_pools_fresh {D} :
  fresh_query (@StoragePool.list_pools D) StoragePool.virsh_instance
    (fun _ => virsh.pool_list (str "--all")) pools_of_reply.
Proof.
  intros st. unfold StoragePool.list_pools, bind, call. cbv zeta.
  destruct (StoragePool.virsh_instance (self st)
              (virsh.pool_list (str "--all")) (daemon st)) as [[v|e] d'].
  - by destruct v.
  - done.
Qed.

Lemma pool_info_fresh {D} name :
  fresh_query (@StoragePool.pool_info D name) StoragePool.virsh_instance
    (fun _ => virsh.pool_info name) pool_info_of_reply.
Proof.
  intros st. unfold StoragePool.pool_info, try_CmdError, call. cbv zeta.
  destruct (StoragePool.virsh_instance (self st) (virsh.pool_info name)
              (daemon st)) as [[v|e] d'].
  - by destruct v.
  - by destruct e.
Qed.

Lemma list_volumes_fresh {D} :
  fresh_query (@PoolVolume.list_volumes D) PoolVolume.virsh_instance
    (fun s => virsh.vol_list (PoolVolume.pool_name s)) volumes_of_reply.
Proof.
  intros st.
  unfold PoolVolume.list_volumes, read_self, bind, try_CmdError, call.
  cbv zeta.
  destruct (PoolVolume.virsh_instance (self st)
              (virsh.vol_list (PoolVolume.pool_name (self st))) (daemon st))
    as [[v|e] d'].
  - by destruct v.
  - by destruct e.
Qed.

Lemma volume_info_fresh {D} name :
  fresh_query (@PoolVolume.volume_info D name) PoolVolume.virsh_instance
    (fun s => virsh.vol_info name (PoolVolume.pool_name s))
    volume_info_of_reply.
Proof.
  intros st.
  unfold PoolVolume.volume_info, read_self, bind, try_CmdError, call.
  cbv zeta.
  destruct (PoolVolume.virsh_instance (self st)
              (virsh.vol_info name (PoolVolume.pool_name (self st)))
              (daemon st))
    as [[v|e] d'].
  - by destruct v.
  - by destruct e.
Qed.

(** A method that only works on the result of a fresh query is one too. *)
Lemma fresh_query_then {D Self A B} (q : M D Self A) (q' : M D Self B)
    vi c view (g : outcome A -> outcome B) :
  fresh_query q vi c view ->
  (∀ st, q' st = (g (fst (q st)), snd (q st))) ->
  fresh_query q' vi c (fun r => g (view r)).
Proof.
  intros Hq Hg st. rewrite Hg. cbn [fst snd].
  destruct (Hq st) as (Hr & Hc & Hd & Hs). by rewrite Hr.
Qed.

Lemma fresh_each_time_intro {D Self A} (q : M D Self A) vi c view :
  fresh_query q vi c view -> fresh_each_time q vi c view.
Proof. intros Hq. split; [done|]. intros st. by apply fresh_query_twice. Qed.

Lemma pool_exists_fresh {D} name :
  fresh_query (@StoragePool.pool_exists D name) StoragePool.virsh_instance
    (fun _ => virsh.pool_list (str "--all"))
    (fun r => exists_of_pools name (pools_of_reply r)).
Proof.
  apply (fresh_query_then _ _ _ _ _ (exists_of_pools name) list_pools_fresh).
  intros st. unfold StoragePool.pool_exists, try_CmdError.
  destruct (StoragePool.list_pools st) as [[pools|e] st']; [done|].
  by destruct e.
Qed.

Lemma pool_column_fresh {D} name column
    (q : M D (StoragePool.t D) (option pystr)) :
  q = try_except
        (pools ← StoragePool.list_pools;
         details ← lift (dict_getitem pools name);
         v ← lift (dict_getitem details column);
         ret (Some v))
        (StoragePool.on_CmdError_or_KeyError (ret None)) ->
  fresh_query q StoragePool.virsh_instance
    (fun _ => virsh.pool_list (str "--all"))
    (fun r => column_of_pools name column (pools_of_reply r)).
Proof.
  intros ->.
  apply (fresh_query_then _ _ _ _ _ (column_of_pools name column)
           list_pools_fresh).
  intros st. unfold try_except. unfold bind at 1.
  destruct (StoragePool.list_pools st) as [[pools|e] st']; cbn [fst snd].
  - unfold bind, lift, dict_getitem, ret, column_of_pools.
    destruct (pools !! name) as [d|]; [|done].
    by destruct (d !! column).
  - by destruct e.
Qed.

Lemma is_pool_active_fresh {D} name :
  fresh_query (@StoragePool.is_pool_active D name) StoragePool.virsh_instance
    (fun _ => virsh.pool_list (str "--all"))
    (fun r =>
       active_of_state
         (column_of_pools name (str "State") (pools_of_reply r))).
Proof.
  apply (fresh_query_then _ _ _ _ _ active_of_state
           (pool_column_fresh name (str "State")
              (StoragePool.pool_state name) eq_refl)).
  intros st. unfold StoragePool.is_pool_active, bind.
  destruct (StoragePool.pool_state name st) as [[s|e] st']; [|done].
  cbn [fst snd active_of_state].
  by destruct (bool_decide (s = Some (str "active"))).
Qed.

Lemma get_pool_uuid_fresh {D} name :
  fresh_query (@StoragePool.get_pool_uuid D name) StoragePool.virsh_instance
    (fun _ => virsh.pool_info name)
    (fun r => entry_of_info (str "UUID") (pool_info_of_reply r)).
Proof.
  apply (fresh_query_then _ _ _ _ _ (entry_of_info (str "UUID"))
           (pool_info_fresh name)).
  intros st. unfold StoragePool.get_pool_uuid, bind, lift.
  by destruct (StoragePool.pool_info name st) as [[info|e] st'].
Qed.

Lemma is_pool_persistent_fresh {D} name :
  fresh_query (@StoragePool.is_pool_persistent D name)
    StoragePool.virsh_instance (fun _ => virsh.pool_info name)
    (fun r =>
       yes_of_entry (entry_of_info (str "Persistent") (pool_info_of_reply r))).
Proof.
  apply (fresh_query_then _ _ _ _ _
           (fun o => yes_of_entry (entry_of_info (str "Persistent") o))
           (pool_info_fresh name)).
  intros st. unfold StoragePool.is_pool_persistent. unfold bind at 1.
  destruct (StoragePool.pool_info name st) as [[info|e] st']; [|done].
  cbn [fst snd entry_of_info]. unfold bind, lift, ret.
  destruct (dict_getitem info (str "Persistent")) as [v|e]; [|done].
  cbn [yes_of_entry]. by destruct (pystr_eqb v (str "yes")).
Qed.

Lemma volume_exists_fresh {D} name :
  fresh_query (@PoolVolume.volume_exists D name) PoolVolume.virsh_instance
    (fun s => virsh.vol_list (PoolVolume.pool_name s))
    (fun r => exists_of_volumes name (volumes_of_reply r)).
Proof.
  apply (fresh_query_then _ _ _ _ _ (exists_of_volumes name)
           list_volumes_fresh).
  intros st. unfold PoolVolume.volume_exists, bind, ret.
  by destruct (PoolVolume.list_volumes st) as [[vols|e] st'].
Qed.

(** C7. No method of [StoragePool] or [PoolVolume] changes a field of its
    object, and the query methods keep nothing between calls: each call
    invokes virsh once and answers from what that invocation returned, so
    two successive calls make two invocations and the second answers from
    the second one. This holds of all eleven queries: [list_pools],
    [pool_exists], [pool_state], [pool_autostart], [pool_info],
    [get_pool_uuid], [is_pool_active], [is_pool_persistent],
    [list_volumes], [volume_exists] and [volume_info]. *)
Theorem methods_keep_no_state {D} :
  (∀ (c : StoragePool_call) (st : state D (StoragePool.t D)),
     self (StoragePool_final c st) = self st)
  ∧ (∀ (c : PoolVolume_call) (st : state D (PoolVolume.t D)),
       self (PoolVolume_final c st) = self st)
  ∧ (fresh_query (@StoragePool.list_pools D) StoragePool.virsh_instance
       (fun _ => virsh.pool_list (str "--all")) pools_of_reply
     ∧ ∀ name,
         fresh_query (@StoragePool.pool_info D name)
           StoragePool.virsh_instance
           (fun _ => virsh.pool_info name) pool_info_of_reply)
  ∧ (fresh_query (@PoolVolume.list_volumes D) PoolVolume.virsh_instance
       (fun s => virsh.vol_list (PoolVolume.pool_name s)) volumes_of_reply
     ∧ ∀ name,
         fresh_query (@PoolVolume.volume_info D name)
           PoolVolume.virsh_instance
           (fun s => virsh.vol_info name (PoolVolume.pool_name s))
           volume_info_of_reply)
  ∧ (∀ st : state D (StoragePool.t D),
       let st1 := snd (StoragePool.list_pools st) in
       let c := virsh.pool_list (str "--all") in
       fst (StoragePool.list_pools st1)
       = pools_of_reply
           (fst (StoragePool.virsh_instance (self st) c (daemon st1)))
       ∧ calls (snd (StoragePool.list_pools st1)) = calls st ++ [c; c])
  ∧ (∀ st : state D (PoolVolume.t D),
       let st1 := snd (PoolVolume.list_volumes st) in
       let c := virsh.vol_list (PoolVolume.pool_name (self st)) in
       fst (PoolVolume.list_volumes st1)
       = volumes_of_reply
           (fst (PoolVolume.virsh_instance (self st) c (daemon st1)))
       ∧ calls (snd (PoolVolume.list_volumes st1)) = calls st ++ [c; c])
  ∧ (∀ name,
       fresh_each_time (@StoragePool.pool_exists D name)
           StoragePool.virsh_instance (fun _ => virsh.pool_list (str "--all"))
           (fun r => exists_of_pools name (pools_of_reply r))
       ∧ fresh_each_time (@StoragePool.pool_state D name)
           StoragePool.virsh_instance (fun _ => virsh.pool_list (str "--all"))
           (fun r => column_of_pools name (str "State") (pools_of_reply r))
       ∧ fresh_each_time (@StoragePool.pool_autostart D name)
           StoragePool.virsh_instance (fun _ => virsh.pool_list (str "--all"))
           (fun r =>
              column_of_pools name (str "Autostart") (pools_of_reply r))
       ∧ fresh_each_time (@StoragePool.is_pool_active D name)
           StoragePool.virsh_instance (fun _ => virsh.pool_list (str "--all"))
           (fun r =>
              active_of_state
                (column_of_pools name (str "State") (pools_of_reply r)))
       ∧ fresh_each_time (@StoragePool.pool_info D name)
           StoragePool.virsh_instance (fun _ => virsh.pool_info name)
           pool_info_of_reply
       ∧ fresh_each_time (@StoragePool.get_pool_uuid D name)
           StoragePool.virsh_instance (fun _ => virsh.pool_info name)
           (fun r => entry_of_info (str "UUID") (pool_info_of_reply r))
       ∧ fresh_each_time (@StoragePool.is_pool_persistent D name)
           StoragePool.virsh_instance (fun _ => virsh.pool_info name)
           (fun r =>
              yes_of_entry
                (entry_of_info (str "Persistent") (pool_info_of_reply r)))
       ∧ fresh_each_time (@PoolVolume.volume_exists D name)
           PoolVolume.virsh_instance
           (fun s => virsh.vol_list (PoolVolume.pool_name s))
           (fun r => exists_of_volumes name (volumes_of_reply r))
       ∧ fresh_each_time (@PoolVolume.volume_info D name)
           PoolVolume.virsh_instance
           (fun s => virsh.vol_info name (PoolVolume.pool_name s))
           volume_info_of_reply).
Proof.
  split; [|split; [|split; [|split; [|split; [|split]]]]].
  - intros c st. unfold StoragePool_final, final.
    destruct c;
      match goal with |- self (snd (?m st)) = _ =>
        revert st; change (keeps_self m) end;
      unfold StoragePool.get_pool_uuid, StoragePool.is_pool_persistent,
        StoragePool.delete_pool, StoragePool.delete_pool_undefine,
        StoragePool.set_pool_autostart, StoragePool.build_pool,
        StoragePool.start_pool, StoragePool.destroy_pool,
        StoragePool.define_dir_pool, StoragePool.define_fs_pool,
        StoragePool.define_lvm_pool, StoragePool.define_disk_pool,
        StoragePool.define_iscsi_pool, StoragePool.define_netfs_pool,
        StoragePool.define_rbd_pool;
      frame.
  - intros c st. unfold PoolVolume_final, final.
    destruct c;
      match goal with |- self (snd (?m st)) = _ =>
        revert st; change (keeps_self m) end;
      unfold PoolVolume.volume_info, PoolVolume.create_volume,
        PoolVolume.delete_volume, PoolVolume.clone_volume, PoolVolume.and_not;
      frame.
  - split; [apply list_pools_fresh|apply pool_info_fresh].
  - split; [apply list_volumes_fresh|apply volume_info_fresh].
  - intros st. apply (fresh_query_twice _ _ _ _ list_pools_fresh st).
  - intros st. apply (fresh_query_twice _ _ _ _ list_volumes_fresh st).
  - intros name.
    repeat match goal with |- _ ∧ _ => split end;
      apply fresh_each_time_intro.
    + apply pool_exists_fresh.
    + by apply pool_column_fresh.
    + by apply pool_column_fresh.
    + apply is_pool_active_fresh.
    + apply pool_info_fresh.
    + apply get_pool_uuid_fresh.
    + apply is_pool_persistent_fresh.
    + apply volume_exists_fresh.
    + apply volume_info_fresh.
Qed.

(** ** What becomes of a failed virsh command *)








(** ** Splitting on a separator *)

Lemma startswith_spec p s : Py.startswith p s = true ↔ ∃ r, s = p ++ r.
Proof.
  revert s. induction p as [|a p IH]; intros s; simpl.
  - split; [by exists s|done].
  - destruct s as [|b s].
    + split; [done|]. by intros [r ?].
    + unfold Py.ascii_eqb. rewrite andb_true_iff, Ascii.eqb_eq, IH. split.
      * intros [-> [r ->]]. by exists r.
      * intros [r [= -> ->]]. split; [done|]. by exists r.
Qed.

Lemma occurs_cons sep c s :
  occurs sep (c :: s) ↔ Py.startswith sep (c :: s) = true ∨ occurs sep s.
Proof.
  unfold occurs. rewrite startswith_spec. split.
  - intros ([|x l] & r & H).
    + left. by exists r.
    + injection H as -> ->. right. by exists l, r.
  - intros [[r H]|(l & r & ->)].
    + by exists [], r.
    + by exists (c :: l), r.
Qed.

Lemma occurs_nil sep : sep ≠ [] -> ¬ occurs sep [].
Proof.
  intros Hsep (l & r & H). symmetry in H.
  apply app_eq_nil in H as [_ H]. apply app_eq_nil in H as [H _]. done.
Qed.

Lemma split_from_skip sep k cur s :
  k ≤ length s ->
  Py.split_from sep k cur s = Py.split_from sep 0 cur (drop k s).
Proof.
  revert k. induction s as [|c s IH]; intros k Hk.
  - simpl in Hk. by replace k with 0 by lia.
  - destruct k as [|k]; [done|]. simpl in *. apply IH. lia.
Qed.

Lemma split_hit sep cur r :
  sep ≠ [] ->
  Py.split_from sep 0 cur (sep ++ r) = cur :: Py.split_from sep 0 [] r.
Proof.
  intros Hsep. destruct sep as [|a sep'] eqn:E; [done|]. rewrite <- E.
  assert (Hs : Py.startswith sep (sep ++ r) = true)
    by (apply startswith_spec; by exists r).
  rewrite E in *. cbn [app Py.split_from]. cbn [app] in Hs. rewrite Hs.
  f_equal. rewrite split_from_skip.
  - cbn [length]. replace (S (length sep') - 1) with (length sep') by lia.
    by rewrite drop_app_length.
  - cbn [length]. rewrite length_app. lia.
Qed.

Lemma split_miss sep cur c s :
  Py.startswith sep (c :: s) = false ->
  Py.split_from sep 0 cur (c :: s) = Py.split_from sep 0 (cur ++ [c]) s.
Proof. intros H. cbn [Py.split_from]. by rewrite H. Qed.

(** The first piece is the text before the first occurrence. *)
Lemma split_first sep cur s :
  sep ≠ [] ->
  (¬ occurs sep s ∧ Py.split_from sep 0 cur s = [cur ++ s])
  ∨ (∃ a r, s = a ++ sep ++ r
            ∧ (∀ a' r', s = a' ++ sep ++ r' -> length a ≤ length a')
            ∧ head (Py.split_from sep 0 cur s) = Some (cur ++ a)).
Proof.
  intros Hsep. revert cur. induction s as [|c s IH]; intros cur.
  - left. split; [by apply occurs_nil|]. simpl. by rewrite app_nil_r.
  - destruct (Py.startswith sep (c :: s)) eqn:Hs.
    + right. apply startswith_spec in Hs as [r Hr]. exists [], r.
      split; [done|]. split; [intros; simpl; lia|].
      rewrite Hr, split_hit by done. simpl. by rewrite app_nil_r.
    + rewrite split_miss by done.
      destruct (IH (cur ++ [c])) as [[Hno Heq]|(a & r & Hs' & Hfirst & Hh)].
      * left. split.
        -- rewrite occurs_cons. intros [?|?]; [congruence|done].
        -- by rewrite Heq, <- app_assoc.
      * right. exists (c :: a), r. split; [by rewrite Hs'|]. split.
        -- intros [|x a'] r' H.
           ++ exfalso. assert (Py.startswith sep (c :: s) = true);
                [|congruence].
              apply startswith_spec. by exists r'.
           ++ injection H as -> H. simpl. apply Hfirst in H. lia.
        -- by rewrite Hh, <- app_assoc.
Qed.

(** The last piece is the text after the last occurrence taken, and the
    separator does not occur in it. *)
Lemma split_last sep cur s :
  sep ≠ [] ->
  (¬ occurs sep s ∧ Py.split_from sep 0 cur s = [cur ++ s])
  ∨ (∃ l v, s = l ++ sep ++ v ∧ ¬ occurs sep v
            ∧ last (Py.split_from sep 0 cur s) = Some v).
Proof.
  intros Hsep. remember (length s) as n eqn:Hn. revert s cur Hn.
  induction n as [n IH] using lt_wf_ind. intros s cur ->.
  destruct s as [|c s].
  - left. split; [by apply occurs_nil|]. simpl. by rewrite app_nil_r.
  - destruct (Py.startswith sep (c :: s)) eqn:Hs.
    + right. apply startswith_spec in Hs as [r Hr]. rewrite Hr.
      rewrite split_hit by done.
      assert (Hlt : length r < length (c :: s)).
      { rewrite Hr, length_app. destruct sep; [done|]. simpl. lia. }
      destruct (IH (length r) Hlt r [] eq_refl)
        as [[Hno Heq]|(l & v & Hr' & Hno & Hl)].
      * exists [], r. split; [done|]. split; [done|]. by rewrite Heq.
      * exists (sep ++ l), v. split; [by rewrite Hr', <- app_assoc|].
        split; [done|]. rewrite last_cons, Hl. done.
    + rewrite split_miss by done.
      assert (Hlt : length s < length (c :: s)) by (simpl; lia).
      destruct (IH (length s) Hlt s (cur ++ [c]) eq_refl)
        as [[Hno Heq]|(l & v & Hs' & Hno & Hl)].
      * left. split.
        -- rewrite occurs_cons. intros [?|?]; [congruence|done].
        -- by rewrite Heq, <- app_assoc.
      * right. exists (c :: l), v. split; [by rewrite Hs'|]. done.
Qed.

Lemma split_from_nonempty sep k cur s : Py.split_from sep k cur s ≠ [].
Proof.
  revert k cur. induction s as [|c s IH]; intros k cur; [done|].
  simpl. destruct k; [|apply IH].
  destruct (Py.startswith sep (c :: s)); [done|apply IH].
Qed.

Lemma occurs_colon s : occurs [colon] s ↔ colon ∈ s.
Proof.
  unfold occurs. split.
  - intros (l & r & ->). apply elem_of_app. right. apply list_elem_of_here.
  - intros H. apply list_elem_of_split in H as (l & r & ->). by exists l, r.
Qed.

Lemma before_first_unique {A} (x : A) a b r r' :
  x ∉ a -> x ∉ b -> a ++ x :: r = b ++ x :: r' -> a = b.
Proof.
  revert b. induction a as [|y a IH]; intros [|z b] Ha Hb H; simpl in H.
  - done.
  - injection H as -> _. exfalso. apply Hb, list_elem_of_here.
  - injection H as -> _. exfalso. apply Ha, list_elem_of_here.
  - injection H as -> H. f_equal. apply IH; [| |done].
    + intros ?. apply Ha. by apply list_elem_of_further.
    + intros ?. apply Hb. by apply list_elem_of_further.
Qed.

Lemma attr_of_no_colon line attr : attr_of line attr -> colon ∉ attr.
Proof. intros [[H ->]|[H _]]; done. Qed.

Lemma attr_of_unique line a b : attr_of line a -> attr_of line b -> a = b.
Proof.
  intros [[Ha ->]|[Ha [r Hr]]] [[Hb ->]|[Hb [r' Hr']]].
  - done.
  - exfalso. apply Ha. rewrite Hr'. apply elem_of_app. right.
    apply list_elem_of_here.
  - exfalso. apply Hb. rewrite Hr. apply elem_of_app. right.
    apply list_elem_of_here.
  - rewrite Hr in Hr'. by eapply before_first_unique.
Qed.

(** Two occurrences of [attr ++ ":"] cannot overlap when [attr] has no
    colon. *)
Lemma occurrence_gap attr l v l' v' :
  colon ∉ attr ->
  l ++ (attr ++ [colon]) ++ v = l' ++ (attr ++ [colon]) ++ v' ->
  length l < length l' ->
  length l + length (attr ++ [colon]) ≤ length l'.
Proof.
  intros Hattr Heq Hlt. rewrite length_app. simpl.
  destruct (decide (length l' ≤ length l + length attr)) as [Hle|]; [|lia].
  exfalso. apply Hattr.
  assert (H1 : (l ++ (attr ++ [colon]) ++ v) !! (length l + length attr)
               = Some colon).
  { rewrite lookup_app_r by lia.
    replace (length l + length attr - length l) with (length attr) by lia.
    rewrite <- app_assoc. by apply list_lookup_middle. }
  rewrite Heq in H1. rewrite lookup_app_r in H1 by lia.
  rewrite <- app_assoc in H1. rewrite lookup_app_l in H1 by lia.
  by eapply list_elem_of_lookup_2.
Qed.

Lemma last_occurrence attr line l v :
  colon ∉ attr ->
  line = l ++ (attr ++ [colon]) ++ v ->
  ¬ occurs (attr ++ [colon]) v ->
  ∀ l' w', line = l' ++ (attr ++ [colon]) ++ w' -> length l' ≤ length l.
Proof.
  intros Hattr -> Hno l' w' Heq.
  destruct (decide (length l' ≤ length l)) as [|Hgt]; [done|].
  exfalso. apply Hno.
  pose proof (occurrence_gap _ _ _ _ _ Hattr Heq ltac:(lia)) as Hgap.
  rewrite app_assoc in Heq.
  apply app_eq_app in Heq as [m [[H1 H2]|[H1 H2]]].
  - assert (m = []) as ->.
    { apply (f_equal length) in H1. rewrite !length_app in H1.
      rewrite length_app in Hgap. destruct m; [done|]. simpl in *. lia. }
    simpl in H2. exists [], w'. by rewrite <- H2.
  - exists m, w'. done.
Qed.

Lemma getitem_head (l : list pystr) :
  l ≠ [] -> getitem l 0 = Return (default [] (head l)).
Proof. by destruct l. Qed.

Lemma getitem_last_default (l : list pystr) :
  l ≠ [] -> getitem_last l = Return (default [] (last l)).
Proof.
  intros Hl. unfold getitem_last. destruct (last l) eqn:E; [done|].
  by apply last_None in E.
Qed.

Lemma split_by_nonempty sep s :
  sep ≠ [] -> split sep s = Return (Py.split_from sep 0 [] s).
Proof. by destruct sep. Qed.

Lemma volume_info_step_entry line info :
  Parse.volume_info_step line info
  = Return (<[(vol_entry line).1 := (vol_entry line).2]> info).
Proof.
  unfold Parse.volume_info_step, vol_entry.
  change (str ":") with [colon].
  rewrite split_by_nonempty by done.
  cbn [mbind outcome_mbind outcome_bind].
  rewrite getitem_head by apply split_from_nonempty.
  cbn [mbind outcome_mbind outcome_bind].
  rewrite split_by_nonempty by (intros H; by apply app_eq_nil in H as [_ ?]).
  cbn [mbind outcome_mbind outcome_bind].
  rewrite getitem_last_default by apply split_from_nonempty.
  done.
Qed.

Lemma vol_entry_attr line : attr_of line (vol_entry line).1.
Proof.
  unfold vol_entry. cbn [fst].
  destruct (split_first [colon] [] line) as [[Hno Heq]|(a & r & Hl & Hf & Hh)];
    [done| |].
  - left. rewrite Heq. simpl. split; [|done]. by rewrite <- occurs_colon.
  - right. rewrite Hh. simpl. split; [|by exists r].
    intros Hin. apply list_elem_of_split in Hin as (a1 & a2 & ->).
    specialize (Hf a1 (a2 ++ [colon] ++ r)).
    rewrite length_app in Hf. simpl in Hf.
    assert (length a1 + S (length a2) ≤ length a1); [|lia].
    apply Hf. rewrite Hl, <- !app_assoc. done.
Qed.

Lemma vol_entry_value line :
  value_of line (vol_entry line).1 (vol_entry line).2.
Proof.
  pose proof (attr_of_no_colon _ _ (vol_entry_attr line)) as Hattr.
  unfold vol_entry in *. cbn [fst snd] in *.
  set (attr := default [] (head (Py.split_from [colon] 0 [] line))) in *.
  assert (Hsep : attr ++ [colon] ≠ []).
  { intros H. by apply app_eq_nil in H as [_ ?]. }
  unfold value_of.
  destruct (split_last (attr ++ [colon]) [] line Hsep)
    as [[Hno Heq]|(l & v & Hl & Hno & Hlast)].
  - left. rewrite Heq. done.
  - right. exists l, v. split; [done|]. rewrite Hlast. split; [|done].
    by eapply last_occurrence.
Qed.

Lemma value_of_unique line attr v v' :
  value_of line attr v -> value_of line attr v' -> v = v'.
Proof.
  unfold value_of.
  intros [[Hno ->]|(l & w & Hl & Hmax & ->)]
         [[Hno' ->]|(l' & w' & Hl' & Hmax' & ->)].
  - done.
  - exfalso. apply Hno. by exists l', w'.
  - exfalso. apply Hno'. by exists l, w.
  - pose proof (Hmax _ _ Hl') as Hle. pose proof (Hmax' _ _ Hl) as Hge.
    rewrite Hl in Hl'. apply app_inj_1 in Hl' as [_ Hw]; [|lia].
    apply app_inv_head in Hw. by rewrite Hw.
Qed.

Lemma parse_volume_info out :
  Parse.volume_info out
  = Return (fold_left (insert_step vol_write)
              (Py.splitlines (Py.strip out)) ∅).
Proof.
  unfold Parse.volume_info. apply for_each_total. intros line info _.
  rewrite volume_info_step_entry. unfold insert_step, vol_write.
  by destruct (vol_entry line).
Qed.

Lemma vol_write_attr k line : writes vol_write k line ↔ attr_of line k.
Proof.
  unfold writes, vol_write. pose proof (vol_entry_attr line) as Ha. split.
  - intros [v Hv]. assert (E : vol_entry line = (k, v)) by congruence.
    by rewrite E in Ha.
  - intros Hk. rewrite (attr_of_unique _ _ _ Hk Ha).
    exists (vol_entry line).2. by destruct (vol_entry line).
Qed.

Lemma vol_write_value k v line :
  vol_write line = Some (k, v) ↔ attr_of line k ∧ value_of line k v.
Proof.
  unfold vol_write. pose proof (vol_entry_attr line) as Ha.
  pose proof (vol_entry_value line) as Hv. split.
  - intros H. assert (E : vol_entry line = (k, v)) by congruence.
    rewrite E in Ha, Hv. done.
  - intros [Hk Hkv]. pose proof (attr_of_unique _ _ _ Hk Ha) as ->.
    rewrite (value_of_unique _ _ _ _ Hkv Hv). by destruct (vol_entry line).
Qed.

Lemma split_colon_length cur (s : list ascii) :
  length (Py.split_from [colon] 0 cur s)
  = S (length (filter (fun c => c = colon) s)).
Proof.
  revert cur. induction s as [|c s IH]; intros cur; [done|].
  cbn [Py.split_from Py.startswith]. unfold Py.ascii_eqb.
  destruct (Ascii.eqb colon c) eqn:E.
  - apply Ascii.eqb_eq in E as <-. cbn [andb length Nat.sub].
    rewrite filter_cons_True by done. simpl. by rewrite IH.
  - apply Ascii.eqb_neq in E. cbn [andb].
    rewrite filter_cons_False by congruence. apply IH.
Qed.

(** C10, as amended. For every line of the stripped stdout, [volume_info]
    maps the text before the line's first [':'] (the whole line when it has
    none) to the stripped text after the last occurrence of that attribute
    name followed by [':'] (the whole line, stripped, when there is none); a
    later line with the same attribute replaces an earlier one. So a value
    with colons is kept in full as long as the attribute name followed by
    [':'] does not occur in it again, whereas [pool_info] drops every line
    with more than one colon. *)
Theorem volume_info_last_occurrence {D} (name : pystr)
    (st : state D (PoolVolume.t D)) out d' :
  PoolVolume.virsh_instance (self st)
    (virsh.vol_info name (PoolVolume.pool_name (self st))) (daemon st)
  = (Return (virsh.VResult {| virsh.stdout_text := out |}), d') ->
  let lines := Py.splitlines (Py.strip out) in
  (∃ info,
     fst (PoolVolume.volume_info name st) = Return info
     ∧ (∀ line, line ∈ lines ->
          ∃ attr v, attr_of line attr ∧ value_of line attr v
                    ∧ is_Some (info !! attr))
     ∧ (∀ k v,
          info !! k = Some v ↔
          ∃ n line, last_at (fun l => attr_of l k) lines n line
                    ∧ value_of line k v))
  ∧ (∀ attr w info0,
       (colon ∉ attr) -> ¬ occurs (attr ++ [colon]) w ->
       Parse.volume_info_step (attr ++ colon :: w) info0
       = Return (<[attr := Py.strip w]> info0))
  ∧ (∀ (line : list ascii) info0,
       2 ≤ length (filter (fun c => c = colon) line) ->
       Parse.pool_info_step info0 line = info0).
Proof.
  intros Hcall lines. split; [|split].
  - exists (fold_left (insert_step vol_write) lines ∅). split; [|split].
    + unfold PoolVolume.volume_info, read_self. unfold bind at 1.
      cbn [self fst]. unfold try_CmdError, call. rewrite Hcall.
      unfold stdout_text, ret, bind, lift. cbn. apply parse_volume_info.
    + intros line Hline. exists (vol_entry line).1, (vol_entry line).2.
      split; [apply vol_entry_attr|]. split; [apply vol_entry_value|].
      apply fold_insert_is_Some. right. exists line. split; [done|].
      apply vol_write_attr, vol_entry_attr.
    + intros k v. rewrite fold_insert_lookup, lookup_empty. split.
      * intros [(n & line & Hlast & Hw)|[_ ?]]; [|done].
        exists n, line. split.
        -- by apply (proj1 (last_at_ext (writes vol_write k)
                                (fun l => attr_of l k) lines n line
                                (fun y _ => vol_write_attr k y))).
        -- by apply vol_write_value in Hw as [_ ?].
      * intros (n & line & Hlast & Hv). left. exists n, line. split.
        -- by apply (proj2 (last_at_ext (writes vol_write k)
                                (fun l => attr_of l k) lines n line
                                (fun y _ => vol_write_attr k y))).
        -- apply vol_write_value. split; [|done].
           by destruct Hlast as (_ & ? & _).
  - intros attr w info0 Hattr Hno. rewrite volume_info_step_entry.
    assert (Ha : attr_of (attr ++ colon :: w) attr).
    { right. split; [done|]. by exists w. }
    assert (Hv : value_of (attr ++ colon :: w) attr (Py.strip w)).
    { right. exists [], w. split; [by rewrite <- app_assoc|].
      split; [|done]. eapply (last_occurrence attr _ [] w); try done.
      by rewrite <- app_assoc. }
    pose proof (vol_entry_attr (attr ++ colon :: w)) as Ha'.
    pose proof (vol_entry_value (attr ++ colon :: w)) as Hv'.
    rewrite <- (attr_of_unique _ _ _ Ha Ha') in *.
    by rewrite <- (value_of_unique _ _ _ _ Hv Hv').
  - intros line info0 Hcount. unfold Parse.pool_info_step.
    change (str ":") with [colon].
    pose proof (split_colon_length [] line) as Hlen.
    destruct (Py.split_from [colon] 0 [] line) as [|p0 [|p1 [|p2 ps]]];
      simpl in Hlen; try done; lia.
Qed.

Lemma volume_info_last_occurrence_witness :
  let text :=
    ("Name: vol1" ++ Example.nl ++ "Path: /dev/ip-10.0.0.1:3260-lun-1")%string
  in
  let st :=
    Example.start (PoolVolume.init (str "default") (Example.prints text)) in
  let lines := Py.splitlines (Py.strip (str text)) in
  ∃ info,
    fst (PoolVolume.volume_info (str "vol1") st) = Return info
    ∧ (∀ line, line ∈ lines ->
         ∃ attr v, attr_of line attr ∧ value_of line attr v
                   ∧ is_Some (info !! attr))
    ∧ (∀ k v,
         info !! k = Some v ↔
         ∃ n line, last_at (fun l => attr_of l k) lines n line
                   ∧ value_of line k v).
Proof.
  intros text st lines.
  exact (proj1 (volume_info_last_occurrence (str "vol1") st (str text) tt
                  eq_refl)).
Defined.

(** C10, as stated, fails when the attribute name followed by [':'] occurs
    again in the value: for the line ["a:b a:c"] the text after the first
    ["a:"] is ["b a:c"], and [volume_info] maps ["a"] to ["c"]. *)
Lemma volume_info_takes_last_piece :
  let st :=
    Example.start
      (PoolVolume.init (str "default") (Example.prints "a:b a:c")) in
  ∃ info,
    fst (PoolVolume.volume_info (str "vol1") st) = Return info
    ∧ info !! str "a" = Some (str "c")
    ∧ str "c" ≠ Py.strip (str "b a:c").
Proof.
  eexists. split; [vm_compute; reflexivity|].
  split; [vm_compute; reflexivity|]. vm_compute. discriminate.
Qed.

(** ** The matcher against the language of a pattern *)

Lemma greedy_sound cls k s m :
  Re.greedy cls k s = Some m ->
  ∃ ws r m', s = ws ++ r ∧ Forall (fun c => cls c = true) ws
             ∧ k r = Some m' ∧ m = ws ++ m'.
Proof.
  revert m. induction s as [|c s IH]; intros m H; simpl in H.
  - by exists [], [], m.
  - destruct (cls c) eqn:Hc; [|by exists [], (c :: s), m].
    destruct (Re.greedy cls k s) as [m0|] eqn:Hg.
    + injection H as <-.
      destruct (IH m0 eq_refl) as (ws & r & m' & -> & Hws & Hk & ->).
      exists (c :: ws), r, m'. split; [done|]. split; [|done].
      by constructor.
    + by exists [], (c :: s), m.
Qed.

Lemma greedy_complete cls k ws r :
  Forall (fun c => cls c = true) ws -> is_Some (k r) ->
  is_Some (Re.greedy cls k (ws ++ r)).
Proof.
  intros Hws Hk. induction Hws as [|c ws Hc Hws IH]; simpl.
  - destruct r as [|c r]; simpl; [done|].
    destruct (cls c); [|done].
    by destruct (Re.greedy cls k r); [eexists|].
  - rewrite Hc. destruct IH as [m ->]. by eexists.
Qed.

Lemma match_here_sound p s m :
  Re.match_here p s = Some m -> lang p m ∧ ∃ r, s = m ++ r.
Proof.
  revert s m. induction p as [|[cls []] p IH]; intros s m H; simpl in *.
  - injection H as <-. split; [done|]. by exists s.
  - destruct s as [|c s]; [done|]. destruct (cls c) eqn:Hc; [|done].
    destruct (Re.match_here p s) as [m'|] eqn:Hm; [|done].
    injection H as <-. destruct (IH _ _ Hm) as [Hl [r ->]].
    split; [by exists c, m'|by exists r].
  - apply greedy_sound in H as (ws & r & m' & -> & Hws & Hk & ->).
    destruct (IH _ _ Hk) as [Hl [r' ->]].
    split; [by exists ws, m'|]. exists r'. by rewrite app_assoc.
  - destruct s as [|c s]; [done|]. destruct (cls c) eqn:Hc; [|done].
    destruct (Re.greedy cls (Re.match_here p) s) as [m0|] eqn:Hg; [|done].
    injection H as <-.
    apply greedy_sound in Hg as (ws & r & m' & -> & Hws & Hk & ->).
    destruct (IH _ _ Hk) as [Hl [r' ->]].
    split; [by exists c, ws, m'|]. exists r'. simpl.
    by rewrite app_assoc.
Qed.

Lemma match_here_complete p m r :
  lang p m -> is_Some (Re.match_here p (m ++ r)).
Proof.
  revert m. induction p as [|[cls []] p IH]; intros m H; simpl in *.
  - done.
  - destruct H as (c & m' & -> & Hc & Hl). simpl. rewrite Hc.
    destruct (IH _ Hl) as [x ->]. by eexists.
  - destruct H as (ws & m' & -> & Hws & Hl). rewrite <- app_assoc.
    apply greedy_complete; [done|]. by apply IH.
  - destruct H as (c & ws & m' & -> & Hc & Hws & Hl). simpl. rewrite Hc.
    rewrite <- app_assoc.
    destruct (greedy_complete cls (Re.match_here p) ws (m' ++ r) Hws
                (IH _ Hl)) as [x ->].
    by eexists.
Qed.

Lemma greedy_to_the_end cls k :
  to_the_end k -> to_the_end (Re.greedy cls k).
Proof.
  intros Hk s. induction s as [|c s IH]; intros m Hs H; simpl in H.
  - by apply Hk.
  - destruct (cls c); [|by apply Hk].
    destruct (Re.greedy cls k s) as [m0|] eqn:Hg; [|by apply Hk].
    injection H as <-. f_equal. apply IH; [|done].
    intros ?. apply Hs. by apply list_elem_of_further.
Qed.

Lemma dot_star_all (s : pystr) :
  (Py.LF ∉ s) -> Re.greedy Re.dot (fun _ => Some []) s = Some s.
Proof.
  induction s as [|c s IH]; intros Hs; [done|]. simpl.
  assert (Hc : Re.dot c = true).
  { unfold Re.dot, Py.ascii_eqb. apply negb_true_iff, Ascii.eqb_neq.
    intros ->. apply Hs, list_elem_of_here. }
  rewrite Hc, IH; [done|].
  intros ?. apply Hs. by apply list_elem_of_further.
Qed.

Lemma dot_star_to_the_end :
  to_the_end (Re.match_here [(Re.dot, Re.Star)]).
Proof.
  intros s m Hs H. simpl in H. rewrite dot_star_all in H by done.
  by injection H.
Qed.

Lemma volume_path_to_the_end : to_the_end (Re.match_here Re.volume_path).
Proof.
  intros s m Hs H. unfold Re.volume_path in H.
  cbn [Re.match_here] in H.
  destruct s as [|c s]; [done|]. destruct (Re.space c); [|done].
  assert (Hs' : Py.LF ∉ s).
  { intros ?. apply Hs. by apply list_elem_of_further. }
  destruct (Re.greedy Re.space _ s) as [m0|] eqn:Hg; [|done].
  injection H as <-. f_equal. revert Hg.
  apply greedy_to_the_end; [|done].
  apply greedy_to_the_end.
  intros t m' Ht H'. destruct t as [|d t]; [done|].
  destruct (Re.lit "/" d); [|done].
  assert (Ht' : Py.LF ∉ t).
  { intros ?. apply Ht. by apply list_elem_of_further. }
  destruct (Re.greedy Re.dot _ t) as [m1|] eqn:Hg'; [|done].
  injection H' as <-. f_equal.
  by apply (dot_star_to_the_end t m1 Ht').
Qed.

Lemma volume_path_nonempty s m :
  Re.match_here Re.volume_path s = Some m -> m ≠ [].
Proof.
  intros H. apply match_here_sound in H as [H _]. simpl in H.
  by destruct H as (c & ws & m' & -> & _).
Qed.

(** ** list_volumes: name and path of a line *)

Lemma findall_cons_None p c s :
  Re.match_here p (c :: s) = None ->
  Re.findall p (c :: s) = Re.findall p s.
Proof. intros H. unfold Re.findall. simpl. by rewrite H. Qed.

Lemma findall_Some p s m :
  Re.match_here p s = Some m -> head (Re.findall p s) = Some m.
Proof. intros H. unfold Re.findall. destruct s; simpl; by rewrite H. Qed.

Lemma findall_leftmost p line before sfx m :
  leftmost_at p line before sfx ->
  Re.match_here p sfx = Some m ->
  head (Re.findall p line) = Some m.
Proof.
  revert line. induction before as [|c b IH]; intros line (-> & _ & Hmin) Hm.
  - by apply findall_Some.
  - simpl. rewrite findall_cons_None.
    + apply IH; [|done]. split; [done|]. split; [by eexists|].
      intros b' s' Heq Hlt.
      apply (Hmin (c :: b') s'); [simpl; by rewrite Heq|].
      simpl. lia.
    + apply (Hmin [] (c :: b ++ sfx)); [done|]. simpl. lia.
Qed.

Lemma findall_head_leftmost p line m :
  head (Re.findall p line) = Some m ->
  ∃ before sfx, leftmost_at p line before sfx
                ∧ Re.match_here p sfx = Some m.
Proof.
  induction line as [|c s IH]; intros H.
  - unfold Re.findall in H. simpl in H.
    destruct (Re.match_here p []) as [m'|] eqn:Hm; [|done].
    injection H as <-. exists [], []. split; [|done].
    split; [done|]. split; [by eexists|]. intros ? ? _ Hl. simpl in Hl. lia.
  - destruct (Re.match_here p (c :: s)) as [m'|] eqn:Hm.
    + rewrite (findall_Some _ _ _ Hm) in H. injection H as <-.
      exists [], (c :: s). split; [|done].
      split; [done|]. split; [by eexists|]. intros ? ? _ Hl. simpl in Hl. lia.
    + rewrite findall_cons_None in H by done.
      destruct (IH H) as (b & sfx & (-> & Hs & Hmin) & Hsfx).
      exists (c :: b), sfx. split; [|done]. split; [done|]. split; [done|].
      intros [|x b'] s' Heq Hlt.
      * simpl in Heq. by rewrite <- Heq.
      * injection Heq as <- Heq. apply (Hmin b' s' Heq). simpl in Hlt. lia.
Qed.

Lemma leftmost_at_unique p line b1 s1 b2 s2 :
  leftmost_at p line b1 s1 -> leftmost_at p line b2 s2 ->
  b1 = b2 ∧ s1 = s2.
Proof.
  intros (H1 & [m1 Hm1] & Hmin1) (H2 & [m2 Hm2] & Hmin2).
  assert (length b1 = length b2) as Hlen.
  { destruct (Nat.lt_trichotomy (length b1) (length b2)) as [Hlt|[?|Hlt]];
      [|done|].
    - pose proof (Hmin2 b1 s1 H1 Hlt). congruence.
    - pose proof (Hmin1 b2 s2 H2 Hlt). congruence. }
  rewrite H1 in H2. by apply app_inj_1 in H2.
Qed.

(** On a line without LF whose leftmost match of the path pattern starts
    after [before], the loop of [list_volumes] maps [before], left-stripped,
    to the rest of the line, stripped. *)
Lemma volume_line_step_path line vols before sfx :
  (Py.LF ∉ line) ->
  leftmost_at Re.volume_path line before sfx ->
  Parse.volume_line_step line vols
  = Return (<[Py.lstrip before := Py.strip sfx]> vols).
Proof.
  intros HLF Hleft. pose proof Hleft as (Hline & [m Hm] & Hmin).
  assert (m = sfx) as ->.
  { apply (volume_path_to_the_end sfx m); [|done].
    intros ?. apply HLF. rewrite Hline. apply elem_of_app. by right. }
  pose proof (volume_path_nonempty _ _ Hm) as Hne.
  pose proof (findall_leftmost _ _ _ _ _ Hleft Hm) as Hhead.
  assert (Hg : getitem (Re.findall Re.volume_path line) 0 = Return sfx).
  { unfold getitem. by rewrite <- head_lookup, Hhead. }
  unfold Parse.volume_line_step. rewrite Hg.
  rewrite split_by_nonempty by done.
  cbn [mbind outcome_mbind outcome_bind].
  rewrite getitem_head by apply split_from_nonempty.
  cbn [mbind outcome_mbind outcome_bind].
  destruct (split_first sfx [] line Hne)
    as [[Hno _]|(a & r & Ha & Hfirst & Hh)].
  - exfalso. apply Hno. exists before, []. by rewrite app_nil_r.
  - rewrite Hh. cbn [default app].
    assert (length a ≤ length before) as Hle.
    { apply (Hfirst before []). by rewrite app_nil_r. }
    assert (length a = length before) as Hlen.
    { destruct (decide (length a < length before)) as [Hlt|]; [|lia].
      pose proof (Hmin a (sfx ++ r) Ha Hlt) as Hnone.
      apply match_here_sound in Hm as [Hl _].
      destruct (match_here_complete _ _ r Hl) as [x Hx]. congruence. }
    rewrite Hline in Ha. apply app_inj_1 in Ha as [<- _]; done.
Qed.

Lemma volume_line_step_no_path line vols :
  Re.findall Re.volume_path line = [] ->
  Parse.volume_line_step line vols = Raise ValueError.
Proof. intros H. unfold Parse.volume_line_step. by rewrite H. Qed.

Lemma volume_line_step_outcome line vols :
  (∃ vols', Parse.volume_line_step line vols = Return vols')
  ∨ Parse.volume_line_step line vols = Raise ValueError.
Proof.
  destruct (Re.findall Re.volume_path line) as [|m ms] eqn:Hf.
  - right. by apply volume_line_step_no_path.
  - left. assert (Hh : head (Re.findall Re.volume_path line) = Some m)
      by by rewrite Hf.
    apply findall_head_leftmost in Hh as (b & sfx & _ & Hm).
    apply volume_path_nonempty in Hm.
    unfold Parse.volume_line_step. rewrite Hf. cbn [getitem lookup list_lookup].
    rewrite split_by_nonempty by done.
    cbn [mbind outcome_mbind outcome_bind].
    rewrite getitem_head by apply split_from_nonempty.
    by eexists.
Qed.

(** A line without a path ends the loop with [ValueError], wherever it
    stands. *)
Lemma volume_lines_no_path (lines : list pystr) vols :
  (∃ line, line ∈ lines ∧ Re.findall Re.volume_path line = []) ->
  for_each lines Parse.volume_line_step vols = Raise ValueError.
Proof.
  revert vols. induction lines as [|l lines IH]; intros vols (line & Hin & Hf).
  - by apply elem_of_nil in Hin.
  - simpl. destruct (volume_line_step_outcome l vols) as [[vols' Hr]|Hr];
      rewrite Hr; [|done].
    apply elem_of_cons in Hin as [->|Hin].
    + by rewrite volume_line_step_no_path in Hr.
    + apply IH. by exists line.
Qed.

Lemma splitlines_no_LF s line : line ∈ Py.splitlines s -> Py.LF ∉ line.
Proof.
  remember (length s) as n eqn:Hn. revert s line Hn.
  induction n as [n IH] using lt_wf_ind. intros s line -> Hin.
  destruct s as [|c s]; [by apply elem_of_nil in Hin|].
  assert (Hrec : ∀ t, length t ≤ length s ->
                      line ∈ [] :: Py.splitlines t -> Py.LF ∉ line).
  { intros t Ht Hl. apply elem_of_cons in Hl as [->|Hl].
    - apply not_elem_of_nil.
    - apply (IH (length t)) with t; [simpl; lia|done|done]. }
  cbn [Py.splitlines] in Hin.
  destruct (Py.is_linebreak c) eqn:Hc.
  - destruct (Py.ascii_eqb c Py.CR).
    + destruct s as [|d s']; [by apply (Hrec [])|].
      destruct (Py.ascii_eqb d Py.LF).
      * apply (Hrec s'); [simpl; lia|done].
      * by apply (Hrec (d :: s')).
    + by apply (Hrec s).
  - assert (HcLF : c ≠ Py.LF) by (by intros ->).
    assert (Htail : ∀ l, l ∈ Py.splitlines s -> Py.LF ∉ l).
    { intros l Hl. apply (IH (length s)) with s; [simpl; lia|done|done]. }
    destruct (Py.splitlines s) as [|l ls] eqn:Hs.
    + apply list_elem_of_singleton in Hin as ->.
      intros H. apply list_elem_of_singleton in H. congruence.
    + apply elem_of_cons in Hin as [->|Hin].
      * intros H. apply elem_of_cons in H as [?|H]; [congruence|].
        by apply (Htail l (list_elem_of_here _ _)).
      * apply Htail. by apply list_elem_of_further.
Qed.

Lemma path_entry_Some line k v :
  (Py.LF ∉ line) ->
  path_entry line = Some (k, v) ↔
  ∃ before sfx, leftmost_at Re.volume_path line before sfx
                ∧ Py.lstrip before = k ∧ v = Py.strip sfx.
Proof.
  intros HLF. unfold path_entry. split.
  - destruct (head (Re.findall Re.volume_path line)) as [m|] eqn:Hh; [|done].
    intros [= <- <-].
    apply findall_head_leftmost in Hh as (b & sfx & Hleft & Hm).
    pose proof Hleft as (Hline & _).
    assert (m = sfx) as ->.
    { apply (volume_path_to_the_end sfx m); [|done].
      intros ?. apply HLF. rewrite Hline. apply elem_of_app. by right. }
    exists b, sfx. split; [done|]. split; [|done].
    rewrite Hline, length_app.
    replace (length b + length sfx - length sfx) with (length b) by lia.
    by rewrite take_app_length.
  - intros (b & sfx & Hleft & <- & ->).
    pose proof Hleft as (Hline & [m Hm] & _).
    assert (m = sfx) as ->.
    { apply (volume_path_to_the_end sfx m); [|done].
      intros ?. apply HLF. rewrite Hline. apply elem_of_app. by right. }
    rewrite (findall_leftmost _ _ _ _ _ Hleft Hm).
    rewrite Hline, length_app.
    replace (length b + length sfx - length sfx) with (length b) by lia.
    by rewrite take_app_length.
Qed.

Lemma volume_line_step_insert line vols :
  (Py.LF ∉ line) -> Re.findall Re.volume_path line ≠ [] ->
  Parse.volume_line_step line vols
  = Return (insert_step path_entry vols line).
Proof.
  intros HLF Hf.
  destruct (head (Re.findall Re.volume_path line)) as [m|] eqn:Hh;
    [|by apply head_None in Hh].
  apply findall_head_leftmost in Hh as (b & sfx & Hleft & Hm).
  rewrite (volume_line_step_path _ _ _ _ HLF Hleft).
  unfold insert_step.
  assert (He : path_entry line = Some (Py.lstrip b, Py.strip sfx)).
  { apply path_entry_Some; [done|]. by exists b, sfx. }
  by rewrite He.
Qed.

(** What C2 says of the lines that have a path holds: when every line from
    the third on has a match of the path pattern, [list_volumes] returns a
    dict in which the text before the leftmost match, left-stripped, is
    mapped to the match, stripped (the last line with a name deciding). *)
Lemma list_volumes_paths {D} (st : state D (PoolVolume.t D)) out d'
    head sep rest :
  PoolVolume.virsh_instance (self st) (vol_list_of st) (daemon st)
  = (Return (virsh.VResult {| virsh.stdout_text := out |}), d') ->
  Py.splitlines (Py.strip out) = head :: sep :: rest -> rest ≠ [] ->
  (∀ line, line ∈ rest -> Re.findall Re.volume_path line ≠ []) ->
  ∃ vols,
    fst (PoolVolume.list_volumes st) = Return vols
    ∧ ∀ k v,
        vols !! k = Some v ↔
        ∃ n line before sfx,
          last_at (fun l => ∃ b s, leftmost_at Re.volume_path l b s
                                   ∧ Py.lstrip b = k) rest n line
          ∧ leftmost_at Re.volume_path line before sfx
          ∧ Py.lstrip before = k ∧ v = Py.strip sfx.
Proof.
  intros Hcall Hlines Hrest Hpaths.
  assert (HLF : ∀ line, line ∈ rest -> Py.LF ∉ line).
  { intros line Hin. apply (splitlines_no_LF (Py.strip out)).
    rewrite Hlines. by do 2 apply list_elem_of_further. }
  exists (fold_left (insert_step path_entry) rest ∅). split.
  - rewrite (list_volumes_printed _ _ _ Hcall). cbn [fst].
    unfold Parse.volumes. rewrite Hlines.
    replace (2 <? length (head :: sep :: rest)) with true
      by (destruct rest; done).
    cbn [getitem lookup list_lookup mbind outcome_mbind outcome_bind drop].
    rewrite drop_0.
    assert (Hgen : ∀ l vols, (∀ line, line ∈ l -> line ∈ rest) ->
              for_each l Parse.volume_line_step vols
              = Return (fold_left (insert_step path_entry) l vols)).
    { induction l as [|x l IH]; intros vols Hl; [done|]. simpl.
      rewrite volume_line_step_insert.
      - apply IH. intros y Hy. apply Hl. by apply list_elem_of_further.
      - apply HLF, Hl, list_elem_of_here.
      - apply Hpaths, Hl, list_elem_of_here. }
    by apply Hgen.
  - intros k v. rewrite fold_insert_lookup, lookup_empty.
    assert (Hw : ∀ y, y ∈ rest ->
              writes path_entry k y ↔
              ∃ b s, leftmost_at Re.volume_path y b s ∧ Py.lstrip b = k).
    { intros y Hy. unfold writes. split.
      - intros [w Hw]. apply path_entry_Some in Hw; [|by apply HLF].
        destruct Hw as (b & s & ? & ? & _). by exists b, s.
      - intros (b & s & Hl & Hk). exists (Py.strip s).
        apply path_entry_Some; [by apply HLF|]. by exists b, s. }
    split.
    + intros [(n & line & Hlast & He)|[_ ?]]; [|done].
      assert (Hin : line ∈ rest).
      { destruct Hlast as [Hn _]. by eapply list_elem_of_lookup_2. }
      apply path_entry_Some in He as (b & s & Hl & Hk & Hv); [|by apply HLF].
      exists n, line, b, s. split; [|done].
      by apply (proj1 (last_at_ext _ _ rest n line Hw)).
    + intros (n & line & b & s & Hlast & Hl & Hk & Hv). left.
      exists n, line. split.
      * by apply (proj2 (last_at_ext _ _ rest n line Hw)).
      * apply path_entry_Some; [|by exists b, s].
        apply HLF. destruct Hlast as [Hn _]. by eapply list_elem_of_lookup_2.
Qed.

(** A line without a path makes [list_volumes] raise, whatever the other
    lines are. *)
Lemma list_volumes_missing_path {D} (st : state D (PoolVolume.t D)) out d'
    head sep rest :
  PoolVolume.virsh_instance (self st) (vol_list_of st) (daemon st)
  = (Return (virsh.VResult {| virsh.stdout_text := out |}), d') ->
  Py.splitlines (Py.strip out) = head :: sep :: rest ->
  (∃ line, line ∈ rest ∧ Re.findall Re.volume_path line = []) ->
  fst (PoolVolume.list_volumes st) = Raise ValueError.
Proof.
  intros Hcall Hlines Hbad.
  rewrite (list_volumes_printed _ _ _ Hcall). cbn [fst].
  unfold Parse.volumes. rewrite Hlines.
  assert (rest ≠ []) as Hrest.
  { destruct Hbad as (l & Hl & _). intros ->. by apply elem_of_nil in Hl. }
  replace (2 <? length (head :: sep :: rest)) with true
    by (destruct rest; done).
  cbn [getitem lookup list_lookup mbind outcome_mbind outcome_bind drop].
  rewrite drop_0. by apply volume_lines_no_path.
Qed.

(** C2. The claim holds on lines with a path ([list_volumes_paths]), but a
    line without one does not give the empty string as value: the text
    below has three lines, its third line has no match of the path pattern,
    and [list_volumes] raises [ValueError], the empty path being used as the
    separator of [split]. *)
Theorem list_volumes_line_without_path :
  let text :=
    ("Name Path" ++ Example.nl ++ "----" ++ Example.nl ++ "vol1")%string in
  let st :=
    Example.start (PoolVolume.init (str "default") (Example.prints text)) in
  Py.splitlines (Py.strip (str text))
  = [str "Name Path"; str "----"; str "vol1"]
  ∧ Re.findall Re.volume_path (str "vol1") = []
  ∧ fst (PoolVolume.list_volumes st) = Raise ValueError.
Proof. repeat split. Qed.

(** * Further properties of the parsers and methods *)

(** ** Stripping *)

Lemma lstrip_split (s : pystr) :
  ∃ ws, s = ws ++ Py.lstrip s ∧ Forall (fun c => Py.isspace c = true) ws.
Proof.
  induction s as [|c s (ws & Hs & Hws)]; [by exists []|].
  simpl. destruct (Py.isspace c) eqn:Hc; [|by exists []].
  exists (c :: ws). split; [simpl; by rewrite <- Hs|by constructor].
Qed.

Lemma lstrip_head (s : pystr) c r :
  Py.lstrip s = c :: r -> Py.isspace c = false.
Proof.
  induction s as [|d s IH]; [done|]. simpl.
  destruct (Py.isspace d) eqn:Hd; [done|]. by intros [= <- _].
Qed.

Lemma rstrip_split (s : pystr) :
  ∃ ws, s = Py.rstrip s ++ ws ∧ Forall (fun c => Py.isspace c = true) ws.
Proof.
  unfold Py.rstrip. destruct (lstrip_split (rev s)) as (ws & Hs & Hws).
  exists (rev ws). split.
  - rewrite <- rev_app_distr, <- Hs. by rewrite rev_involutive.
  - by apply Forall_rev.
Qed.

Lemma rstrip_last (s : pystr) c r :
  Py.rstrip s = r ++ [c] -> Py.isspace c = false.
Proof.
  unfold Py.rstrip. intros H. apply (f_equal (@rev ascii)) in H.
  rewrite rev_involutive, rev_app_distr in H. simpl in H.
  by apply lstrip_head in H.
Qed.

Lemma strip_split (s : pystr) :
  ∃ ws1 ws2, s = ws1 ++ Py.strip s ++ ws2
             ∧ Forall (fun c => Py.isspace c = true) ws1
             ∧ Forall (fun c => Py.isspace c = true) ws2.
Proof.
  unfold Py.strip. destruct (lstrip_split s) as (ws1 & H1 & Hw1).
  destruct (rstrip_split (Py.lstrip s)) as (ws2 & H2 & Hw2).
  exists ws1, ws2. by rewrite <- H2.
Qed.

Lemma strip_stripped (s : pystr) : stripped (Py.strip s).
Proof.
  split.
  - intros c r H. unfold Py.strip in H.
    destruct (rstrip_split (Py.lstrip s)) as (ws & Hs & _).
    rewrite H in Hs. simpl in Hs. by apply lstrip_head in Hs.
  - intros c r H. by apply rstrip_last in H.
Qed.

Lemma strip_elem (s : pystr) c : c ∈ Py.strip s -> c ∈ s.
Proof.
  destruct (strip_split s) as (ws1 & ws2 & Hs & _). intros H.
  rewrite Hs. apply elem_of_app. right. apply elem_of_app. by left.
Qed.

Lemma strip_keeps (s : pystr) c :
  c ∈ s -> Py.isspace c = false -> c ∈ Py.strip s.
Proof.
  destruct (strip_split s) as (ws1 & ws2 & Hs & H1 & H2). intros Hin Hc.
  rewrite Hs in Hin.
  apply elem_of_app in Hin as [Hin|Hin].
  - rewrite Forall_forall in H1. specialize (H1 _ Hin). congruence.
  - apply elem_of_app in Hin as [Hin|Hin]; [done|].
    rewrite Forall_forall in H2. specialize (H2 _ Hin). congruence.
Qed.

(** ** Fields and pieces *)

Lemma split_ws_from_fields cur s f :
  Forall (fun c => Py.isspace c = false) cur ->
  f ∈ Py.split_ws_from cur s -> is_field f.
Proof.
  revert cur. induction s as [|c s IH]; intros cur Hcur Hf; simpl in Hf.
  - destruct cur as [|x cur]; [by apply elem_of_nil in Hf|].
    apply list_elem_of_singleton in Hf as ->. done.
  - destruct (Py.isspace c) eqn:Hc.
    + destruct cur as [|x cur]; [by apply (IH [])|].
      apply elem_of_cons in Hf as [->|Hf]; [done|]. by apply (IH []).
    + apply (IH (cur ++ [c])); [|done].
      apply Forall_app. split; [done|]. by constructor.
Qed.

Lemma split_ws_fields s f : f ∈ Py.split_ws s -> is_field f.
Proof. by apply split_ws_from_fields. Qed.

Lemma split_colon_pieces cur (s : pystr) p :
  (colon ∉ cur) -> p ∈ Py.split_from [colon] 0 cur s -> colon ∉ p.
Proof.
  revert cur. induction s as [|c s IH]; intros cur Hcur Hp.
  - simpl in Hp. by apply list_elem_of_singleton in Hp as ->.
  - cbn [Py.split_from Py.startswith] in Hp. unfold Py.ascii_eqb in Hp.
    destruct (Ascii.eqb colon c) eqn:E; cbn [andb length Nat.sub] in Hp.
    + apply elem_of_cons in Hp as [->|Hp]; [done|].
      apply (IH []); [apply not_elem_of_nil|done].
    + apply Ascii.eqb_neq in E. apply (IH (cur ++ [c])); [|done].
      intros H. apply elem_of_app in H as [?|H]; [done|].
      apply list_elem_of_singleton in H. congruence.
Qed.

(** ** The name column *)

Lemma one_of_N_bar_n c :
  Re.one_of (str "N|n") c = true ->
  c = "N"%char ∨ c = "|"%char ∨ c = "n"%char.
Proof.
  unfold Re.one_of, Py.ascii_eqb. simpl. rewrite !orb_true_iff.
  rewrite !Ascii.eqb_eq. intros [?|[?|[?|?]]]; auto. done.
Qed.

Lemma lit_eq a c : Re.lit a c = true -> c = a.
Proof. unfold Re.lit, Py.ascii_eqb. rewrite Ascii.eqb_eq. by intros ->. Qed.

(** X1. A header column is taken as the name column exactly when it
    begins with [Name], [name] or [|ame]: the match is anchored at the
    start only, and the class [[N|n]] holds the bar as well. *)
Theorem name_column_prefixes (column : pystr) :
  is_name column ↔
  (∃ r, column = str "Name" ++ r) ∨ (∃ r, column = str "name" ++ r)
  ∨ (∃ r, column = str "|ame" ++ r).
Proof.
  unfold is_name, Re.re_match. rewrite bool_decide_eq_true. split.
  - intros [m Hm]. apply match_here_sound in Hm as [Hl [r ->]].
    unfold Re.name_column in Hl. cbn [lang] in Hl.
    destruct Hl as (c0 & m0 & -> & H0 & c1 & m1 & -> & H1 & c2 & m2 & -> & H2
                    & c3 & m3 & -> & H3 & ->).
    apply lit_eq in H1 as ->. apply lit_eq in H2 as ->.
    apply lit_eq in H3 as ->.
    apply one_of_N_bar_n in H0 as [-> | [-> | ->]];
      [left|right; right|right; left];
      by exists r.
  - intros [[r ->]|[[r ->]|[r ->]]]; by eexists.
Qed.

(** ** The entries of pool_info and volume_info *)

Lemma parse_pool_info_shape out k v :
  Parse.pool_info out !! k = Some v ->
  stripped k ∧ stripped v ∧ (colon ∉ k) ∧ (colon ∉ v).
Proof.
  intros H. apply parse_pool_info_lookup in H
    as (n & line & a & b & _ & Hab & <- & ->).
  unfold two_parts in Hab.
  assert (Ha : colon ∉ a).
  { apply (split_colon_pieces [] line); [apply not_elem_of_nil|].
    rewrite Hab. apply list_elem_of_here. }
  assert (Hb : colon ∉ b).
  { apply (split_colon_pieces [] line); [apply not_elem_of_nil|].
    rewrite Hab. apply list_elem_of_further, list_elem_of_here. }
  repeat split; try apply strip_stripped.
  - intros ?. by apply Ha, strip_elem.
  - intros ?. by apply Hb, strip_elem.
Qed.

(** X2. Whenever [pool_info] returns a dict, its keys and values have no
    white space at either end and contain no colon. *)
Theorem pool_info_entries_clean {D} (name : pystr)
    (st : state D (StoragePool.t D)) info :
  fst (StoragePool.pool_info name st) = Return info ->
  ∀ k v, info !! k = Some v ->
         stripped k ∧ stripped v ∧ (colon ∉ k) ∧ (colon ∉ v).
Proof.
  intros Hr k v Hk. destruct (pool_info_fresh name st) as (Hv & _).
  rewrite Hv in Hr. unfold pool_info_of_reply in Hr.
  destruct (StoragePool.virsh_instance (self st) (virsh.pool_info name)
              (daemon st)) as [[[res|b]|e] d']; simpl in Hr.
  - injection Hr as <-. by apply (parse_pool_info_shape _ _ _ Hk).
  - done.
  - destruct e; try done. injection Hr as <-. by rewrite lookup_empty in Hk.
Qed.

Lemma pool_info_entries_clean_witness :
  stripped (str "UUID") ∧ stripped (str "12")
  ∧ (colon ∉ str "UUID") ∧ (colon ∉ str "12").
Proof.
  pose (text := ("Name: default" ++ Example.nl ++ "UUID: 12")%string).
  refine (pool_info_entries_clean (str "default")
            (Example.start (StoragePool.init (Example.prints text)))
            _ eq_refl (str "UUID") (str "12") _).
  vm_compute. reflexivity.
Defined.

(** X3. Whenever [volume_info] returns a dict, no key contains a colon
    and every value has no white space at either end. *)
Theorem volume_info_entries_clean {D} (name : pystr)
    (st : state D (PoolVolume.t D)) info :
  fst (PoolVolume.volume_info name st) = Return info ->
  ∀ k v, info !! k = Some v -> (colon ∉ k) ∧ stripped v.
Proof.
  intros Hr k v Hk. destruct (volume_info_fresh name st) as (Hv & _).
  rewrite Hv in Hr. unfold volume_info_of_reply in Hr.
  destruct (PoolVolume.virsh_instance (self st) _ (daemon st))
    as [[[res|b]|e] d']; simpl in Hr.
  - rewrite parse_volume_info in Hr. injection Hr as <-.
    apply fold_insert_lookup in Hk as [(n & line & _ & Hw)|[_ Hk]];
      [|by rewrite lookup_empty in Hk].
    unfold vol_write in Hw.
    assert (E : vol_entry line = (k, v)) by congruence.
    pose proof (vol_entry_attr line) as Ha. rewrite E in Ha. simpl in Ha.
    split; [by eapply attr_of_no_colon|].
    unfold vol_entry in E. injection E as _ <-. apply strip_stripped.
  - done.
  - destruct e; try done. injection Hr as <-. by rewrite lookup_empty in Hk.
Qed.

Lemma volume_info_entries_clean_witness :
  let text := ("Name: vol1" ++ Example.nl ++ "Path: /dev/ip:3260")%string in
  let st :=
    Example.start (PoolVolume.init (str "default") (Example.prints text)) in
  ∃ info,
    Parse.volume_info (str text) = Return info
    ∧ ∀ k v, info !! k = Some v -> (colon ∉ k) ∧ stripped v.
Proof.
  intros text st.
  exists (fold_left (insert_step vol_write)
            (Py.splitlines (Py.strip (str text))) ∅).
  split; [apply parse_volume_info|].
  apply (volume_info_entries_clean (str "vol1") st).
  unfold st. cbn. apply parse_volume_info.
Defined.

(** ** Loop invariants *)

Lemma for_each_inv {A S} (I : S -> Prop) (body : A -> S -> outcome S)
    (l : list A) (s s' : S) :
  (∀ x s s', x ∈ l -> I s -> body x s = Return s' -> I s') ->
  I s -> for_each l body s = Return s' -> I s'.
Proof.
  revert s. induction l as [|x l IH]; intros s Hbody Hs Hr; simpl in Hr.
  - by injection Hr as <-.
  - destruct (body x s) as [s1|e] eqn:Hx; [|done].
    apply (IH s1); [|by eapply Hbody; [apply list_elem_of_here|..]|done].
    intros y t t' Hy. apply Hbody. by apply list_elem_of_further.
Qed.

(** ** The pools of list_pools are made of fields *)

Lemma getitem_elem {A} (l : list A) i x : getitem l i = Return x -> x ∈ l.
Proof.
  unfold getitem. destruct (l !! i) eqn:E; [|done]. intros [= <-].
  by eapply list_elem_of_lookup_2.
Qed.

Lemma columns_loop_clean head line pn r :
  for_each (enumerate (Py.split_ws head))
    (Parse.column_step (Py.split_ws line)) (pn, ∅) = Return r ->
  (∀ k, pn = Some k -> is_field k) ->
  (∀ k, r.1 = Some k -> is_field k) ∧ details_clean r.2.
Proof.
  intros Hr Hpn.
  apply (for_each_inv
           (fun st => (∀ k, st.1 = Some k -> is_field k) ∧ details_clean st.2)
           _ _ _ _) in Hr; [done| |].
  - intros [i c] [pn0 d0] st' Hic [Hn Hd] Hstep.
    apply enumerate_elem in Hic.
    assert (Hc : is_field c).
    { apply (split_ws_fields head). by eapply list_elem_of_lookup_2. }
    unfold Parse.column_step in Hstep. cbn [fst snd] in *.
    destruct (getitem (Py.split_ws line) i) as [x|e] eqn:Hx;
      [|by destruct (Re.re_match Re.name_column c)].
    assert (Hf : is_field x) by by eapply split_ws_fields, getitem_elem.
    destruct (Re.re_match Re.name_column c) eqn:Hm; injection Hstep as <-;
      cbn [fst snd].
    + split; [by intros k [= <-]|done].
    + split; [done|]. intros c' v. rewrite lookup_insert.
      case_decide as E.
      * subst c'. intros [= <-]. split; [|done].
        unfold is_name. by rewrite Hm.
      * apply Hd.
  - split; [done|]. intros c v. cbn [snd]. by rewrite lookup_empty.
Qed.

Lemma parse_pools_clean out pools :
  Parse.pools out = Return pools -> pools_clean pools.
Proof.
  unfold Parse.pools.
  destruct (2 <? length (Py.splitlines (Py.strip out)));
    [|intros [= <-] k d; by rewrite lookup_empty].
  destruct (getitem (Py.splitlines (Py.strip out)) 0) as [head|e]; [|done].
  cbn [mbind outcome_mbind outcome_bind].
  destruct (for_each _ _ _) as [r|e] eqn:Hr; [|done].
  cbn [outcome_bind]. intros [= <-].
  apply (for_each_inv
           (fun st => (∀ k, st.1 = Some k -> is_field k) ∧ pools_clean st.2)
           _ _ _ _) in Hr; [by destruct Hr| |].
  - clear Hr. intros line [pn ps] st' _ [Hn Hp] Hstep.
    unfold Parse.pool_line_step in Hstep. cbn [fst snd] in Hstep.
    destruct (for_each _ _ _) as [r'|e] eqn:Hc; [|done].
    apply columns_loop_clean in Hc as [Hk Hd]; [|done].
    cbn [mbind outcome_mbind outcome_bind] in Hstep.
    destruct (r'.1) as [pool_name|] eqn:E; [|done].
    injection Hstep as <-. cbn [fst snd].
    split; [intros k [= <-]; by apply Hk|].
    intros k d. rewrite lookup_insert. case_decide as E'.
    + subst k. intros [= <-]. split; [by apply Hk|done].
    + apply Hp.
  - split; [done|]. intros k d. cbn [snd]. by rewrite lookup_empty.
Qed.

(** X4. Whenever [list_pools] returns a dict, every pool name in it is a
    non-empty text without white space, and so are the keys and values of
    every pool's details; no key of the details is a name column. *)
Theorem list_pools_entries_are_fields {D} (st : state D (StoragePool.t D))
    pools :
  fst (StoragePool.list_pools st) = Return pools ->
  ∀ k d, pools !! k = Some d ->
         is_field k
         ∧ ∀ c v, d !! c = Some v -> ¬ is_name c ∧ is_field c ∧ is_field v.
Proof.
  intros Hr. destruct (list_pools_fresh st) as (Hv & _).
  rewrite Hv in Hr. unfold pools_of_reply in Hr.
  destruct (StoragePool.virsh_instance (self st) _ (daemon st))
    as [[[res|b]|e] d']; simpl in Hr; try done.
  exact (parse_pools_clean _ _ Hr).
Qed.

Lemma list_pools_entries_are_fields_witness :
  is_field (str "default")
  ∧ ¬ is_name (str "State") ∧ is_field (str "State")
  ∧ is_field (str "active").
Proof.
  pose (text := ("Name State" ++ Example.nl ++ "----" ++ Example.nl
                   ++ "default active")%string).
  pose (details := <[str "State" := str "active"]> ∅ : gmap pystr pystr).
  destruct (list_pools_entries_are_fields
              (Example.start (StoragePool.init (Example.prints text)))
              (<[str "default" := details]> ∅) eq_refl
              (str "default") details (lookup_insert_eq _ _ _)) as [Hk Hd].
  split; [exact Hk|].
  exact (Hd (str "State") (str "active") (lookup_insert_eq _ _ _)).
Defined.

(** ** The volumes of list_volumes *)

Lemma volume_path_has_slash m :
  lang Re.volume_path m -> "/"%char ∈ m.
Proof.
  unfold Re.volume_path. cbn [lang].
  intros (c & ws & m1 & -> & _ & _ & ns & m2 & -> & _ & c' & m3 & -> & Hc
          & _).
  apply lit_eq in Hc as ->.
  apply list_elem_of_further, elem_of_app. right.
  apply elem_of_app. right. apply list_elem_of_here.
Qed.

Lemma volume_path_more_space c m :
  Py.isspace c = true -> lang Re.volume_path m ->
  lang Re.volume_path (c :: m).
Proof.
  unfold Re.volume_path. cbn [lang].
  intros Hc (c1 & ws & m1 & -> & Hc1 & Hws & Hrest).
  exists c, (c1 :: ws), m1. split; [done|]. split; [done|].
  split; [by constructor|done].
Qed.

(** The text before the leftmost path does not end in white space. *)
Lemma leftmost_before_end line before sfx c r :
  leftmost_at Re.volume_path line before sfx ->
  before = r ++ [c] -> Py.isspace c = false.
Proof.
  intros (Hline & [m Hm] & Hmin) ->.
  destruct (Py.isspace c) eqn:Hc; [|done]. exfalso.
  apply match_here_sound in Hm as [Hl [t Ht]].
  pose proof (volume_path_more_space c m Hc Hl) as Hl'.
  destruct (match_here_complete _ _ t Hl') as [x Hx].
  assert (Hnone : Re.match_here Re.volume_path (c :: sfx) = None).
  { apply (Hmin r (c :: sfx)); [by rewrite Hline, <- app_assoc|].
    rewrite length_app. simpl. lia. }
  change ((c :: m) ++ t) with (c :: (m ++ t)) in Hx.
  rewrite <- Ht in Hx. congruence.
Qed.

Lemma volume_line_step_Return line vols vols' :
  (Py.LF ∉ line) ->
  Parse.volume_line_step line vols = Return vols' ->
  ∃ before sfx,
    leftmost_at Re.volume_path line before sfx
    ∧ vols' = <[Py.lstrip before := Py.strip sfx]> vols.
Proof.
  intros HLF Hr.
  destruct (head (Re.findall Re.volume_path line)) as [m|] eqn:Hh.
  - apply findall_head_leftmost in Hh as (b & sfx & Hleft & _).
    rewrite (volume_line_step_path _ _ _ _ HLF Hleft) in Hr.
    injection Hr as <-. by exists b, sfx.
  - apply head_None in Hh.
    by rewrite (volume_line_step_no_path _ _ Hh) in Hr.
Qed.

Lemma parse_volumes_clean out vols :
  Parse.volumes out = Return vols -> volumes_clean vols.
Proof.
  unfold Parse.volumes.
  destruct (2 <? length (Py.splitlines (Py.strip out)));
    [|intros [= <-] k d; by rewrite lookup_empty].
  destruct (getitem (Py.splitlines (Py.strip out)) 0) as [head|e]; [|done].
  cbn [mbind outcome_mbind outcome_bind]. intros Hr.
  apply (for_each_inv volumes_clean _ _ _ _) in Hr; [done| |].
  - clear Hr. intros line vs vs' Hin Hvs Hstep.
    assert (HLF : Py.LF ∉ line).
    { apply (splitlines_no_LF (Py.strip out)).
      apply list_elem_of_lookup in Hin as [i Hi].
      rewrite lookup_drop in Hi. by eapply list_elem_of_lookup_2. }
    apply volume_line_step_Return in Hstep
      as (b & sfx & Hleft & ->); [|done].
    intros k v. rewrite lookup_insert. case_decide as E; [|apply Hvs].
    intros [= <-]. subst k. split; [|split].
    + split.
      * intros c r. apply lstrip_head.
      * intros c r Hl. destruct (lstrip_split b) as (ws & Hb & _).
        rewrite Hl, app_assoc in Hb.
        by apply (leftmost_before_end _ _ _ _ _ Hleft Hb).
    + apply strip_stripped.
    + destruct Hleft as (_ & [m Hm] & _).
      pose proof Hm as Hm'. apply match_here_sound in Hm' as [Hl [t Ht]].
      apply strip_keeps; [|done]. rewrite Ht. apply elem_of_app. left.
      by apply volume_path_has_slash.
  - intros k v. by rewrite lookup_empty.
Qed.

(** X5. Whenever [list_volumes] returns a dict, every volume name in it
    has no white space at either end (the code strips it on the left only;
    the leftmost match leaves none on the right), and every path has none
    either and contains a slash. *)
Theorem list_volumes_entries_shape {D} (st : state D (PoolVolume.t D)) vols :
  fst (PoolVolume.list_volumes st) = Return vols ->
  ∀ k v, vols !! k = Some v -> stripped k ∧ stripped v ∧ "/"%char ∈ v.
Proof.
  intros Hr. destruct (list_volumes_fresh st) as (Hv & _).
  rewrite Hv in Hr. unfold volumes_of_reply in Hr.
  destruct (PoolVolume.virsh_instance (self st) _ (daemon st))
    as [[[res|b]|e] d']; simpl in Hr; try done.
  - exact (parse_volumes_clean _ _ Hr).
  - destruct e; try done. injection Hr as <-. intros k v.
    by rewrite lookup_empty.
Qed.

Lemma list_volumes_entries_shape_witness :
  stripped (str "vol2") ∧ stripped (str "/pool/vol2")
  ∧ "/"%char ∈ str "/pool/vol2".
Proof.
  exact (list_volumes_entries_shape
           (Example.with_volumes [str "vol1"; str "vol2"])
           (<[str "vol2" := str "/pool/vol2"]>
              (<[str "vol1" := str "/pool/vol1"]> ∅))
           eq_refl (str "vol2") (str "/pool/vol2") (lookup_insert_eq _ _ _)).
Defined.

(** ** pool_state, pool_autostart and is_pool_active *)

Lemma pool_state_of_pools {D} name (st : state D (StoragePool.t D))
    pools st' :
  StoragePool.list_pools st = (Return pools, st') ->
  StoragePool.pool_state name st
  = (Return (match pools !! name with
             | Some d => d !! str "State"
             | None => None
             end), st').
Proof.
  intros Hl. unfold StoragePool.pool_state, try_except.
  rewrite (bind_Return _ _ _ _ _ Hl). unfold bind, lift, dict_getitem, ret.
  destruct (pools !! name) as [d|]; [|done]. by destruct (d !! str "State").
Qed.

Lemma pool_autostart_of_pools {D} name (st : state D (StoragePool.t D))
    pools st' :
  StoragePool.list_pools st = (Return pools, st') ->
  StoragePool.pool_autostart name st
  = (Return (match pools !! name with
             | Some d => d !! str "Autostart"
             | None => None
             end), st').
Proof.
  intros Hl. unfold StoragePool.pool_autostart, try_except.
  rewrite (bind_Return _ _ _ _ _ Hl). unfold bind, lift, dict_getitem, ret.
  destruct (pools !! name) as [d|]; [|done].
  by destruct (d !! str "Autostart").
Qed.

(** X6. [pool_state] and [pool_autostart] answer from the dict of
    [list_pools]: the pool's [State] (or [Autostart]) value, and None when
    the pool or that column is missing. Of the exceptions of [list_pools]
    only [CmdError] and [KeyError] become None; any other one, such as the
    [IndexError] of a short line, comes through. *)
Theorem pool_state_missing_is_None {D} (name : pystr)
    (st : state D (StoragePool.t D)) :
  (∀ pools st',
     StoragePool.list_pools st = (Return pools, st') ->
     StoragePool.pool_state name st
     = (Return (match pools !! name with
                | Some d => d !! str "State"
                | None => None
                end), st')
     ∧ StoragePool.pool_autostart name st
       = (Return (match pools !! name with
                  | Some d => d !! str "Autostart"
                  | None => None
                  end), st'))
  ∧ (∀ e st',
       StoragePool.list_pools st = (Raise e, st') ->
       let hidden :=
         match e with CmdError _ | KeyError _ => true | _ => false end in
       StoragePool.pool_state name st
       = (if hidden then Return None else Raise e, st')
       ∧ StoragePool.pool_autostart name st
         = (if hidden then Return None else Raise e, st')).
Proof.
  split.
  - intros pools st' Hl. split;
      [by apply pool_state_of_pools|by apply pool_autostart_of_pools].
  - intros e st' Hl hidden.
    unfold StoragePool.pool_state, StoragePool.pool_autostart, try_except.
    rewrite !(bind_Raise _ _ _ _ _ Hl). subst hidden. by destruct e.
Qed.

Lemma pool_state_missing_is_None_witness :
  let text :=
    ("Name State" ++ Example.nl ++ "----" ++ Example.nl ++ "default")%string
  in
  let st := Example.start (StoragePool.init (Example.prints text)) in
  let st' := after_call st (virsh.pool_list (str "--all")) tt in
  StoragePool.pool_state (str "default") st = (Raise IndexError, st')
  ∧ StoragePool.pool_autostart (str "default") st = (Raise IndexError, st').
Proof.
  intros text st st'.
  exact (proj2 (pool_state_missing_is_None (str "default") st)
           IndexError st' eq_refl).
Defined.

Lemma is_pool_active_calls {D} name (st : state D (StoragePool.t D)) :
  calls (snd (StoragePool.is_pool_active name st))
  = calls st ++ [virsh.pool_list (str "--all")].
Proof.
  destruct (list_pools_fresh st) as (_ & Hc & _).
  unfold StoragePool.is_pool_active, StoragePool.pool_state, try_except.
  unfold bind at 1 2.
  destruct (StoragePool.list_pools st) as [[pools|e] st'].
  - unfold bind, lift, dict_getitem, ret. cbn [snd] in Hc.
    destruct (pools !! name) as [d|]; [|done].
    destruct (d !! str "State") as [v|]; [|done].
    by destruct (bool_decide (Some v = Some (str "active"))).
  - cbn [snd] in Hc. by destruct e.
Qed.

(** X7. [is_pool_active] returns True exactly when [list_pools] returns a
    dict in which the pool has the [State] value [active]; a pool it reports
    active is one that [pool_exists] finds in the same state. *)
Theorem is_pool_active_iff {D} (name : pystr)
    (st : state D (StoragePool.t D)) :
  (fst (StoragePool.is_pool_active name st) = Return true ↔
   ∃ pools st' d,
     StoragePool.list_pools st = (Return pools, st')
     ∧ pools !! name = Some d ∧ d !! str "State" = Some (str "active"))
  ∧ (fst (StoragePool.is_pool_active name st) = Return true ->
     fst (StoragePool.pool_exists name st) = Return true).
Proof.
  assert (Hiff :
    fst (StoragePool.is_pool_active name st) = Return true ↔
    ∃ pools st' d,
      StoragePool.list_pools st = (Return pools, st')
      ∧ pools !! name = Some d ∧ d !! str "State" = Some (str "active")).
  { unfold StoragePool.is_pool_active.
    destruct (StoragePool.list_pools st) as [[pools|e] st'] eqn:Hl.
    - rewrite (bind_Return _ _ _ _ _ (pool_state_of_pools name _ _ _ Hl)).
      destruct (pools !! name) as [d|] eqn:Hn.
      + case_bool_decide as Hs; cbn.
        * split; [|done]. intros _. by exists pools, st', d.
        * split; [done|]. intros (p & s' & d' & [= <- <-] & Hd & Hv).
          exfalso. apply Hs. rewrite Hn in Hd. injection Hd as <-. exact Hv.
      + rewrite bool_decide_eq_false_2 by done. cbn. split; [done|].
        intros (p & s' & d' & [= <- <-] & Hd & _). congruence.
    - assert (Hs : ∃ o, StoragePool.pool_state name st = (o, st')
                        ∧ o ≠ Return (Some (str "active"))).
      { unfold StoragePool.pool_state, try_except.
        rewrite (bind_Raise _ _ _ _ _ Hl).
        destruct e; eexists; (split; [reflexivity|done]). }
      destruct Hs as (o & Hs & Ho). unfold bind. rewrite Hs. split.
      + destruct o as [[v|]|e']; cbn; try done.
        case_bool_decide as E; cbn; [|done]. exfalso. apply Ho.
        f_equal. exact E.
      + by intros (p & s' & d' & [=] & _). }
  split; [done|]. intros H. apply Hiff in H as (pools & st' & d & Hl & Hn & _).
  rewrite (pool_exists_run _ _ _ _ Hl). cbn. f_equal.
  apply contains_true. by rewrite Hn.
Qed.

(** ** get_pool_uuid and is_pool_persistent *)

Lemma pool_info_printed {D} name (st : state D (StoragePool.t D)) out d' :
  StoragePool.virsh_instance (self st) (virsh.pool_info name) (daemon st)
  = (Return (virsh.VResult {| virsh.stdout_text := out |}), d') ->
  StoragePool.pool_info name st
  = (Return (Parse.pool_info out), after_call st (virsh.pool_info name) d').
Proof.
  intros H. unfold StoragePool.pool_info, try_CmdError, call.
  by rewrite H.
Qed.

(** X8. When pool-info prints a text, [get_pool_uuid] returns the stripped
    value of the last line that splits on [':'] into two parts with the key
    [UUID], and raises [KeyError] when there is no such line;
    [is_pool_persistent] reads the key [Persistent] in the same way and
    returns True exactly for the value [yes]. *)
Theorem get_pool_uuid_reads_last_line {D} (name : pystr)
    (st : state D (StoragePool.t D)) out d' :
  StoragePool.virsh_instance (self st) (virsh.pool_info name) (daemon st)
  = (Return (virsh.VResult {| virsh.stdout_text := out |}), d') ->
  let keyed k l := ∃ a b, two_parts l a b ∧ Py.strip a = str k in
  let value k v :=
    ∃ n line a b, last_at (keyed k) (Py.splitlines out) n line
                  ∧ two_parts line a b ∧ Py.strip a = str k
                  ∧ v = Py.strip b in
  (∀ v, fst (StoragePool.get_pool_uuid name st) = Return v ↔ value "UUID" v)
  ∧ ((∀ line, line ∈ Py.splitlines out -> ¬ keyed "UUID" line) ->
     fst (StoragePool.get_pool_uuid name st) = Raise (KeyError (str "UUID")))
  ∧ (fst (StoragePool.is_pool_persistent name st) = Return true ↔
     value "Persistent" (str "yes"))
  ∧ ((∀ line, line ∈ Py.splitlines out -> ¬ keyed "Persistent" line) ->
     fst (StoragePool.is_pool_persistent name st)
     = Raise (KeyError (str "Persistent"))).
Proof.
  intros Hcall keyed value.
  pose proof (pool_info_printed _ _ _ _ Hcall) as Hi.
  assert (Hnone : ∀ k, (∀ line, line ∈ Py.splitlines out -> ¬ keyed k line) ->
                       Parse.pool_info out !! str k = None).
  { intros k Hno. apply eq_None_not_Some. intros [v Hv].
    apply parse_pool_info_lookup in Hv as (n & line & a & b & Hl & Hab & Ha & _).
    apply (Hno line); [|by exists a, b].
    destruct Hl as [Hn _]. by eapply list_elem_of_lookup_2. }
  unfold StoragePool.get_pool_uuid, StoragePool.is_pool_persistent.
  rewrite !(bind_Return _ _ _ _ _ Hi). unfold lift, dict_getitem, bind.
  repeat split.
  - destruct (Parse.pool_info out !! str "UUID") as [u|] eqn:Hu; cbn [fst].
    + intros [= <-]. by apply parse_pool_info_lookup.
    + done.
  - intros Hv. apply parse_pool_info_lookup in Hv. by rewrite Hv.
  - intros Hno. by rewrite (Hnone "UUID" Hno).
  - destruct (Parse.pool_info out !! str "Persistent") as [u|] eqn:Hu;
      cbn [fst]; [|done].
    unfold pystr_eqb. case_bool_decide as E; [|done]. subst u. intros _.
    by apply parse_pool_info_lookup.
  - intros Hv. apply parse_pool_info_lookup in Hv. rewrite Hv.
    unfold pystr_eqb. by rewrite bool_decide_eq_true_2.
  - intros Hno. by rewrite (Hnone "Persistent" Hno).
Qed.

Lemma get_pool_uuid_reads_last_line_witness :
  let text := ("Name: default" ++ Example.nl ++ "UUID: 12")%string in
  let st := Example.start (StoragePool.init (Example.prints text)) in
  fst (StoragePool.get_pool_uuid (str "default") st) = Return (str "12") ↔
  ∃ n line a b,
    last_at (fun l => ∃ a b, two_parts l a b ∧ Py.strip a = str "UUID")
      (Py.splitlines (str text)) n line
    ∧ two_parts line a b ∧ Py.strip a = str "UUID" ∧ str "12" = Py.strip b.
Proof.
  intros text st.
  exact (proj1 (get_pool_uuid_reads_last_line (str "default") st (str text)
                  tt eq_refl) (str "12")).
Defined.

(** ** start_pool, destroy_pool and delete_pool *)

(** X9. [start_pool] on a pool that [is_pool_active] reports active
    returns True without invoking pool-start, and [destroy_pool] on a pool
    it reports inactive returns True without invoking pool-destroy: the
    pool-list query is their only virsh call. *)
Theorem start_and_destroy_do_nothing_twice {D} (name : pystr)
    (st : state D (StoragePool.t D)) :
  (fst (StoragePool.is_pool_active name st) = Return true ->
   fst (StoragePool.start_pool name st) = Return true
   ∧ calls (snd (StoragePool.start_pool name st))
     = calls st ++ [virsh.pool_list (str "--all")])
  ∧ (fst (StoragePool.is_pool_active name st) = Return false ->
     fst (StoragePool.destroy_pool name st) = Return (virsh.VBool true)
     ∧ calls (snd (StoragePool.destroy_pool name st))
       = calls st ++ [virsh.pool_list (str "--all")]).
Proof.
  pose proof (is_pool_active_calls name st) as Hc.
  unfold StoragePool.start_pool, StoragePool.destroy_pool.
  destruct (StoragePool.is_pool_active name st) as [o st1] eqn:Ha.
  cbn [fst snd] in *. split; intros ->;
    rewrite (bind_Return _ _ _ _ _ Ha); (split; [reflexivity|exact Hc]).
Qed.

(** X10. [delete_pool] destroys before it undefines, and only a pool
    reported active: for an inactive pool whose pool-undefine succeeds it
    returns True after the calls pool-list and pool-undefine; for an active
    pool whose pool-destroy reports success and whose pool-undefine succeeds
    it returns True after pool-list, pool-destroy and pool-undefine. *)
Theorem delete_pool_order {D} (name : pystr)
    (st st1 : state D (StoragePool.t D)) :
  (StoragePool.is_pool_active name st = (Return false, st1) ->
   ∀ v d2,
     StoragePool.virsh_instance (self st1) (virsh.pool_undefine name)
       (daemon st1) = (Return v, d2) ->
     fst (StoragePool.delete_pool name st) = Return true
     ∧ calls (snd (StoragePool.delete_pool name st))
       = calls st ++ [virsh.pool_list (str "--all");
                      virsh.pool_undefine name])
  ∧ (StoragePool.is_pool_active name st = (Return true, st1) ->
     ∀ v d2 v' d3,
       StoragePool.virsh_instance (self st1) (virsh.pool_destroy name)
         (daemon st1) = (Return v, d2) ->
       virsh.truthy v = true ->
       StoragePool.virsh_instance (self st1) (virsh.pool_undefine name) d2
       = (Return v', d3) ->
       fst (StoragePool.delete_pool name st) = Return true
       ∧ calls (snd (StoragePool.delete_pool name st))
         = calls st ++ [virsh.pool_list (str "--all");
                        virsh.pool_destroy name; virsh.pool_undefine name]).
Proof.
  pose proof (is_pool_active_calls name st) as Hc.
  assert (Hund : ∀ (s : state D (StoragePool.t D)) v d2,
            StoragePool.virsh_instance (self s) (virsh.pool_undefine name)
              (daemon s) = (Return v, d2) ->
            StoragePool.delete_pool_undefine name s
            = (Return true,
               after_log (after_call s (virsh.pool_undefine name) d2) INFO
                 "Deleted pool '%s'" [LStr name])).
  { intros s v d2 Hu. unfold StoragePool.delete_pool_undefine.
    unfold bind at 1.
    by rewrite (try_CmdError_Return _ _ _ _ _ _ (call_run _ _ _ _ _ Hu)). }
  unfold StoragePool.delete_pool. split; intros Ha.
  - intros v d2 Hu. rewrite Ha in Hc. cbn [snd] in Hc.
    rewrite (bind_Return _ _ _ _ _ Ha). rewrite (Hund _ _ _ Hu).
    split; [done|]. cbn [snd calls after_log after_call].
    by rewrite Hc, <- app_assoc.
  - intros v d2 v' d3 Hd Hv Hu. rewrite Ha in Hc. cbn [snd] in Hc.
    rewrite (bind_Return _ _ _ _ _ Ha).
    rewrite (bind_Return _ _ _ _ _ (call_run _ _ _ _ _ Hd)). rewrite Hv.
    cbn [negb].
    rewrite (Hund (after_call st1 (virsh.pool_destroy name) d2) v' d3 Hu).
    split; [done|]. cbn [snd calls after_log after_call].
    by rewrite Hc, <- !app_assoc.
Qed.

Lemma start_and_destroy_do_nothing_twice_witness :
  let active :=
    ("Name State" ++ Example.nl ++ "----" ++ Example.nl
       ++ "default active")%string in
  let st := Example.start (StoragePool.init (Example.prints active)) in
  fst (StoragePool.start_pool (str "default") st) = Return true
  ∧ calls (snd (StoragePool.start_pool (str "default") st))
    = calls st ++ [virsh.pool_list (str "--all")].
Proof.
  intros active st.
  apply (proj1 (start_and_destroy_do_nothing_twice (str "default") st)).
  vm_compute. reflexivity.
Defined.

Lemma delete_pool_order_witness :
  let active :=
    ("Name State" ++ Example.nl ++ "----" ++ Example.nl
       ++ "default active")%string in
  let st := Example.start (StoragePool.init (Example.prints active)) in
  fst (StoragePool.delete_pool (str "default") st) = Return true
  ∧ calls (snd (StoragePool.delete_pool (str "default") st))
    = calls st ++ [virsh.pool_list (str "--all");
                   virsh.pool_destroy (str "default");
                   virsh.pool_undefine (str "default")].
Proof.
  intros active st.
  refine (proj2 (delete_pool_order (str "default") st
                   (after_call st (virsh.pool_list (str "--all")) tt)) _
            _ tt _ tt eq_refl eq_refl eq_refl).
  vm_compute. reflexivity.
Defined.

(** ** clone_volume *)

Lemma vol_list_of_after {D} (st st1 : state D (PoolVolume.t D)) o :
  PoolVolume.list_volumes st = (o, st1) ->
  vol_list_of st1 = vol_list_of st
  ∧ calls st1 = calls st ++ [vol_list_of st].
Proof.
  intros H. destruct (list_volumes_frame st) as [Hc Hs].
  rewrite H in Hc, Hs. cbn [snd] in *. unfold vol_list_of.
  by rewrite Hs.
Qed.

(** X11. [clone_volume] invokes vol-clone only when the first query shows
    the old volume and a second query does not show the new name: without
    the old volume it returns False after one vol-list, with the new name
    taken it returns False after two; and a result True means that vol-clone
    succeeded and that a third query shows the new volume. *)
Theorem clone_volume_guards {D} (old_name new_name : pystr)
    (st : state D (PoolVolume.t D)) vols st1 :
  PoolVolume.list_volumes st = (Return vols, st1) ->
  (vols !! old_name = None ->
   fst (PoolVolume.clone_volume old_name new_name st) = Return false
   ∧ calls (snd (PoolVolume.clone_volume old_name new_name st))
     = calls st ++ [vol_list_of st])
  ∧ (is_Some (vols !! old_name) ->
     ∀ vols1 st2,
       PoolVolume.list_volumes st1 = (Return vols1, st2) ->
       (is_Some (vols1 !! new_name) ->
        fst (PoolVolume.clone_volume old_name new_name st) = Return false
        ∧ calls (snd (PoolVolume.clone_volume old_name new_name st))
          = calls st ++ [vol_list_of st; vol_list_of st])
       ∧ (vols1 !! new_name = None ->
          fst (PoolVolume.clone_volume old_name new_name st) = Return true ->
          let c :=
            virsh.vol_clone old_name new_name
              (PoolVolume.pool_name (self st2)) in
          ∃ v d3 vols2 st4,
            PoolVolume.virsh_instance (self st2) c (daemon st2)
            = (Return v, d3)
            ∧ PoolVolume.list_volumes (after_call st2 c d3)
              = (Return vols2, st4)
            ∧ is_Some (vols2 !! new_name))).
Proof.
  intros Hl. destruct (vol_list_of_after _ _ _ Hl) as [Hv1 Hc1].
  pose proof (volume_exists_run old_name _ _ _ Hl) as He.
  unfold PoolVolume.clone_volume. split.
  - intros Hk. apply contains_false in Hk. rewrite Hk in He.
    assert (Hgo : PoolVolume.and_not (PoolVolume.volume_exists old_name)
                    (PoolVolume.volume_exists new_name) st
                  = (Return false, st1)).
    { unfold PoolVolume.and_not. by rewrite (bind_Return _ _ _ _ _ He). }
    rewrite (bind_Return _ _ _ _ _ Hgo).
    split; [reflexivity|exact Hc1].
  - intros Hk vols1 st2 Hl2. apply contains_true in Hk. rewrite Hk in He.
    destruct (vol_list_of_after _ _ _ Hl2) as [Hv2 Hc2].
    pose proof (volume_exists_run new_name _ _ _ Hl2) as He2.
    assert (Hgo : PoolVolume.and_not (PoolVolume.volume_exists old_name)
                    (PoolVolume.volume_exists new_name) st
                  = (Return (negb (contains vols1 new_name)), st2)).
    { unfold PoolVolume.and_not. rewrite (bind_Return _ _ _ _ _ He).
      by rewrite (bind_Return _ _ _ _ _ He2). }
    rewrite (bind_Return _ _ _ _ _ Hgo). split.
    + intros Hn. apply contains_true in Hn. rewrite Hn. cbn [negb].
      split; [reflexivity|].
      change (calls st2 = calls st ++ [vol_list_of st; vol_list_of st]).
      rewrite Hc2, Hc1, Hv1, <- app_assoc. done.
    + intros Hn. apply contains_false in Hn. rewrite Hn. cbn [negb].
      unfold read_self. unfold bind at 1. cbn [self fst].
      unfold try_CmdError, call. intros Hres.
      set (c := virsh.vol_clone old_name new_name
                  (PoolVolume.pool_name (self st2))) in *.
      destruct (PoolVolume.virsh_instance (self st2) c (daemon st2))
        as [[v|e] d3] eqn:Hcall; [|by destruct e].
      fold (after_call st2 c d3) in Hres.
      destruct (PoolVolume.list_volumes (after_call st2 c d3))
        as [[vols2|e] st4] eqn:Hl3.
      * rewrite (bind_Return _ _ _ _ _ (volume_exists_run new_name _ _ _ Hl3))
          in Hres.
        exists v, d3, vols2, st4. split; [done|]. split; [done|].
        apply contains_true. by destruct (contains vols2 new_name).
      * by rewrite (bind_Raise _ _ _ _ _
                      (volume_exists_Raise new_name _ _ _ Hl3)) in Hres.
Qed.

Lemma clone_volume_guards_witness :
  let st := Example.with_volumes [str "vol1"] in
  fst (PoolVolume.clone_volume (str "vol2") (str "vol3") st) = Return false
  ∧ calls (snd (PoolVolume.clone_volume (str "vol2") (str "vol3") st))
    = calls st ++ [vol_list_of st].
Proof.
  intros st.
  refine (proj1 (clone_volume_guards (str "vol2") (str "vol3") st
                   (<[str "vol1" := str "/pool/vol1"]> ∅)
                   (after_call st (vol_list_of st) [str "vol1"]) eq_refl) _).
  vm_compute. reflexivity.
Defined.

(** ** A failed vol-list reads as an empty pool *)

(** X12. When vol-list fails, the volume counts as absent:
    [volume_exists] returns False, [delete_volume] returns True and
    [clone_volume] False with no further virsh call, and [create_volume]
    goes on to invoke vol-create-as. *)
Theorem failed_listing_reads_as_absent {D} (name : pystr)
    (st : state D (PoolVolume.t D)) detail d' :
  fails_at PoolVolume.virsh_instance (vol_list_of st) st detail d' ->
  fst (PoolVolume.volume_exists name st) = Return false
  ∧ (fst (PoolVolume.delete_volume name st) = Return true
     ∧ calls (snd (PoolVolume.delete_volume name st))
       = calls st ++ [vol_list_of st])
  ∧ (∀ new_name,
       fst (PoolVolume.clone_volume name new_name st) = Return false
       ∧ calls (snd (PoolVolume.clone_volume name new_name st))
         = calls st ++ [vol_list_of st])
  ∧ (∀ capability allocation frmt,
       ∃ rest,
         calls (snd (PoolVolume.create_volume name capability allocation
                       frmt st))
         = calls st
           ++ [vol_list_of st;
               virsh.vol_create_as name (PoolVolume.pool_name (self st))
                 capability allocation frmt]
           ++ rest).
Proof.
  intros Hf. pose proof (list_volumes_CmdError _ _ _ Hf) as Hl.
  pose proof (volume_exists_run name _ _ _ Hl) as He.
  assert (Hn : contains (∅ : gmap pystr pystr) name = false)
    by (apply contains_false, lookup_empty).
  rewrite Hn in He. split; [by rewrite He|]. split; [|split].
  - unfold PoolVolume.delete_volume. rewrite (bind_Return _ _ _ _ _ He).
    split; reflexivity.
  - intros new_name. unfold PoolVolume.clone_volume.
    assert (Hgo : PoolVolume.and_not (PoolVolume.volume_exists name)
                    (PoolVolume.volume_exists new_name) st
                  = (Return false,
                     after_log (after_call st (vol_list_of st) d') ERROR
                       "List volume failed: %s" [LStr detail])).
    { unfold PoolVolume.and_not. by rewrite (bind_Return _ _ _ _ _ He). }
    rewrite (bind_Return _ _ _ _ _ Hgo). split; reflexivity.
  - intros capability allocation frmt. unfold PoolVolume.create_volume.
    rewrite (bind_Return _ _ _ _ _ He).
    unfold read_self. unfold bind at 1. cbn [self fst after_log after_call].
    set (c := virsh.vol_create_as name (PoolVolume.pool_name (self st))
                capability allocation frmt).
    set (st1 := after_log (after_call st (vol_list_of st) d') ERROR
                  "List volume failed: %s" [LStr detail]).
    assert (Hc1 : calls st1 = calls st ++ [vol_list_of st]) by reflexivity.
    unfold try_CmdError, call.
    destruct (PoolVolume.virsh_instance (self st1) c (daemon st1))
      as [[v|e] d2].
    + fold (after_call st1 c d2).
      destruct (PoolVolume.list_volumes (after_call st1 c d2))
        as [[vols2|e] st3] eqn:Hl2;
        destruct (vol_list_of_after _ _ _ Hl2) as [Hv2 Hc2].
      * rewrite (bind_Return _ _ _ _ _ (volume_exists_run name _ _ _ Hl2)).
        destruct (contains vols2 name); cbn [negb].
        -- exists [vol_list_of (after_call st1 c d2)].
           change (calls st3 = calls st ++ [vol_list_of st; c]
                                ++ [vol_list_of (after_call st1 c d2)]).
           rewrite Hc2. cbn [calls after_call after_log]. rewrite Hc1.
           by rewrite <- !app_assoc.
        -- exists [vol_list_of (after_call st1 c d2); vol_list_of st3].
           destruct (PoolVolume.list_volumes st3) as [[vols3|e] st4] eqn:Hl3;
             destruct (vol_list_of_after _ _ _ Hl3) as [Hv3 Hc3].
           ++ rewrite (bind_Return _ _ _ _ _ Hl3).
              change (calls st4 = calls st ++ [vol_list_of st; c]
                        ++ [vol_list_of (after_call st1 c d2);
                            vol_list_of st3]).
              rewrite Hc3, Hc2. cbn [calls after_call after_log]. rewrite Hc1.
              by rewrite <- !app_assoc.
           ++ rewrite (bind_Raise _ _ _ _ _ Hl3). cbn [snd].
              rewrite Hc3, Hc2. cbn [calls after_call after_log]. rewrite Hc1.
              by rewrite <- !app_assoc.
      * rewrite (bind_Raise _ _ _ _ _
                   (volume_exists_Raise name _ _ _ Hl2)).
        exists [vol_list_of (after_call st1 c d2)]. cbn [snd].
        rewrite Hc2. cbn [calls after_call after_log]. rewrite Hc1.
        by rewrite <- !app_assoc.
    + exists []. fold (after_call st1 c d2).
      destruct e; cbn [snd calls after_call after_log emit bind ret LOG.error];
        rewrite Hc1; by rewrite <- !app_assoc.
Qed.

Lemma failed_listing_reads_as_absent_witness :
  let st :=
    Example.start (PoolVolume.init (str "default") (Example.fails "down")) in
  fst (PoolVolume.delete_volume (str "vol1") st) = Return true
  ∧ calls (snd (PoolVolume.delete_volume (str "vol1") st))
    = calls st ++ [vol_list_of st].
Proof.
  intros st.
  exact (proj1 (proj2 (failed_listing_reads_as_absent (str "vol1") st
                         (str "down") tt eq_refl))).
Defined.

(** ** The methods that make one call *)

Lemma one_call_shape {D Self} (vi : Self -> virsh.instance D) c
    (failed succeeded : M D Self unit) :
  (∀ st, calls (snd (failed st)) = calls st ∧ fst (failed st) = Return tt) ->
  (∀ st, calls (snd (succeeded st)) = calls st
         ∧ fst (succeeded st) = Return tt) ->
  one_call_outcome
    (try_CmdError (call vi c)
       (fun _ => bind failed (fun _ => ret false))
       (fun _ => bind succeeded (fun _ => ret true)))
    vi c.
Proof.
  intros Hfail Hok st reply. subst reply. unfold try_CmdError, call.
  destruct (vi (self st) c (daemon st)) as [[v|e] d']; cbn [fst].
  - fold (after_call st c d'). destruct (Hok (after_call st c d')) as [Hc Hr].
    unfold bind. destruct (succeeded (after_call st c d')) as [o s'].
    cbn [fst snd] in *. subst o. cbn [fst snd ret]. rewrite Hc.
    split; [done|]. split; [split; [by eexists|done]|].
    split; [done|]. by intros [? ?].
  - fold (after_call st c d').
    destruct e as [detail| | | | |];
      try (cbn [fst snd]; split; [done|];
           split; (split; [done|by intros [? ?]])).
    destruct (Hfail (after_call st c d')) as [Hc Hr].
    unfold bind. destruct (failed (after_call st c d')) as [o s'].
    cbn [fst snd] in *. subst o. cbn [fst snd ret]. rewrite Hc.
    split; [done|]. split; [split; [done|by intros [? ?]]|].
    split; [by eexists|done].
Qed.

Lemma emit_quiet {D Self} l m a (st : state D Self) :
  calls (snd (emit l m a st)) = calls st ∧ fst (emit l m a st) = Return tt.
Proof. done. Qed.

Lemma define_pool_one_call {D} kind said name pool_type target extra :
  one_call_outcome
    (@StoragePool.define_pool D kind said name pool_type target extra)
    StoragePool.virsh_instance
    (virsh.pool_define_as name pool_type target extra).
Proof.
  unfold StoragePool.define_pool. apply one_call_shape; intros st;
    apply emit_quiet.
Qed.

(** X13. [set_pool_autostart], [build_pool] and the seven [define_*_pool]
    methods each make exactly one virsh call and return True when it
    returns and False when it raises [CmdError]. The calls are
    pool-autostart, pool-build and pool-define-as with the type and the
    extra options written below; [define_netfs_pool] passes its target path
    as [--source-path] and makes no use of its [source_path] argument. *)
Theorem one_call_methods {D} (name a b t : pystr)
    (dargs : list (pystr * virsh.pyarg)) :
  let vi := @StoragePool.virsh_instance D in
  one_call_outcome (StoragePool.set_pool_autostart name a) vi
    (virsh.pool_autostart name a)
  ∧ one_call_outcome (StoragePool.build_pool name a dargs) vi
      (virsh.pool_build name a dargs)
  ∧ one_call_outcome (StoragePool.define_dir_pool name t) vi
      (virsh.pool_define_as name (str "dir") t [])
  ∧ one_call_outcome (StoragePool.define_fs_pool name a t) vi
      (virsh.pool_define_as name (str "fs") t (str "--source-dev " ++ a))
  ∧ one_call_outcome (StoragePool.define_lvm_pool name a b t) vi
      (virsh.pool_define_as name (str "logical") t
         (str "--source-dev " ++ a ++ str " --source-name " ++ b))
  ∧ one_call_outcome (StoragePool.define_disk_pool name a t) vi
      (virsh.pool_define_as name (str "disk") t (str "--source-dev " ++ a))
  ∧ one_call_outcome (StoragePool.define_iscsi_pool name a b t) vi
      (virsh.pool_define_as name (str "iscsi") t
         (str "--source-host " ++ a ++ str "  --source-dev " ++ b))
  ∧ one_call_outcome (StoragePool.define_netfs_pool name a b t) vi
      (virsh.pool_define_as name (str "netfs") t
         (str "--source-host " ++ a ++ str " --source-path " ++ t))
  ∧ one_call_outcome (StoragePool.define_rbd_pool name a b t) vi
      (virsh.pool_define_as name (str "rbd") []
         (str "--source-host " ++ a ++ str " --source-name " ++ b
            ++ str " " ++ t)).
Proof.
  intros vi. repeat apply conj; try apply define_pool_one_call.
  - unfold StoragePool.set_pool_autostart. apply one_call_shape; intros st;
      apply emit_quiet.
  - unfold StoragePool.build_pool. apply one_call_shape; intros st;
      apply emit_quiet.
Qed.

(** ** The virsh calls a method can make *)

Section Issues.
Context {D Self : Type} (Q : Self -> Prop) (P : virsh.command -> Prop).

Lemma issues_quiet {A} (m : M D Self A) :
  (∀ st, self (snd (m st)) = self st ∧ calls (snd (m st)) = calls st) ->
  issues Q P m.
Proof.
  intros H st _. destruct (H st) as [Hs Hc]. split; [done|].
  exists []. by rewrite app_nil_r.
Qed.

Lemma issues_ret {A} (a : A) : issues Q P (@ret D Self A a).
Proof. by apply issues_quiet. Qed.

Lemma issues_raise {A} e : issues Q P (@raise D Self A e).
Proof. by apply issues_quiet. Qed.

Lemma issues_lift {A} (o : outcome A) : issues Q P (@lift D Self A o).
Proof. by apply issues_quiet. Qed.

Lemma issues_emit l m a : issues Q P (@emit D Self l m a).
Proof. by apply issues_quiet. Qed.

Lemma issues_stdout_text v : issues Q P (@stdout_text D Self v).
Proof. apply issues_quiet. by destruct v. Qed.

Lemma issues_call (vi : Self -> virsh.instance D) c :
  (∀ s, Q s -> P c) -> issues Q P (call vi c).
Proof.
  intros Hc st Hq. unfold call.
  destruct (vi (self st) c (daemon st)) as [r d']. split; [done|].
  exists [c]. split; [done|]. constructor; [by eapply Hc|done].
Qed.

Lemma issues_then {A B} (m : M D Self A) (k : outcome A -> M D Self B) :
  issues Q P m -> (∀ o, issues Q P (k o)) ->
  issues Q P (fun st => k (fst (m st)) (snd (m st))).
Proof.
  intros Hm Hk st Hq. destruct (Hm st Hq) as (Hs & l & Hc & Hl).
  assert (Hq' : Q (self (snd (m st)))) by by rewrite Hs.
  destruct (Hk (fst (m st)) (snd (m st)) Hq') as (Hs' & l' & Hc' & Hl').
  split; [by rewrite Hs'|]. exists (l ++ l'). split.
  - by rewrite Hc', Hc, app_assoc.
  - by apply Forall_app.
Qed.

Lemma issues_ext {A} (m m' : M D Self A) :
  (∀ st, m st = m' st) -> issues Q P m' -> issues Q P m.
Proof. intros He Hm st Hq. rewrite He. by apply Hm. Qed.

Lemma issues_bind {A B} (m : M D Self A) (f : A -> M D Self B) :
  issues Q P m -> (∀ a, issues Q P (f a)) -> issues Q P (bind m f).
Proof.
  intros Hm Hf.
  pose (k := fun o : outcome A =>
               match o with
               | Return a => f a
               | Raise e => raise e
               end).
  apply (issues_ext _ (fun st => k (fst (m st)) (snd (m st)))).
  - intros st. unfold bind, k. by destruct (m st) as [[a|e] st'].
  - apply (issues_then m k Hm). intros [a|e]; [apply Hf|apply issues_raise].
Qed.

Lemma issues_try_CmdError {A B} (m : M D Self B) h (k : B -> M D Self A) :
  issues Q P m -> (∀ d, issues Q P (h d)) -> (∀ b, issues Q P (k b)) ->
  issues Q P (try_CmdError m h k).
Proof.
  intros Hm Hh Hk.
  pose (k' := fun o : outcome B =>
                match o with
                | Return b => k b
                | Raise (CmdError d) => h d
                | Raise e => raise e
                end).
  apply (issues_ext _ (fun st => k' (fst (m st)) (snd (m st)))).
  - intros st. unfold try_CmdError, k'.
    destruct (m st) as [[b|e] st']; [done|]. by destruct e.
  - apply (issues_then m k' Hm). intros [b|e]; [apply Hk|].
    destruct e; try apply issues_raise. apply Hh.
Qed.

Lemma issues_try_except {A} (m : M D Self A) h :
  issues Q P m -> (∀ e k, h e = Some k -> issues Q P k) ->
  issues Q P (try_except m h).
Proof.
  intros Hm Hh.
  pose (k' := fun o : outcome A =>
                match o with
                | Return a => ret a
                | Raise e => match h e with
                             | Some k => k
                             | None => raise e
                             end
                end).
  apply (issues_ext _ (fun st => k' (fst (m st)) (snd (m st)))).
  - intros st. unfold try_except, k'.
    destruct (m st) as [[a|e] st']; [done|]. simpl.
    destruct (h e); reflexivity.
  - apply (issues_then m k' Hm). intros [a|e]; [apply issues_ret|].
    simpl. destruct (h e) as [k|] eqn:He; [by eapply Hh|apply issues_raise].
Qed.

End Issues.

Lemma issues_read_self_bind {D Self A B} (Q : Self -> Prop) P
    (field : Self -> A) (f : A -> M D Self B) :
  (∀ a, issues (fun s => Q s ∧ field s = a) P (f a)) ->
  issues Q P (bind (read_self field) f).
Proof.
  intros Hf st Hq. unfold bind, read_self.
  by apply (Hf (field (self st)) st).
Qed.

Lemma issues_on_CmdError_or_KeyError {D Self A} (Q : Self -> Prop) P
    (k0 : M D Self A) e k :
  issues Q P k0 ->
  StoragePool.on_CmdError_or_KeyError k0 e = Some k -> issues Q P k.
Proof.
  intros H0 He. destruct e; simpl in He; try discriminate He;
    by injection He as <-.
Qed.

Lemma issues_final {D Self A} (Q : Self -> Prop) P (m : M D Self A) st :
  issues Q P m -> Q (self st) ->
  ∃ l, calls (final m st) = calls st ++ l ∧ Forall P l.
Proof. intros Hm Hq. by destruct (Hm st Hq) as [_ ?]. Qed.

Ltac issues_step :=
  lazymatch goal with
  | |- issues _ _ (bind (read_self _) _) =>
      apply issues_read_self_bind; intro
  | |- issues _ _ (bind _ _) => apply issues_bind; [|intro]
  | |- issues _ _ (try_CmdError _ _ _) =>
      apply issues_try_CmdError; [|intro|intro]
  | |- issues _ _ (try_except _ _) =>
      apply issues_try_except;
      [|let e := fresh in let k := fresh in let H := fresh in
        intros e k H;
        apply (issues_on_CmdError_or_KeyError _ _ _ _ _ (issues_ret _ _ _) H)]
  | |- issues _ _ (call _ _) => apply issues_call
  | |- issues _ _ (ret _) => apply issues_ret
  | |- issues _ _ (raise _) => apply issues_raise
  | |- issues _ _ (lift _) => apply issues_lift
  | |- issues _ _ (stdout_text _) => apply issues_stdout_text
  | |- issues _ _ (emit _ _ _) => apply issues_emit
  | |- issues _ _ (LOG.error _ _) => apply issues_emit
  | |- issues _ _ (LOG.info _ _) => apply issues_emit
  | |- issues _ _ (LOG.debug _ _) => apply issues_emit
  | |- issues _ _ (if ?b then _ else _) => destruct b
  | |- issues _ _ (match ?o with Some _ => _ | None => _ end) => destruct o
  end.

Ltac unfold_methods :=
  unfold StoragePool.get_pool_uuid, StoragePool.is_pool_persistent,
    StoragePool.delete_pool, StoragePool.delete_pool_undefine,
    StoragePool.set_pool_autostart, StoragePool.build_pool,
    StoragePool.start_pool, StoragePool.destroy_pool,
    StoragePool.define_dir_pool, StoragePool.define_fs_pool,
    StoragePool.define_lvm_pool, StoragePool.define_disk_pool,
    StoragePool.define_iscsi_pool, StoragePool.define_netfs_pool,
    StoragePool.define_rbd_pool, StoragePool.define_pool,
    StoragePool.is_pool_active, StoragePool.pool_state,
    StoragePool.pool_autostart, StoragePool.pool_exists,
    StoragePool.pool_info, StoragePool.list_pools,
    PoolVolume.clone_volume, PoolVolume.and_not, PoolVolume.delete_volume,
    PoolVolume.create_volume, PoolVolume.volume_info,
    PoolVolume.volume_exists, PoolVolume.list_volumes.

Ltac issues_auto := unfold_methods; repeat issues_step.

(** X14. A method of [StoragePool] called for a pool makes no virsh call
    that addresses another pool (pool-list addresses none), and a method of
    [PoolVolume] makes only calls that address the pool of its object. The
    calls made so far are kept, new ones are added at the end. *)
Theorem calls_address_own_pool {D} :
  (∀ (c : StoragePool_call) (st : state D (StoragePool.t D)),
     ∃ l, calls (StoragePool_final c st) = calls st ++ l
          ∧ Forall (fun v => virsh_pool v = None
                             ∨ virsh_pool v = StoragePool_target c) l)
  ∧ (∀ (c : PoolVolume_call) (st : state D (PoolVolume.t D)),
       ∃ l, calls (PoolVolume_final c st) = calls st ++ l
            ∧ Forall (fun v => virsh_pool v
                               = Some (PoolVolume.pool_name (self st))) l).
Proof.
  split.
  - intros c st.
    destruct c; unfold StoragePool_final; cbn [StoragePool_target];
      (eapply (issues_final (fun _ => True)); [|done]);
      issues_auto; intros; cbn; auto.
  - intros c st. set (p := PoolVolume.pool_name (self st)).
    destruct c; unfold PoolVolume_final;
      (eapply (issues_final (fun s => PoolVolume.pool_name s = p));
       [|done]);
      issues_auto; intros; cbn in *; f_equal; intuition congruence.
Qed.

(** X15. The calls that ask ([list_pools], [pool_exists], [pool_state],
    [pool_autostart], [pool_info], [get_pool_uuid], [is_pool_active],
    [is_pool_persistent], [list_volumes], [volume_exists], [volume_info])
    invoke only the reading subcommands pool-list, pool-info, vol-list and
    vol-info. *)
Theorem queries_only_read {D} :
  (∀ (c : StoragePool_call) (st : state D (StoragePool.t D)),
     StoragePool_is_query c = true ->
     ∃ l, calls (StoragePool_final c st) = calls st ++ l
          ∧ Forall (fun v => read_only v = true) l)
  ∧ (∀ (c : PoolVolume_call) (st : state D (PoolVolume.t D)),
       PoolVolume_is_query c = true ->
       ∃ l, calls (PoolVolume_final c st) = calls st ++ l
            ∧ Forall (fun v => read_only v = true) l).
Proof.
  split.
  - intros c st Hc.
    destruct c; try discriminate Hc; unfold StoragePool_final;
      (eapply (issues_final (fun _ => True)); [|done]);
      issues_auto; intros; reflexivity.
  - intros c st Hc.
    destruct c; try discriminate Hc; unfold PoolVolume_final;
      (eapply (issues_final (fun _ => True)); [|done]);
      issues_auto; intros; reflexivity.
Qed.

Lemma queries_only_read_witness :
  let st := Example.with_volumes [str "vol1"] in
  ∃ l, calls (PoolVolume_final (pv_volume_info (str "vol1")) st)
       = calls st ++ l
       ∧ Forall (fun v => read_only v = true) l.
Proof.
  intros st.
  exact (proj2 queries_only_read (pv_volume_info (str "vol1")) st eq_refl).
Defined.

(** ** check_qemu_image_lock_support *)

Lemma str_in_occurs sub s : str_in sub s = true ↔ occurs sub s.
Proof.
  induction s as [|c s IH].
  - cbn [str_in]. rewrite orb_false_r, startswith_spec. unfold occurs. split.
    + intros [r H]. by exists [], r.
    + intros (l & r & H). symmetry in H.
      apply app_eq_nil in H as [-> H]. by exists r.
  - cbn [str_in]. by rewrite orb_true_iff, occurs_cons, IH.
Qed.

(** X16. [check_qemu_image_lock_support] never raises the [CmdError] that
    its handler builds: when [which qemu-img] fails with [CmdError] the
    function raises [UnboundLocalError] and runs nothing else. When both
    commands return, the second one is the stripped output of the first
    followed by [" -h"], and the result is True exactly when ["-U"] occurs
    in its output. A [CmdError] that leaves the function is one of the
    second command. *)
Theorem check_qemu_image_lock_support_outcomes {E}
    (run : process.runner E) (env : E) :
  let which := str "which qemu-img" in
  (∀ detail env1,
     run which false env = (Raise (CmdError detail), env1) ->
     check_qemu_image_lock_support run env = (Raise UnboundLocalError, env1))
  ∧ (∀ out env1 text env2,
       run which false env = (Return out, env1) ->
       run (Py.strip out ++ str " -h") true env1 = (Return text, env2) ->
       ∃ b, check_qemu_image_lock_support run env = (Return b, env2)
            ∧ (b = true ↔ occurs (str "-U") text))
  ∧ (∀ detail,
       fst (check_qemu_image_lock_support run env) = Raise (CmdError detail)
       -> ∃ out env1,
            run which false env = (Return out, env1)
            ∧ fst (run (Py.strip out ++ str " -h") true env1)
              = Raise (CmdError detail)).
Proof.
  intros which. unfold check_qemu_image_lock_support.
  change (str "which " ++ str "qemu-img") with which.
  split; [|split].
  - intros detail env1 H. by rewrite H.
  - intros out env1 text env2 H1 H2. rewrite H1, H2.
    eexists. split; [done|]. apply str_in_occurs.
  - intros detail. destruct (run which false env) as [[out|e] env1].
    + destruct (run (Py.strip out ++ str " -h") true env1)
        as [[text|e] env2] eqn:H2; [done|].
      intros [= ->]. exists out, env1. split; [done|]. by rewrite H2.
    + by destruct e.
Qed.

Lemma check_qemu_image_lock_support_outcomes_witness :
  let run : process.runner unit :=
    fun _ _ d => (Raise (CmdError (str "no qemu-img in PATH")), d) in
  check_qemu_image_lock_support run tt = (Raise UnboundLocalError, tt).
Proof.
  intros run.
  exact (proj1 (check_qemu_image_lock_support_outcomes run tt)
           (str "no qemu-img in PATH") tt eq_refl).
Defined.

(** ** The acting paths of start_pool, destroy_pool and delete_pool *)

(** X17. On a pool that [is_pool_active] reports inactive, [start_pool]
    invokes pool-start once after the pool-list query: it returns True when
    the call returns, False when it raises [CmdError], and lets any other
    exception through. On a pool reported active, [destroy_pool] hands back
    whatever pool-destroy gives, a False or an exception included. *)
Theorem start_and_destroy_act_once {D} (name : pystr)
    (st st1 : state D (StoragePool.t D)) :
  (StoragePool.is_pool_active name st = (Return false, st1) ->
   ∀ r d2,
     StoragePool.virsh_instance (self st1) (virsh.pool_start name)
       (daemon st1) = (r, d2) ->
     calls (snd (StoragePool.start_pool name st))
     = calls st ++ [virsh.pool_list (str "--all"); virsh.pool_start name]
     ∧ match r with
       | Return _ => fst (StoragePool.start_pool name st) = Return true
       | Raise (CmdError _) =>
           fst (StoragePool.start_pool name st) = Return false
       | Raise e => fst (StoragePool.start_pool name st) = Raise e
       end)
  ∧ (StoragePool.is_pool_active name st = (Return true, st1) ->
     ∀ r d2,
       StoragePool.virsh_instance (self st1) (virsh.pool_destroy name)
         (daemon st1) = (r, d2) ->
       fst (StoragePool.destroy_pool name st) = r
       ∧ calls (snd (StoragePool.destroy_pool name st))
         = calls st ++ [virsh.pool_list (str "--all");
                        virsh.pool_destroy name]).
Proof.
  pose proof (is_pool_active_calls name st) as Hc.
  unfold StoragePool.start_pool, StoragePool.destroy_pool.
  split; intros Ha r d2 Hr; rewrite Ha in Hc; cbn [snd] in Hc;
    rewrite (bind_Return _ _ _ _ _ Ha); cbn [negb].
  - unfold try_CmdError. rewrite (call_run _ _ _ _ _ Hr).
    destruct r as [v|e].
    + split; [|done]. cbn [snd calls after_log after_call emit bind ret
                            LOG.info LOG.error].
      by rewrite Hc, <- app_assoc.
    + destruct e;
        (split; [cbn [snd calls after_log after_call emit bind ret
                       LOG.info LOG.error];
                 by rewrite Hc, <- app_assoc|done]).
  - rewrite (call_run _ _ _ _ _ Hr). split; [done|].
    cbn [snd calls after_call]. by rewrite Hc, <- app_assoc.
Qed.

Lemma start_and_destroy_act_once_witness :
  let inactive :=
    ("Name State" ++ Example.nl ++ "----" ++ Example.nl
       ++ "default inactive")%string in
  let st := Example.start (StoragePool.init (Example.prints inactive)) in
  calls (snd (StoragePool.start_pool (str "default") st))
  = calls st ++ [virsh.pool_list (str "--all");
                 virsh.pool_start (str "default")]
  ∧ fst (StoragePool.start_pool (str "default") st) = Return true.
Proof.
  intros inactive st.
  refine (proj1 (start_and_destroy_act_once (str "default") st
                   (after_call st (virsh.pool_list (str "--all")) tt))
            _ (Return (virsh.VResult {| virsh.stdout_text := str inactive |}))
            tt eq_refl).
  vm_compute. reflexivity.
Defined.

(** X18. [delete_pool] does not undefine a pool that it failed to destroy:
    when pool-destroy answers False on an active pool the method returns
    False after the calls pool-list and pool-destroy. And a pool-undefine
    that raises [CmdError] is not a failure by itself, whether the pool was
    inactive or was active and destroyed first: the method asks
    [pool_exists] afterwards and returns True when the pool is gone, False
    when it is still listed. *)
Theorem delete_pool_failures {D} (name : pystr)
    (st st1 : state D (StoragePool.t D)) :
  (StoragePool.is_pool_active name st = (Return true, st1) ->
   ∀ v d2,
     StoragePool.virsh_instance (self st1) (virsh.pool_destroy name)
       (daemon st1) = (Return v, d2) ->
     virsh.truthy v = false ->
     fst (StoragePool.delete_pool name st) = Return false
     ∧ calls (snd (StoragePool.delete_pool name st))
       = calls st ++ [virsh.pool_list (str "--all");
                      virsh.pool_destroy name])
  ∧ (StoragePool.is_pool_active name st = (Return false, st1) ->
     ∀ detail d2 still st3,
       StoragePool.virsh_instance (self st1) (virsh.pool_undefine name)
         (daemon st1) = (Raise (CmdError detail), d2) ->
       StoragePool.pool_exists name
         (after_call st1 (virsh.pool_undefine name) d2)
       = (Return still, st3) ->
       fst (StoragePool.delete_pool name st) = Return (negb still))
  ∧ (StoragePool.is_pool_active name st = (Return true, st1) ->
     ∀ v d2 detail d3 still st3,
       StoragePool.virsh_instance (self st1) (virsh.pool_destroy name)
         (daemon st1) = (Return v, d2) ->
       virsh.truthy v = true ->
       StoragePool.virsh_instance (self st1) (virsh.pool_undefine name) d2
       = (Raise (CmdError detail), d3) ->
       StoragePool.pool_exists name
         (after_call (after_call st1 (virsh.pool_destroy name) d2)
            (virsh.pool_undefine name) d3)
       = (Return still, st3) ->
       fst (StoragePool.delete_pool name st) = Return (negb still)).
Proof.
  pose proof (is_pool_active_calls name st) as Hc.
  unfold StoragePool.delete_pool. split; [|split]; intros Ha.
  - intros v d2 Hd Hv. rewrite Ha in Hc. cbn [snd] in Hc.
    rewrite (bind_Return _ _ _ _ _ Ha).
    rewrite (bind_Return _ _ _ _ _ (call_run _ _ _ _ _ Hd)). rewrite Hv.
    cbn [negb]. split; [done|].
    cbn [snd calls after_log after_call emit bind ret LOG.error].
    by rewrite Hc, <- app_assoc.
  - intros detail d2 still st3 Hu He.
    rewrite (bind_Return _ _ _ _ _ Ha).
    unfold StoragePool.delete_pool_undefine. unfold bind at 1.
    rewrite (try_CmdError_caught _ _ _ _ _ _ (call_run _ _ _ _ _ Hu)).
    rewrite (bind_Return _ _ _ _ _ He). by destruct still.
  - intros v d2 detail d3 still st3 Hd Hv Hu He.
    rewrite (bind_Return _ _ _ _ _ Ha).
    rewrite (bind_Return _ _ _ _ _ (call_run _ _ _ _ _ Hd)). rewrite Hv.
    cbn [negb].
    unfold StoragePool.delete_pool_undefine. unfold bind at 1.
    rewrite (try_CmdError_caught _ _ _ _ _ _
               (call_run StoragePool.virsh_instance _
                  (after_call st1 (virsh.pool_destroy name) d2) _ _ Hu)).
    rewrite (bind_Return _ _ _ _ _ He). by destruct still.
Qed.

Lemma delete_pool_failures_witness :
  let active :=
    ("Name State" ++ Example.nl ++ "----" ++ Example.nl
       ++ "default active")%string in
  let refuses : virsh.instance unit :=
    fun c d =>
      match c with
      | virsh.pool_destroy _ => (Return (virsh.VBool false), d)
      | _ => Example.prints active c d
      end in
  let st := Example.start (StoragePool.init refuses) in
  fst (StoragePool.delete_pool (str "default") st) = Return false
  ∧ calls (snd (StoragePool.delete_pool (str "default") st))
    = calls st ++ [virsh.pool_list (str "--all");
                   virsh.pool_destroy (str "default")].
Proof.
  intros active refuses st.
  refine (proj1 (delete_pool_failures (str "default") st
                   (after_call st (virsh.pool_list (str "--all")) tt))
            _ (virsh.VBool false) tt eq_refl eq_refl).
  vm_compute. reflexivity.
Defined.

Lemma is_pool_active_iff_witness :
  let active :=
    ("Name State" ++ Example.nl ++ "----" ++ Example.nl
       ++ "default active")%string in
  let st := Example.start (StoragePool.init (Example.prints active)) in
  fst (StoragePool.pool_exists (str "default") st) = Return true.
Proof.
  intros active st.
  apply (proj2 (is_pool_active_iff (str "default") st)).
  vm_compute. reflexivity.
Defined.
